(** * A shallow embedding of the TCP runtime

    The development follows the C++ sources:
    - [tcp_utils.cpp]: [LengthPrefixedFramer], [DelimiterFramer],
      [RateLimiter], [BufferManager] with its [CircularBuffer],
      [ConnectionPool];
    - [tcp_socket.cpp]: [TcpSocket], [TcpConnection] and its data path;
    - [tcp_client.cpp]: [TcpClient];
    - [tcp_server.cpp]: [TcpServer].

    Conventions.  A [size_t] is a [Z] in [[0, 2^64)] and every arithmetic
    operation that can leave that range is wrapped with [wrap64].  A
    [uint8_t] is a [Z] in [[0, 256)].  A [std::vector<uint8_t>] is a
    [list Z]; its [size()] is [length], [erase(begin, begin + n)] is
    [skipn n] and the range constructor [(begin, begin + n)] is [firstn n].
    Member functions take the object as an explicit argument and return the
    updated object next to their result.  A [double] is a binary64 value
    of the Standard Library's [SpecFloat]; where C++ leaves the conversion
    of a [double] to an integer type undefined, the value is left open. *)

From Stdlib Require Import Reals Lra.
From Stdlib Require Import String.
From Stdlib Require Import ZArith List Bool Lia Permutation.
From Stdlib Require Import Floats.SpecFloat.
From coqutil Require Import Z.bitblast.
Import ListNotations.
Local Open Scope Z_scope.

(** ** Machine integers *)

Definition SIZE_MAX : Z := 2 ^ 64 - 1.

(** Conversion to [size_t] / unsigned arithmetic on [size_t]. *)
Definition wrap64 (z : Z) : Z := z mod 2 ^ 64.

(** [static_cast<uint16_t>] and [static_cast<uint32_t>]. *)
Definition wrap16 (z : Z) : Z := z mod 2 ^ 16.
Definition wrap32 (z : Z) : Z := z mod 2 ^ 32.

(** [static_cast<uint8_t>], also the implicit narrowing of [push_back]. *)
Definition wrap8 (z : Z) : Z := z mod 2 ^ 8.

(** [v.size()] as a [size_t]. *)
Definition size {A : Type} (v : list A) : Z := Z.of_nat (length v).

(** [v[i]] on a byte vector; the sources only index within bounds, the
    default [0] is never read by the functions below when their callers'
    guards hold. *)
Definition at_ (v : list Z) (i : Z) : Z := nth (Z.to_nat i) v 0.

(** ** LengthPrefixedFramer (tcp_utils.cpp, lines 13-173) *)

Module LengthPrefixedFramer.

Inductive LengthType : Type := UInt8 | UInt16 | UInt32 | UInt64.

Record t : Type := mk {
  lengthType_ : LengthType;
  bigEndian_ : bool;
  buffer_ : list Z;
  expectedLength_ : Z;
  lengthReceived_ : bool
}.

(** The constructor. *)
Definition make (lengthType : LengthType) (bigEndian : bool) : t :=
  mk lengthType bigEndian [] 0 false.

Definition getLengthSize (f : t) : Z :=
  match lengthType_ f with
  | UInt8 => 1
  | UInt16 => 2
  | UInt32 => 4
  | UInt64 => 8
  end.

(** One [data.push_back((len >> (i * 8)) & 0xFF)]. *)
Definition byte_of (len i : Z) : Z := wrap8 (Z.land (Z.shiftr len (i * 8)) 255).

(** [writeLength(data, length)]: the vector [data] after the call. *)
Definition writeLength (f : t) (data : list Z) (length : Z) : list Z :=
  match lengthType_ f with
  | UInt8 => data ++ [wrap8 length]
  | UInt16 =>
      let len := wrap16 length in
      if bigEndian_ f
      then data ++ [byte_of len 1; byte_of len 0]
      else data ++ [byte_of len 0; byte_of len 1]
  | UInt32 =>
      let len := wrap32 length in
      if bigEndian_ f
      then data ++ [byte_of len 3; byte_of len 2; byte_of len 1; byte_of len 0]
      else data ++ [byte_of len 0; byte_of len 1; byte_of len 2; byte_of len 3]
  | UInt64 =>
      let len := wrap64 length in
      if bigEndian_ f
      then fold_left (fun d i => d ++ [byte_of len i]) [7; 6; 5; 4; 3; 2; 1; 0] data
      else fold_left (fun d i => d ++ [byte_of len i]) [0; 1; 2; 3; 4; 5; 6; 7] data
  end.

(** [readLength(data, offset)].  A byte shifted as [uint16_t] is promoted
    to [int]; the shifts on [uint32_t] and [uint64_t] wrap at the width of
    the type. *)
Definition readLength (f : t) (data : list Z) (offset : Z) : Z :=
  match lengthType_ f with
  | UInt8 => at_ data offset
  | UInt16 =>
      if bigEndian_ f
      then Z.lor (Z.shiftl (at_ data offset) 8) (at_ data (offset + 1))
      else Z.lor (at_ data offset) (Z.shiftl (at_ data (offset + 1)) 8)
  | UInt32 =>
      if bigEndian_ f
      then Z.lor (Z.lor (Z.lor (wrap32 (Z.shiftl (at_ data offset) 24))
                               (wrap32 (Z.shiftl (at_ data (offset + 1)) 16)))
                        (wrap32 (Z.shiftl (at_ data (offset + 2)) 8)))
                 (at_ data (offset + 3))
      else Z.lor (Z.lor (Z.lor (at_ data offset)
                               (wrap32 (Z.shiftl (at_ data (offset + 1)) 8)))
                        (wrap32 (Z.shiftl (at_ data (offset + 2)) 16)))
                 (wrap32 (Z.shiftl (at_ data (offset + 3)) 24))
  | UInt64 =>
      if bigEndian_ f
      then fold_left
             (fun result i =>
                Z.lor result (wrap64 (Z.shiftl (at_ data (offset + i)) ((7 - i) * 8))))
             [0; 1; 2; 3; 4; 5; 6; 7] 0
      else fold_left
             (fun result i =>
                Z.lor result (wrap64 (Z.shiftl (at_ data (offset + i)) (i * 8))))
             [0; 1; 2; 3; 4; 5; 6; 7] 0
  end.

(** [frame(data)]; the framer itself is not changed. *)
Definition frame (f : t) (data : list Z) : list Z :=
  writeLength f [] (size data) ++ data.

(** The [while] loop of [unframe].  [fuel] bounds the number of
    iterations; [None] means the bound was too small.  [messages] is the
    local vector of the same name. *)
Fixpoint unframe_loop (fuel : nat) (f : t) (messages : list (list Z))
  : option (list (list Z) * t) :=
  match fuel with
  | O => None
  | S fuel' =>
      if size (buffer_ f) <? getLengthSize f then Some (messages, f)
      else
        (* if (!lengthReceived_) *)
        let header :=
          if negb (lengthReceived_ f) then
            if getLengthSize f <=? size (buffer_ f) then
              Some (mk (lengthType_ f) (bigEndian_ f)
                       (skipn (Z.to_nat (getLengthSize f)) (buffer_ f))
                       (readLength f (buffer_ f) 0)
                       true)
            else None (* break *)
          else Some f in
        match header with
        | None => Some (messages, f)
        | Some f1 =>
            if lengthReceived_ f1 && (expectedLength_ f1 <=? size (buffer_ f1)) then
              let message := firstn (Z.to_nat (expectedLength_ f1)) (buffer_ f1) in
              unframe_loop fuel'
                (mk (lengthType_ f1) (bigEndian_ f1)
                    (skipn (Z.to_nat (expectedLength_ f1)) (buffer_ f1))
                    0 false)
                (messages ++ [message])
            else Some (messages, f1) (* break *)
        end
  end.

(** Every iteration that continues erases the header (at least one byte)
    or leaves the [lengthReceived_] state: [measure] decreases, and
    [unframe_fuel] iterations are enough (see [lpf_unframe_total]). *)
Definition measure (f : t) : nat :=
  (2 * length (buffer_ f) + (if lengthReceived_ f then 1 else 0))%nat.

Definition unframe_fuel (f : t) : nat :=
  (2 * length (buffer_ f) + 3)%nat.

(** [unframe(data)]: the emitted messages and the framer after the call. *)
Definition unframe (f : t) (data : list Z) : option (list (list Z) * t) :=
  let f0 := mk (lengthType_ f) (bigEndian_ f) (buffer_ f ++ data)
               (expectedLength_ f) (lengthReceived_ f) in
  unframe_loop (unframe_fuel f0) f0 [].

Definition isComplete (f : t) (data : list Z) : bool :=
  if size data <? getLengthSize f then false
  else wrap64 (getLengthSize f + readLength f data 0) <=? size data.

Definition reset (f : t) : t :=
  mk (lengthType_ f) (bigEndian_ f) [] 0 false.

(** Feeding a list of chunks, one [unframe] call each: the lists of
    messages the calls return, in order, and the final framer. *)
Fixpoint feed (f : t) (chunks : list (list Z)) : option (list (list (list Z)) * t) :=
  match chunks with
  | [] => Some ([], f)
  | c :: rest =>
      match unframe f c with
      | None => None
      | Some (ms, f') =>
          match feed f' rest with
          | None => None
          | Some (mss, f'') => Some (ms :: mss, f'')
          end
      end
  end.

End LengthPrefixedFramer.

(** ** DelimiterFramer (tcp_utils.cpp, lines 175-228) *)

Module DelimiterFramer.

Record t : Type := mk {
  delimiter_ : list Z;
  includeDelimiter_ : bool;
  buffer_ : list Z
}.

Definition make (delimiter : list Z) (includeDelimiter : bool) : t :=
  mk delimiter includeDelimiter [].

(** [std::equal(first1, last1, first2)]: the range [d] against the
    elements starting at the head of [l].  [findDelimiter] only calls it
    with at least [length d] elements left in [l]. *)
Fixpoint std_equal (d l : list Z) : bool :=
  match d, l with
  | [], _ => true
  | x :: d', y :: l' => (x =? y) && std_equal d' l'
  | _ :: _, [] => false
  end.

(** The [for] loop of [findDelimiter]: [count] positions are left to try,
    starting at [i].  [None] stands for [std::string::npos]. *)
Fixpoint find_from (d data : list Z) (count : nat) (i : nat) : option nat :=
  match count with
  | O => None
  | S count' =>
      if std_equal d (skipn i data) then Some i
      else find_from d data count' (S i)
  end.

Definition findDelimiter (f : t) (data : list Z) (startPos : nat) : option nat :=
  if (length (delimiter_ f) =? 0)%nat || (length data <? length (delimiter_ f))%nat
  then None
  else
    (* i = startPos; i <= data.size() - delimiter_.size(); i++ *)
    find_from (delimiter_ f) data
              (S (length data - length (delimiter_ f)) - startPos) startPos.

Definition frame (f : t) (data : list Z) : list Z :=
  data ++ delimiter_ f.

Fixpoint unframe_loop (fuel : nat) (f : t) (messages : list (list Z))
  : option (list (list Z) * t) :=
  match fuel with
  | O => None
  | S fuel' =>
      match findDelimiter f (buffer_ f) 0 with
      | None => Some (messages, f)
      | Some pos =>
          let message := firstn pos (buffer_ f) in
          let message :=
            if includeDelimiter_ f then message ++ delimiter_ f else message in
          unframe_loop fuel'
            (mk (delimiter_ f) (includeDelimiter_ f)
                (skipn (pos + length (delimiter_ f)) (buffer_ f)))
            (messages ++ [message])
      end
  end.

(** A match erases at least the (non-empty) delimiter. *)
Definition unframe_fuel (f : t) : nat := S (length (buffer_ f)).

Definition unframe (f : t) (data : list Z) : option (list (list Z) * t) :=
  let f0 := mk (delimiter_ f) (includeDelimiter_ f) (buffer_ f ++ data) in
  unframe_loop (unframe_fuel f0) f0 [].

(** Feeding a list of chunks, one [unframe] call each. *)
Fixpoint feed (f : t) (chunks : list (list Z)) : option (list (list (list Z)) * t) :=
  match chunks with
  | [] => Some ([], f)
  | c :: rest =>
      match unframe f c with
      | None => None
      | Some (ms, f') =>
          match feed f' rest with
          | None => None
          | Some (mss, f'') => Some (ms :: mss, f'')
          end
      end
  end.

Definition isComplete (f : t) (data : list Z) : bool :=
  match findDelimiter f data 0 with
  | Some _ => true
  | None => false
  end.

Definition reset (f : t) : t :=
  mk (delimiter_ f) (includeDelimiter_ f) [].

End DelimiterFramer.

(** ** RateLimiter (tcp_utils.cpp, lines 321-392) *)

Module RateLimiter.

(** *** IEEE 754 binary64, the C++ [double] *)

Definition prec : Z := 53.
Definition emax : Z := 1024.

(** Conversion of an integer ([size_t], [long long] or an [int] literal)
    to [double], rounding to nearest even. *)
Definition to_double (z : Z) : spec_float := binary_normalize prec emax z 0 false.

Definition double_div (x y : spec_float) : spec_float := SFdiv prec emax x y.
Definition double_mul (x y : spec_float) : spec_float := SFmul prec emax x y.

(** The integral part of a [double], rounding towards zero.  An infinity
    and a NaN have none. *)
Definition truncate (x : spec_float) : option Z :=
  match x with
  | S754_zero _ => Some 0
  | S754_finite s m e =>
      let v := if 0 <=? e then Z.pos m * 2 ^ e else Z.pos m / 2 ^ (- e) in
      Some (if s then - v else v)
  | S754_infinity _ | S754_nan => None
  end.

(** The finite double of mantissa [m] and exponent [e] stands for the real
    number [m * 2^e].  [near_double x lo hi X] says that [x] is a positive
    double with a full 53-bit mantissa and an exponent in [[lo, hi]], and
    that it stands for the real [X] up to the relative error
    [eps = 2^-52]. *)
Definition bpow (e : Z) : R := powerRZ 2 e.

Definition eps : R := (/ 4503599627370496)%R.

Definition near_double (x : spec_float) (lo hi : Z) (X : R) : Prop :=
  exists m e,
    x = S754_finite false m e
    /\ Zdigits2 (Zpos m) = 53
    /\ lo <= e <= hi
    /\ (X * (1 - eps) <= IZR (Zpos m) * bpow e <= X * (1 + eps))%R.

(** The values of a [long long]; [wrap_long_long] brings an integer into
    that range. *)
Definition LLONG_MIN : Z := - 2 ^ 63.
Definition LLONG_MAX : Z := 2 ^ 63 - 1.
Definition wrap_long_long (z : Z) : Z := (z + 2 ^ 63) mod 2 ^ 64 - 2 ^ 63.

Section Conversions.

(** [static_cast<size_t>(x)] and [static_cast<long long>(x)] yield the
    integral part of [x] when the target type can hold it.  Otherwise, and
    for an infinity or a NaN, C++ leaves the conversion undefined: the
    source does not say what the program gets.  That value is left open
    here, as [undefined_size_t x] and [undefined_long_long x] brought into
    the target type; every function below that converts a [double] takes
    them as arguments, and every property of these functions is proved for
    all of them. *)
Variable undefined_size_t : spec_float -> Z.
Variable undefined_long_long : spec_float -> Z.

Definition double_to_size_t (x : spec_float) : Z :=
  match truncate x with
  | Some v => if (0 <=? v) && (v <=? SIZE_MAX) then v else wrap64 (undefined_size_t x)
  | None => wrap64 (undefined_size_t x)
  end.

Definition double_to_long_long (x : spec_float) : Z :=
  match truncate x with
  | Some v =>
      if (LLONG_MIN <=? v) && (v <=? LLONG_MAX) then v
      else wrap_long_long (undefined_long_long x)
  | None => wrap_long_long (undefined_long_long x)
  end.

(** *** The limiter *)

(** [lastRefill_] and every clock reading [now] are
    [steady_clock::time_point]s, counted in nanoseconds. *)
Record t : Type := mk {
  bytesPerSecond_ : Z;
  bucketSize_ : Z;
  availableBytes_ : Z;
  lastRefill_ : Z
}.

(** The constructor, run when the steady clock reads [now]. *)
Definition make (now : Z) (bytesPerSecond bucketSize : Z) : t :=
  let bucket := if 0 <? bucketSize then bucketSize else bytesPerSecond in
  mk bytesPerSecond bucket bucket now.

(** [duration_cast<milliseconds>(now - lastRefill_).count()]. *)
Definition elapsed_ms (now : Z) (l : t) : Z :=
  Z.quot (now - lastRefill_ l) 1000000.

(** [static_cast<size_t>((elapsed.count() / 1000.0) * bytesPerSecond_)]. *)
Definition tokensToAdd (elapsed bytesPerSecond : Z) : Z :=
  double_to_size_t
    (double_mul (double_div (to_double elapsed) (to_double 1000))
                (to_double bytesPerSecond)).

Definition refillBucket (now : Z) (l : t) : t :=
  let elapsed := elapsed_ms now l in
  if 0 <? elapsed then
    mk (bytesPerSecond_ l) (bucketSize_ l)
       (Z.min (bucketSize_ l)
              (wrap64 (availableBytes_ l + tokensToAdd elapsed (bytesPerSecond_ l))))
       now
  else l.

Definition allowBytes (now : Z) (bytes : Z) (l : t) : bool * t :=
  let l1 := refillBucket now l in
  if bytes <=? availableBytes_ l1 then
    (true, mk (bytesPerSecond_ l1) (bucketSize_ l1)
              (wrap64 (availableBytes_ l1 - bytes)) (lastRefill_ l1))
  else (false, l1).

(** [getDelay(bytes)], in milliseconds.  The member is [const]: it reads
    neither the clock nor anything but the limiter's fields. *)
Definition getDelay (bytes : Z) (l : t) : Z :=
  if bytes <=? availableBytes_ l then 0
  else
    let deficit := wrap64 (bytes - availableBytes_ l) in
    let secondsToWait := double_div (to_double deficit) (to_double (bytesPerSecond_ l)) in
    double_to_long_long (double_mul secondsToWait (to_double 1000)).

(** [waitForBytes(bytes)].  [clock] lists the clock readings of the
    successive [allowBytes] attempts (the loop sleeps between them); the
    result tells whether one of them succeeded, with the limiter after the
    last attempt made. *)
Fixpoint waitForBytes (clock : list Z) (bytes : Z) (l : t) : bool * t :=
  match clock with
  | [] => (false, l)
  | now :: later =>
      let '(ok, l') := allowBytes now bytes l in
      if ok then (true, l') else waitForBytes later bytes l'
  end.

Definition setRate (bytesPerSecond : Z) (l : t) : t :=
  mk bytesPerSecond (bucketSize_ l) (availableBytes_ l) (lastRefill_ l).

Definition setBucketSize (bucketSize : Z) (l : t) : t :=
  mk (bytesPerSecond_ l) bucketSize (availableBytes_ l) (lastRefill_ l).

Definition getAvailableBytes (l : t) : Z := availableBytes_ l.

Definition reset (now : Z) (l : t) : t :=
  mk (bytesPerSecond_ l) (bucketSize_ l) (bucketSize_ l) now.

(** *** Sequences of calls *)

Inductive op : Type :=
| AllowBytes (now bytes : Z)
| GetDelay (bytes : Z)
| WaitForBytes (clock : list Z) (bytes : Z)
| SetRate (bytesPerSecond : Z)
| SetBucketSize (bucketSize : Z)
| Reset (now : Z)
| GetAvailableBytes.

Definition apply (o : op) (l : t) : t :=
  match o with
  | AllowBytes now bytes => snd (allowBytes now bytes l)
  | GetDelay _ => l
  | WaitForBytes clock bytes => snd (waitForBytes clock bytes l)
  | SetRate r => setRate r l
  | SetBucketSize b => setBucketSize b l
  | Reset now => reset now l
  | GetAvailableBytes => l
  end.

Definition run (ops : list op) (l : t) : t := fold_left (fun l o => apply o l) ops l.

(** The invariant of the data model. *)
Definition in_bucket (l : t) : Prop :=
  0 <= availableBytes_ l <= bucketSize_ l.

(** The calls other than [setBucketSize], with [size_t] arguments. *)
Definition keeps_bucket (o : op) : Prop :=
  match o with
  | AllowBytes _ bytes => 0 <= bytes
  | WaitForBytes _ bytes => 0 <= bytes
  | SetBucketSize _ => False
  | _ => True
  end.

(** What the token count would be after a lazy refill at [now]. *)
Definition refilled (now : Z) (l : t) : Z := availableBytes_ (refillBucket now l).

(** The refill as C7 words it, [min(bucketSize, tokens + elapsed_seconds *
    bytesPerSecond)] with the time elapsed since the last refill, counted
    in units of [10^-9] token so that the nanoseconds of the clock need no
    division. *)
Definition refill_as_claimed (now : Z) (l : t) : Z :=
  Z.min (10 ^ 9 * bucketSize_ l)
        (10 ^ 9 * availableBytes_ l + (now - lastRefill_ l) * bytesPerSecond_ l).

(** *** Accounting over successive [allowBytes] calls

    A call is a clock reading and a byte count.  [credit] is the number of
    tokens the refill of a call computes; [granted] adds up the byte
    counts of the calls that return [true], [credited] the tokens the
    refills compute, and [after_calls] is the limiter the calls leave. *)
Definition credit (now : Z) (l : t) : Z :=
  if 0 <? elapsed_ms now l
  then tokensToAdd (elapsed_ms now l) (bytesPerSecond_ l)
  else 0.

Fixpoint granted (calls : list (Z * Z)) (l : t) : Z :=
  match calls with
  | [] => 0
  | (now, bytes) :: rest =>
      (if fst (allowBytes now bytes l) then bytes else 0)
      + granted rest (snd (allowBytes now bytes l))
  end.

Fixpoint credited (calls : list (Z * Z)) (l : t) : Z :=
  match calls with
  | [] => 0
  | (now, bytes) :: rest =>
      credit now l + credited rest (snd (allowBytes now bytes l))
  end.

Fixpoint after_calls (calls : list (Z * Z)) (l : t) : t :=
  match calls with
  | [] => l
  | (now, bytes) :: rest => after_calls rest (snd (allowBytes now bytes l))
  end.

(** The clock readings of a polling loop such as the one of
    [waitForBytes], which sleeps ten milliseconds between its attempts:
    every reading is at least one and less than eleven milliseconds after
    the one before; [last] is the reading before the first. *)
Fixpoint paced (last : Z) (clock : list Z) : Prop :=
  match clock with
  | [] => True
  | now :: later => 1000000 <= now - last < 11000000 /\ paced now later
  end.

End Conversions.

End RateLimiter.

(** ** BufferManager::CircularBuffer (tcp_utils.cpp, lines 441-506) *)

Module CircularBuffer.

Record t : Type := mk {
  buffer_ : list Z;
  capacity_ : Z;
  size_ : Z;
  head_ : Z;
  tail_ : Z
}.

Definition make (capacity : Z) : t :=
  mk (repeat 0 (Z.to_nat capacity)) capacity 0 0 0.

(** [a % b] on [size_t]; a zero divisor is undefined behaviour (a trap on
    the usual targets), rendered as [None]. *)
Definition umod (a b : Z) : option Z :=
  if b =? 0 then None else Some (a mod b).

(** [v[i] = x]. *)
Fixpoint store (v : list Z) (i : nat) (x : Z) : list Z :=
  match v, i with
  | [], _ => []
  | _ :: v', O => x :: v'
  | y :: v', S i' => y :: store v' i' x
  end.

(** The loop of [write]: [n] iterations are left, the next one copies
    [sourceData[i]]. *)
Fixpoint write_loop (n : nat) (i : Z) (sourceData : list Z) (b : t) : option t :=
  match n with
  | O => Some b
  | S n' =>
      match umod (wrap64 (tail_ b + 1)) (capacity_ b) with
      | None => None
      | Some tail' =>
          write_loop n' (i + 1) sourceData
            (mk (store (buffer_ b) (Z.to_nat (tail_ b)) (at_ sourceData i))
                (capacity_ b) (wrap64 (size_ b + 1)) (head_ b) tail')
      end
  end.

(** [write(data, length)]: the count returned and the buffer afterwards. *)
Definition write (sourceData : list Z) (length : Z) (b : t) : option (Z * t) :=
  let availableSpace := wrap64 (capacity_ b - size_ b) in
  let writeLength := Z.min length availableSpace in
  match write_loop (Z.to_nat writeLength) 0 sourceData b with
  | None => None
  | Some b' => Some (writeLength, b')
  end.

(** The loop of [read]: the bytes copied to [destData] so far are [dest]. *)
Fixpoint read_loop (n : nat) (dest : list Z) (b : t) : option (list Z * t) :=
  match n with
  | O => Some (dest, b)
  | S n' =>
      match umod (wrap64 (head_ b + 1)) (capacity_ b) with
      | None => None
      | Some head' =>
          read_loop n' (dest ++ [at_ (buffer_ b) (head_ b)])
            (mk (buffer_ b) (capacity_ b) (wrap64 (size_ b - 1)) head' (tail_ b))
      end
  end.

(** [read(data, length)]: the count returned, the bytes stored at [data],
    and the buffer afterwards. *)
Definition read (length : Z) (b : t) : option (Z * list Z * t) :=
  let readLength := Z.min length (size_ b) in
  match read_loop (Z.to_nat readLength) [] b with
  | None => None
  | Some (dest, b') => Some (readLength, dest, b')
  end.

Fixpoint peek_loop (n : nat) (dest : list Z) (b : t) (tempHead : Z) : option (list Z) :=
  match n with
  | O => Some dest
  | S n' =>
      match umod (wrap64 (tempHead + 1)) (capacity_ b) with
      | None => None
      | Some tempHead' => peek_loop n' (dest ++ [at_ (buffer_ b) tempHead]) b tempHead'
      end
  end.

(** [peek(data, length)] is [const]: the count and the bytes copied. *)
Definition peek (length : Z) (b : t) : option (Z * list Z) :=
  let peekLength := Z.min length (size_ b) in
  match peek_loop (Z.to_nat peekLength) [] b (head_ b) with
  | None => None
  | Some dest => Some (peekLength, dest)
  end.

Definition skip (length : Z) (b : t) : option t :=
  let skipLength := Z.min length (size_ b) in
  match umod (wrap64 (head_ b + skipLength)) (capacity_ b) with
  | None => None
  | Some head' =>
      Some (mk (buffer_ b) (capacity_ b) (wrap64 (size_ b - skipLength)) head' (tail_ b))
  end.

Definition clear (b : t) : t :=
  mk (buffer_ b) (capacity_ b) 0 0 0.

Definition getSize (b : t) : Z := size_ b.
Definition getCapacity (b : t) : Z := capacity_ b.
Definition getAvailableSpace (b : t) : Z := wrap64 (capacity_ b - size_ b).

(** [std::vector<uint8_t>::max_size()]: no vector is longer. *)
Definition MAX_SIZE : Z := 2 ^ 63 - 1.

(** The states the member functions produce from a constructed buffer:
    the vector exists and has [capacity_] cells, the indices are inside
    it, and [tail_] is [size_] cells ahead of [head_]. *)
Definition wf (b : t) : Prop :=
  size (buffer_ b) = capacity_ b /\
  capacity_ b <= MAX_SIZE /\
  0 <= size_ b <= capacity_ b /\
  (capacity_ b = 0 -> head_ b = 0 /\ tail_ b = 0) /\
  (0 < capacity_ b ->
     0 <= head_ b < capacity_ b /\
     tail_ b = (head_ b + size_ b) mod capacity_ b).

(** The bytes held, oldest first: [n] cells read from index [h] on,
    wrapping at the end of the vector. *)
Fixpoint cells (v : list Z) (cap : Z) (h : Z) (n : nat) : list Z :=
  match n with
  | O => []
  | S n' => at_ v h :: cells v cap ((h + 1) mod cap) n'
  end.

Definition contents (b : t) : list Z :=
  cells (buffer_ b) (capacity_ b) (head_ b) (Z.to_nat (size_ b)).

(** *** Sequences of calls *)

Inductive op : Type :=
| Write (sourceData : list Z) (length : Z)
| Read (length : Z)
| Peek (length : Z)
| Skip (length : Z)
| Clear.

(** What a call hands back, the count returned and the bytes copied out
    ([skip] and [clear] return nothing), with the buffer afterwards. *)
Definition apply (o : op) (b : t) : option (Z * list Z * t) :=
  match o with
  | Write sourceData length =>
      match write sourceData length b with
      | Some (n, b') => Some (n, [], b')
      | None => None
      end
  | Read length => read length b
  | Peek length =>
      match peek length b with
      | Some (n, dest) => Some (n, dest, b)
      | None => None
      end
  | Skip length =>
      match skip length b with
      | Some b' => Some (0, [], b')
      | None => None
      end
  | Clear => Some (0, [], clear b)
  end.

Fixpoint run (ops : list op) (b : t) : option (list (Z * list Z) * t) :=
  match ops with
  | [] => Some ([], b)
  | o :: rest =>
      match apply o b with
      | None => None
      | Some (n, dest, b') =>
          match run rest b' with
          | None => None
          | Some (answers, b'') => Some ((n, dest) :: answers, b'')
          end
      end
  end.

(** The bounded first-in first-out queue the class is meant to be: the
    bytes held, oldest first, and the same calls on it. *)
Definition queue_apply (capacity : Z) (o : op) (q : list Z) : Z * list Z * list Z :=
  match o with
  | Write sourceData length =>
      let n := Z.min length (capacity - size q) in
      (n, [], q ++ firstn (Z.to_nat n) sourceData)
  | Read length =>
      let n := Z.min length (size q) in
      (n, firstn (Z.to_nat n) q, skipn (Z.to_nat n) q)
  | Peek length =>
      let n := Z.min length (size q) in
      (n, firstn (Z.to_nat n) q, q)
  | Skip length =>
      (0, [], skipn (Z.to_nat (Z.min length (size q))) q)
  | Clear => (0, [], [])
  end.

Fixpoint queue_run (capacity : Z) (ops : list op) (q : list Z)
  : list (Z * list Z) * list Z :=
  match ops with
  | [] => ([], q)
  | o :: rest =>
      let '(n, dest, q') := queue_apply capacity o q in
      let '(answers, q'') := queue_run capacity rest q' in
      ((n, dest) :: answers, q'')
  end.

(** The arguments a caller may pass: a [size_t] count, and for [write] a
    source that holds that many bytes. *)
Definition op_ok (o : op) : Prop :=
  match o with
  | Write sourceData length => 0 <= length <= SIZE_MAX /\ length <= size sourceData
  | Read length | Peek length | Skip length => 0 <= length <= SIZE_MAX
  | Clear => True
  end.

End CircularBuffer.

(** ** BufferManager (tcp_utils.cpp, lines 394-439) *)

Module BufferManager.

(** [concatenateBuffers(buffers)]: the second loop, which appends every
    buffer to [result]; the first only adds up the sizes for [reserve]. *)
Definition concatenateBuffers (buffers : list (list Z)) : list Z :=
  fold_left (fun result buffer => result ++ buffer) buffers [].

(** The [for] loop of [splitBuffer], at index [i] with the chunks made so
    far.  [fuel] bounds the number of iterations; [None] means the bound
    was too small.  The range constructor is given [buffer.begin() + i]
    and [buffer.begin() + end]. *)
Fixpoint splitBuffer_loop (fuel : nat) (buffer : list Z) (chunkSize : Z) (i : Z)
                          (chunks : list (list Z)) : option (list (list Z)) :=
  match fuel with
  | O => None
  | S fuel' =>
      if i <? size buffer then
        let end_ := Z.min (wrap64 (i + chunkSize)) (size buffer) in
        splitBuffer_loop fuel' buffer chunkSize (wrap64 (i + chunkSize))
          (chunks ++ [firstn (Z.to_nat (end_ - i)) (skipn (Z.to_nat i) buffer)])
      else Some chunks
  end.

(** With a chunk size that is not zero the index grows in every
    iteration, so [size + 1] iterations are enough (see
    [splitBuffer_concatenateBuffers]). *)
Definition splitBuffer (buffer : list Z) (chunkSize : Z) : option (list (list Z)) :=
  splitBuffer_loop (S (length buffer)) buffer chunkSize 0 [].

End BufferManager.

(** ** ConnectionPool (tcp_utils.cpp, lines 230-319) *)

Module ConnectionPool.

(** A [std::shared_ptr<TcpConnection>]: [None] is the null pointer,
    [Some id] points to the connection object [id]. *)
Definition Connection : Type := option Z.

Definition Connection_eqb (a b : Connection) : bool :=
  match a, b with
  | Some x, Some y => x =? y
  | None, None => true
  | _, _ => false
  end.

Record t : Type := mk {
  maxConnections_ : Z;
  idleConnections_ : list Connection;
  activeConnections_ : list Connection;
  connectionFactory_ : bool      (* a factory is set *)
}.

Definition make (maxConnections : Z) : t := mk maxConnections [] [] false.

(** How [acquire()] ends: it returns a pointer, or the calling thread is
    blocked in [condition_.wait] (the mutex released) with the pool as
    given. *)
Inductive acquired : Type :=
| Got (connection : Connection) (p : t)
| Blocked (p : t).

(** The block that moves [idleConnections_.back()] to the active
    connections; [None] when there is no idle connection. *)
Definition take_idle (p : t) : option (Connection * t) :=
  match idleConnections_ p with
  | [] => None
  | _ :: _ =>
      let connection := last (idleConnections_ p) None in
      Some (connection,
            mk (maxConnections_ p) (removelast (idleConnections_ p))
               (activeConnections_ p ++ [connection]) (connectionFactory_ p))
  end.

(** The predicate handed to [condition_.wait]. *)
Definition wait_predicate (p : t) : bool :=
  negb (match idleConnections_ p with [] => true | _ => false end)
  || (size (activeConnections_ p) <? maxConnections_ p).

(** [acquire()] from the wait on: the wait returns when its predicate
    holds, at the call or when the thread is notified later with the pool
    as [p]. *)
Definition resume (p : t) : acquired :=
  if wait_predicate p then
    match take_idle p with
    | Some (connection, p') => Got connection p'
    | None => Got None p
    end
  else Blocked p.

(** [acquire()]; [produced] is what the factory returns if it is called. *)
Definition acquire (produced : Connection) (p : t) : acquired :=
  match take_idle p with
  | Some (connection, p') => Got connection p'
  | None =>
      if (size (activeConnections_ p) <? maxConnections_ p) && connectionFactory_ p then
        match produced with
        | Some _ =>
            Got produced
                (mk (maxConnections_ p) (idleConnections_ p)
                    (activeConnections_ p ++ [produced]) (connectionFactory_ p))
        | None => resume p
        end
      else resume p
  end.

(** [std::find] and [erase] on the active connections: the vector without
    the first occurrence, [None] when there is none. *)
Fixpoint erase_first (connection : Connection) (v : list Connection)
  : option (list Connection) :=
  match v with
  | [] => None
  | x :: v' =>
      if Connection_eqb x connection then Some v'
      else match erase_first connection v' with
           | Some v'' => Some (x :: v'')
           | None => None
           end
  end.

Definition release (connection : Connection) (p : t) : t :=
  match erase_first connection (activeConnections_ p) with
  | Some active =>
      mk (maxConnections_ p)
         (match connection with
          | Some _ => idleConnections_ p ++ [connection]
          | None => idleConnections_ p
          end)
         active (connectionFactory_ p)
  | None => p
  end.

Definition clear (p : t) : t :=
  mk (maxConnections_ p) [] [] (connectionFactory_ p).

Definition setConnectionFactory (set : bool) (p : t) : t :=
  mk (maxConnections_ p) (idleConnections_ p) (activeConnections_ p) set.

Definition getActiveConnections (p : t) : Z := size (activeConnections_ p).
Definition getIdleConnections (p : t) : Z := size (idleConnections_ p).

(** *** Sequences of calls

    A thread whose [acquire()] blocks leaves the pool as it is; the other
    threads go on calling. *)
Inductive op : Type :=
| Acquire (produced : Connection)
| Release (connection : Connection)
| Clear
| SetConnectionFactory (set : bool).

Definition apply (o : op) (p : t) : t :=
  match o with
  | Acquire produced =>
      match acquire produced p with
      | Got _ p' => p'
      | Blocked p' => p'
      end
  | Release connection => release connection p
  | Clear => clear p
  | SetConnectionFactory set => setConnectionFactory set p
  end.

Definition run (ops : list op) (p : t) : t := fold_left (fun p o => apply o p) ops p.

(** The connections the pool holds. *)
Definition held (p : t) : list Connection :=
  activeConnections_ p ++ idleConnections_ p.

(** The factory makes a new object at every call: what it would return
    is not a connection the pool holds. *)
Fixpoint factory_fresh (ops : list op) (p : t) : Prop :=
  match ops with
  | [] => True
  | o :: rest =>
      match o with
      | Acquire produced => ~ In produced (held p)
      | _ => True
      end /\ factory_fresh rest (apply o p)
  end.

(** No more than [maxConnections_] connections, each held once, none of
    them null. *)
Definition pool_ok (p : t) : Prop :=
  size (held p) <= maxConnections_ p
  /\ NoDup (held p)
  /\ ~ In None (held p).

End ConnectionPool.

(** ** The socket layer (tcp_socket.h, tcp_socket.cpp)

    The entities are modelled from the point of view of the thread that
    calls a member function; the background loops are taken to be at their
    waiting points.  The process-wide state that calls act on is the set of
    open descriptors and the record of application callbacks fired. *)

Inductive ErrorCode : Type :=
| Success | InvalidSocket | ConnectionFailed | ConnectionClosed | SendFailed
| ReceiveFailed | BindFailed | ListenFailed | AcceptFailed | InvalidAddress
| Timeout | WouldBlock | SslError | UnknownError.

Inductive ConnectionState : Type :=
| Disconnected | Connecting | Connected | Disconnecting | Error.

Definition ConnectionState_eqb (a b : ConnectionState) : bool :=
  match a, b with
  | Disconnected, Disconnected | Connecting, Connecting | Connected, Connected
  | Disconnecting, Disconnecting | Error, Error => true
  | _, _ => false
  end.

Definition INVALID_SOCKET : Z := -1.

Module Sys.

(** A callback into application code; [conn] is the connection object
    passed to it, if the callback type takes one. *)
Inductive Callback : Type :=
| onConnected (conn : option Z)
| onDisconnected (conn : option Z)
| onError (conn : option Z) (error : ErrorCode).

Record World : Type := mkWorld {
  open_ : list Z;          (* descriptors the process holds open *)
  fired_ : list Callback   (* callbacks invoked so far, oldest first *)
}.

(** How a call ends: it returns; or the calling thread locks a
    [std::mutex] it already holds; or [std::terminate] is called. *)
Inductive outcome (A : Type) : Type :=
| Returns (a : A) (w : World)
| SelfDeadlock
| Terminate.
Arguments Returns {A} a w.
Arguments SelfDeadlock {A}.
Arguments Terminate {A}.

Definition M (A : Type) : Type := World -> outcome A.

Definition ret {A : Type} (a : A) : M A := fun w => Returns a w.

Definition bind {A B : Type} (m : M A) (k : A -> M B) : M B :=
  fun w =>
    match m w with
    | Returns a w' => k a w'
    | SelfDeadlock => SelfDeadlock
    | Terminate => Terminate
    end.

Definition deadlock {A : Type} : M A := fun _ => SelfDeadlock.
Definition terminate {A : Type} : M A := fun _ => Terminate.

(** [::socket(...)], the kernel answering [answer]. *)
Definition sys_socket (answer : Z) : M Z :=
  fun w =>
    if answer =? INVALID_SOCKET then Returns answer w
    else Returns answer (mkWorld (answer :: open_ w) (fired_ w)).

(** [::close(fd)]. *)
Definition sys_close (fd : Z) : M unit :=
  fun w => Returns tt (mkWorld (remove Z.eq_dec fd (open_ w)) (fired_ w)).

Definition fire (c : Callback) : M unit :=
  fun w => Returns tt (mkWorld (open_ w) (fired_ w ++ [c])).

Definition is_open (fd : Z) (w : World) : bool :=
  existsb (Z.eqb fd) (open_ w).

(** How many times the disconnected callback has fired. *)
Definition disconnected_count (w : World) : nat :=
  List.length
    (filter (fun c => match c with onDisconnected _ => true | _ => false end)
            (fired_ w)).

End Sys.

Notation "x <- m ;; k" := (Sys.bind m (fun x => k))
  (at level 61, m at next level, right associativity).
Notation "' p <- m ;; k" := (Sys.bind m (fun x => let p := x in k))
  (at level 61, p pattern, m at next level, right associativity).

Module TcpSocket.

(** [mutex_] records whether the calling thread holds the lock. *)
Record t : Type := mk {
  socket_ : Z;
  nonBlocking_ : bool;
  mutex_ : bool
}.

Definition make : t := mk INVALID_SOCKET false false.

Definition isValid (s : t) : bool := negb (socket_ s =? INVALID_SOCKET).

(** [std::lock_guard<std::mutex> lock(mutex_)] and its release at the end
    of the scope. *)
Definition lock (s : t) : Sys.M t :=
  if mutex_ s then Sys.deadlock
  else Sys.ret (mk (socket_ s) (nonBlocking_ s) true).

Definition unlock (s : t) : t := mk (socket_ s) (nonBlocking_ s) false.

Definition close (s : t) : Sys.M t :=
  s <- lock s ;;
  s <- (if isValid s then
          _ <- Sys.sys_close (socket_ s) ;;
          Sys.ret (mk INVALID_SOCKET (nonBlocking_ s) (mutex_ s))
        else Sys.ret s) ;;
  Sys.ret (unlock s).

(** [create()], with the kernel's answer to [::socket]. *)
Definition create (answer : Z) (s : t) : Sys.M (bool * t) :=
  s <- lock s ;;
  s <- (if isValid s then close s else Sys.ret s) ;;
  fd <- Sys.sys_socket answer ;;
  let s := mk fd (nonBlocking_ s) (mutex_ s) in
  if socket_ s =? INVALID_SOCKET then Sys.ret (false, unlock s)
  else Sys.ret (true, unlock s).

(** [setNonBlocking(nonBlocking)]; [fcntl_ok] tells whether the [fcntl]
    calls succeed. *)
Definition setNonBlocking (fcntl_ok : bool) (nonBlocking : bool) (s : t)
  : Sys.M (bool * t) :=
  s <- lock s ;;
  if negb (isValid s) then Sys.ret (false, unlock s)
  else if negb fcntl_ok then Sys.ret (false, unlock s)
  else Sys.ret (true, unlock (mk (socket_ s) nonBlocking (mutex_ s))).

End TcpSocket.

Module TcpConnection.

(** Who is registered as [onDisconnected_]: nobody, application code, or
    the lambda [TcpServer::setupConnectionCallbacks] installs. *)
Inductive Handler : Type := NoHandler | UserHandler | ServerHandler.

Record t : Type := mk {
  id_ : Z;                       (* the object's identity *)
  socket_ : Z;
  state_ : ConnectionState;
  shouldStop_ : bool;
  receiveThread_ : bool;         (* joinable() *)
  onDisconnected_ : Handler
}.

(** The constructor: the connection starts [Connected] with its receive
    thread running. *)
Definition make (id socket : Z) : t :=
  mk id socket Connected false true NoHandler.

Definition setOnDisconnected (h : Handler) (c : t) : t :=
  mk (id_ c) (socket_ c) (state_ c) (shouldStop_ c) (receiveThread_ c) h.

Definition isConnected (c : t) : bool := ConnectionState_eqb (state_ c) Connected.

(** [close()] up to the invocation of the callback.  [shared] tells
    whether [shared_from_this()] succeeds, that is whether a
    [shared_ptr] still owns the object.  The boolean returned is
    [callDisconnectedCallback && self].  The connection's own [mutex_] is
    taken and released twice and never nested, so it is left out; the
    caller is not the receive thread. *)
Definition close_core (shared : bool) (c : t) : Sys.M (bool * t) :=
  c <- (if negb (ConnectionState_eqb (state_ c) Disconnected) then
          let c := mk (id_ c) (socket_ c) Disconnecting true
                      (receiveThread_ c) (onDisconnected_ c) in
          if negb (socket_ c =? INVALID_SOCKET) then
            _ <- Sys.sys_close (socket_ c) ;;
            Sys.ret (mk (id_ c) INVALID_SOCKET (state_ c) (shouldStop_ c)
                        (receiveThread_ c) (onDisconnected_ c))
          else Sys.ret c
        else Sys.ret c) ;;
  (* if (receiveThread_.joinable()) receiveThread_.join(); *)
  let c := mk (id_ c) (socket_ c) (state_ c) (shouldStop_ c) false (onDisconnected_ c) in
  if negb (ConnectionState_eqb (state_ c) Disconnected) then
    let c' := mk (id_ c) (socket_ c) Disconnected (shouldStop_ c)
                 (receiveThread_ c) (onDisconnected_ c) in
    match onDisconnected_ c with
    | NoHandler => Sys.ret (false, c')
    | _ => Sys.ret (shared, c')
    end
  else Sys.ret (false, c).

(** [close()] on a connection whose callback, if any, is application
    code. *)
Definition close (shared : bool) (c : t) : Sys.M t :=
  ' (call, c) <- close_core shared c ;;
  if call then
    _ <- Sys.fire (Sys.onDisconnected (Some (id_ c))) ;;
    Sys.ret c
  else Sys.ret c.

(** Successive [close()] calls on one connection. *)
Fixpoint closes (shareds : list bool) (c : t) : Sys.M t :=
  match shareds with
  | [] => Sys.ret c
  | shared :: rest =>
      c <- close shared c ;;
      closes rest c
  end.

End TcpConnection.

(** ** The data path of TcpConnection (tcp_socket.cpp, lines 425-587) *)

Module TcpConnectionIO.

(** The connection with the members that [send], [receiveRaw] and
    [receiveLoop] use besides those of [TcpConnection.t].  As in
    [TcpConnection.close_core] the connection's own [mutex_] is left out:
    [send] and [receiveRaw] take it on entry and release it on return. *)
Record t : Type := mk {
  conn : TcpConnection.t;
  bytesSent_ : Z;
  bytesReceived_ : Z;
  onError_ : bool;               (* a callback is set *)
  onDataReceived_ : bool
}.

Definition make (id socket : Z) : t :=
  mk (TcpConnection.make id socket) 0 0 false false.

Definition setState (st : ConnectionState) (c : t) : t :=
  mk (TcpConnection.mk (TcpConnection.id_ (conn c)) (TcpConnection.socket_ (conn c)) st
                       (TcpConnection.shouldStop_ (conn c))
                       (TcpConnection.receiveThread_ (conn c))
                       (TcpConnection.onDisconnected_ (conn c)))
     (bytesSent_ c) (bytesReceived_ c) (onError_ c) (onDataReceived_ c).

Definition isConnected (c : t) : bool := TcpConnection.isConnected (conn c).

(** How a member function ends: it returns a value, or
    [shared_from_this()] throws [std::bad_weak_ptr] out of it. *)
Inductive ending (A : Type) : Type :=
| Value (a : A)
| BadWeakPtr.
Arguments Value {A} a.
Arguments BadWeakPtr {A}.

(** [handleError(error, message)].  [shared] tells whether a
    [shared_ptr] owns the object. *)
Definition handleError (shared : bool) (error : ErrorCode) (c : t)
  : Sys.M (ending unit * t) :=
  let c := setState Error c in
  if onError_ c then
    if shared then
      _ <- Sys.fire (Sys.onError (Some (TcpConnection.id_ (conn c))) error) ;;
      Sys.ret (Value tt, c)
    else Sys.ret (BadWeakPtr, c)
  else Sys.ret (Value tt, c).

Definition SOCKET_ERROR : Z := -1.

(** [errno] after a call that returned [SOCKET_ERROR]. *)
Inductive Errno : Type := EAGAIN | ECONNRESET | EOTHER.

(** The answer of one [::recv] or [::send]: the [int] returned, and
    [errno]. *)
Record IoAnswer : Type := mkIoAnswer {
  returned : Z;
  errno : Errno
}.

(** [receiveRaw(buffer, length)]. *)
Definition receiveRaw (shared : bool) (answer : IoAnswer) (c : t)
  : Sys.M (ending Z * t) :=
  if negb (isConnected c) || (TcpConnection.socket_ (conn c) =? INVALID_SOCKET)
  then Sys.ret (Value (-1), c)
  else
    let received := returned answer in
    if received =? SOCKET_ERROR then
      match errno answer with
      | EAGAIN => Sys.ret (Value 0, c)
      | ECONNRESET =>
          if TcpConnection.shouldStop_ (conn c) then Sys.ret (Value (-1), c)
          else
            ' (e, c) <- handleError shared ReceiveFailed c ;;
            match e with
            | Value _ => Sys.ret (Value (-1), c)
            | BadWeakPtr => Sys.ret (BadWeakPtr, c)
            end
      | EOTHER =>
          ' (e, c) <- handleError shared ReceiveFailed c ;;
          match e with
          | Value _ => Sys.ret (Value (-1), c)
          | BadWeakPtr => Sys.ret (BadWeakPtr, c)
          end
      end
    else if received =? 0 then
      (* Connection closed by peer *)
      Sys.ret (Value (-1), setState Disconnected c)
    else
      Sys.ret (Value received,
               mk (conn c) (bytesSent_ c) (wrap64 (bytesReceived_ c + received))
                  (onError_ c) (onDataReceived_ c)).

(** How [send] ends: it returns, or throws [std::bad_weak_ptr], or is
    still in its loop when the listed answers are used up. *)
Inductive SendEnding : Type :=
| SendReturns (ok : bool)
| SendThrows
| SendPending.

(** The [while] loop of [send]; [answers] lists what the successive
    [::send] calls answer. *)
Fixpoint send_loop (shared : bool) (answers : list IoAnswer) (length totalSent : Z)
                   (c : t) : Sys.M (SendEnding * t) :=
  if totalSent <? length then
    match answers with
    | [] => Sys.ret (SendPending, c)
    | answer :: later =>
        let sent := returned answer in
        if sent =? SOCKET_ERROR then
          match errno answer with
          | EAGAIN => send_loop shared later length totalSent c
          | _ =>
              ' (e, c) <- handleError shared SendFailed c ;;
              match e with
              | Value _ => Sys.ret (SendReturns false, c)
              | BadWeakPtr => Sys.ret (SendThrows, c)
              end
          end
        else
          send_loop shared later length (wrap64 (totalSent + sent))
            (mk (conn c) (wrap64 (bytesSent_ c + sent)) (bytesReceived_ c)
                (onError_ c) (onDataReceived_ c))
    end
  else Sys.ret (SendReturns true, c).

(** The bytes the kernel takes over the listed answers. *)
Definition accepted (answers : list IoAnswer) : Z :=
  fold_right
    (fun answer n => (if returned answer =? SOCKET_ERROR then 0 else returned answer) + n)
    0 answers.

(** [send(data, length)]. *)
Definition send (shared : bool) (answers : list IoAnswer) (length : Z) (c : t)
  : Sys.M (SendEnding * t) :=
  if negb (isConnected c) || (TcpConnection.socket_ (conn c) =? INVALID_SOCKET)
  then Sys.ret (SendReturns false, c)
  else send_loop shared answers length 0 c.

(** [receiveLoop()], the body of the receive thread; [answers] lists what
    the successive [::recv] calls answer, and the result gives the sizes of
    the payloads handed to [onDataReceived_], in order, and whether the
    loop was left ([false] when the answers are used up before).  The data
    callback is taken to return normally.  A [std::bad_weak_ptr] thrown
    inside the [try] block is caught there; one thrown by [handleError]
    leaves the thread function. *)
Fixpoint receiveLoop (shared : bool) (answers : list IoAnswer) (delivered : list Z)
                     (c : t) : Sys.M (bool * list Z * t) :=
  if negb (TcpConnection.shouldStop_ (conn c)) && isConnected c then
    match answers with
    | [] => Sys.ret (false, delivered, c)
    | answer :: later =>
        ' (e, c) <- receiveRaw shared answer c ;;
        match e with
        | BadWeakPtr => Sys.terminate
        | Value received =>
            if 0 <? received then
              if onDataReceived_ c then
                if shared then receiveLoop shared later (delivered ++ [received]) c
                else Sys.ret (true, delivered, c)
              else receiveLoop shared later delivered c
            else if received =? -1 then Sys.ret (true, delivered, c)
            else receiveLoop shared later delivered c
        end
    end
  else Sys.ret (true, delivered, c).

End TcpConnectionIO.

(** ** TcpClient (tcp_client.h, tcp_client.cpp) *)

Module TcpClient.

Record t : Type := mk {
  base : TcpSocket.t;            (* the TcpSocket base class *)
  remoteAddress_ : string;
  remotePort_ : Z;
  state_ : ConnectionState;
  sslEnabled_ : bool;
  sslContext_ : bool;            (* non-null *)
  sslHandle_ : bool;             (* non-null *)
  receiveThread_ : bool;         (* joinable() *)
  reconnectThread_ : bool;
  heartbeatThread_ : bool;
  shouldStop_ : bool;
  onConnected_ : bool;           (* a callback is set *)
  onDisconnected_ : bool;
  onError_ : bool;
  autoReconnect_ : bool;
  heartbeatEnabled_ : bool;
  totalConnections : Z;
  reconnections : Z
}.

(** The constructor. *)
Definition make : t :=
  mk TcpSocket.make EmptyString 0 Disconnected false false false
     false false false false false false false false false 0 0.

Definition set_base (b : TcpSocket.t) (c : t) : t :=
  mk b (remoteAddress_ c) (remotePort_ c) (state_ c) (sslEnabled_ c) (sslContext_ c)
     (sslHandle_ c) (receiveThread_ c) (reconnectThread_ c) (heartbeatThread_ c)
     (shouldStop_ c) (onConnected_ c) (onDisconnected_ c) (onError_ c)
     (autoReconnect_ c) (heartbeatEnabled_ c) (totalConnections c) (reconnections c).

Definition setState (st : ConnectionState) (c : t) : t :=
  mk (base c) (remoteAddress_ c) (remotePort_ c) st (sslEnabled_ c) (sslContext_ c)
     (sslHandle_ c) (receiveThread_ c) (reconnectThread_ c) (heartbeatThread_ c)
     (shouldStop_ c) (onConnected_ c) (onDisconnected_ c) (onError_ c)
     (autoReconnect_ c) (heartbeatEnabled_ c) (totalConnections c) (reconnections c).

Definition setOnDisconnected (set : bool) (c : t) : t :=
  mk (base c) (remoteAddress_ c) (remotePort_ c) (state_ c) (sslEnabled_ c) (sslContext_ c)
     (sslHandle_ c) (receiveThread_ c) (reconnectThread_ c) (heartbeatThread_ c)
     (shouldStop_ c) (onConnected_ c) set (onError_ c)
     (autoReconnect_ c) (heartbeatEnabled_ c) (totalConnections c) (reconnections c).

Definition isConnected (c : t) : bool := ConnectionState_eqb (state_ c) Connected.
Definition isValid (c : t) : bool := TcpSocket.isValid (base c).

(** The inherited [close()]. *)
Definition close (c : t) : Sys.M t :=
  b <- TcpSocket.close (base c) ;;
  Sys.ret (set_base b c).

Definition handleError (error : ErrorCode) (c : t) : Sys.M t :=
  let c := setState Error c in
  if onError_ c then
    _ <- Sys.fire (Sys.onError None error) ;;
    Sys.ret c
  else Sys.ret c.

(** [disconnect()].  The threads joined are at their waiting points and
    leave on seeing [shouldStop_]. *)
Definition disconnect (c : t) : Sys.M t :=
  let c := setState Disconnecting c in
  (* shouldStop_ = true; autoReconnect_ = false; heartbeatEnabled_ = false;
     then the three joins and cleanupSsl() *)
  let c := mk (base c) (remoteAddress_ c) (remotePort_ c) (state_ c) (sslEnabled_ c)
              (sslContext_ c) false false false false
              true (onConnected_ c) (onDisconnected_ c) (onError_ c)
              false false (totalConnections c) (reconnections c) in
  c <- close c ;;
  let c := setState Disconnected c in
  if onDisconnected_ c then
    _ <- Sys.fire (Sys.onDisconnected None) ;;
    Sys.ret c
  else Sys.ret c.

(** What the operating system answers during one [connectInternal]. *)
Inductive SelectAnswer : Type :=
| SelectTimeout                   (* select returns 0 *)
| SelectError                     (* SOCKET_ERROR, or the socket is in errorSet *)
| SelectWritable (so_error_ok : bool). (* getsockopt succeeds and SO_ERROR is 0 *)

Inductive ConnectAnswer : Type :=
| ConnectDone                     (* ::connect returns 0 *)
| ConnectRefused                  (* SOCKET_ERROR, errno is not EINPROGRESS *)
| ConnectInProgress (sel : SelectAnswer).

Record ConnectSys : Type := mkConnectSys {
  socket_answer : Z;
  resolved : option string;       (* resolveAddress *)
  inet_pton_ok : bool;
  fcntl_ok : bool;
  connect_answer : ConnectAnswer
}.

(** The tail of [connectInternal], once the connection is established. *)
Definition connected_tail (sys : ConnectSys) (resolvedAddress : string) (port : Z) (c : t)
  : Sys.M (bool * t) :=
  ' (_, b) <- TcpSocket.setNonBlocking (fcntl_ok sys) false (base c) ;;
  let c := set_base b c in
  let c := mk (base c) resolvedAddress port (state_ c) (sslEnabled_ c) (sslContext_ c)
              (sslHandle_ c) (receiveThread_ c) (reconnectThread_ c) (heartbeatThread_ c)
              (shouldStop_ c) (onConnected_ c) (onDisconnected_ c) (onError_ c)
              (autoReconnect_ c) (heartbeatEnabled_ c) (totalConnections c)
              (reconnections c) in
  (* sslEnabled_ && !setupSsl() *)
  if sslEnabled_ c && negb (sslContext_ c) then
    c <- handleError SslError c ;;
    Sys.ret (false, setState Error c)
  else
    let c := setState Connected c in
    (* updateStatistics(); startReceiveThread() *)
    if receiveThread_ c then Sys.terminate
    else
      let c := mk (base c) (remoteAddress_ c) (remotePort_ c) (state_ c) (sslEnabled_ c)
                  (sslContext_ c) (sslHandle_ c) true (reconnectThread_ c)
                  (heartbeatThread_ c) (shouldStop_ c) (onConnected_ c)
                  (onDisconnected_ c) (onError_ c) (autoReconnect_ c)
                  (heartbeatEnabled_ c) (wrap64 (totalConnections c + 1))
                  (reconnections c) in
      if onConnected_ c then
        _ <- Sys.fire (Sys.onConnected None) ;;
        Sys.ret (true, c)
      else Sys.ret (true, c).

Definition fail_with (error : ErrorCode) (c : t) : Sys.M (bool * t) :=
  c <- handleError error c ;;
  Sys.ret (false, setState Error c).

Definition connectInternal (sys : ConnectSys) (address : string) (port : Z) (c : t)
  : Sys.M (bool * t) :=
  c <- (if isConnected c then disconnect c else Sys.ret c) ;;
  let c := setState Connecting c in
  ' (created, b) <- TcpSocket.create (socket_answer sys) (base c) ;;
  let c := set_base b c in
  if negb created then Sys.ret (false, setState Error c)
  else
    let resolvedAddress :=
      match resolved sys with Some ip => ip | None => address end in
    if negb (inet_pton_ok sys) then fail_with InvalidAddress c
    else
      ' (_, b) <- TcpSocket.setNonBlocking (fcntl_ok sys) true (base c) ;;
      let c := set_base b c in
      match connect_answer sys with
      | ConnectDone => connected_tail sys resolvedAddress port c
      | ConnectRefused => fail_with ConnectionFailed c
      | ConnectInProgress SelectTimeout => fail_with Timeout c
      | ConnectInProgress SelectError => fail_with ConnectionFailed c
      | ConnectInProgress (SelectWritable false) => fail_with ConnectionFailed c
      | ConnectInProgress (SelectWritable true) =>
          connected_tail sys resolvedAddress port c
      end.

(** [connect(address, port)] and [connect(address, port, timeout)]. *)
Definition connect (sys : ConnectSys) (address : string) (port : Z) (c : t)
  : Sys.M (bool * t) :=
  connectInternal sys address port c.

Definition enableAutoReconnect (enable : bool) (c : t) : t :=
  mk (base c) (remoteAddress_ c) (remotePort_ c) (state_ c) (sslEnabled_ c) (sslContext_ c)
     (sslHandle_ c) (receiveThread_ c)
     (if enable && negb (reconnectThread_ c) then true else reconnectThread_ c)
     (heartbeatThread_ c) (shouldStop_ c) (onConnected_ c) (onDisconnected_ c)
     (onError_ c) enable (heartbeatEnabled_ c) (totalConnections c) (reconnections c).

(** *** The reconnect loop

    One pass through the body of [reconnectLoop], on the values the flags
    have while the loop holds [reconnectMutex_] ([autoReconnect_] is only
    written under that mutex). *)
Inductive LoopStep : Type :=
| LoopExit        (* the loop is left *)
| LoopBlocked     (* the thread stays in reconnectCondition_.wait *)
| LoopIdle        (* the wait is passed, the reconnect branch is not taken *)
| LoopAttempt.    (* the wait is passed: sleep, then connectInternal *)

(** The predicate handed to [reconnectCondition_.wait]. *)
Definition reconnect_wait_predicate (c : t) : bool :=
  negb (autoReconnect_ c) || shouldStop_ c.

Definition reconnectLoop_step (c : t) : LoopStep :=
  if shouldStop_ c then LoopExit
  else if negb (reconnect_wait_predicate c) then LoopBlocked
  else if shouldStop_ c then LoopExit
  else if autoReconnect_ c && negb (isConnected c) then LoopAttempt
  else LoopIdle.

(** *** The reconnect loop among the other threads

    The same loop as a transition system.  The loop thread moves from one
    control point to the next; the other threads call
    [enableAutoReconnect] (which writes [autoReconnect_] under
    [reconnectMutex_], hence only while the loop does not hold it),
    [disconnect] (which sets the atomic [shouldStop_] at any time and never
    clears it, and clears [autoReconnect_] under the mutex), and change
    the connection state at any time. *)
Inductive LoopPoint : Type :=
| AtWhile       (* while (!shouldStop_) *)
| AtLock        (* unique_lock lock(reconnectMutex_) *)
| AtWait        (* the wait evaluates its predicate, mutex held *)
| Waiting       (* blocked in the wait, mutex released *)
| AfterWait     (* if (shouldStop_) break;  mutex held *)
| AtBranch      (* if (autoReconnect_ && !isConnected()),  mutex held *)
| Attempting    (* sleep_for(reconnectInterval_); connectInternal(...) *)
| Exited.

Record LoopState : Type := mkLoopState {
  point : LoopPoint;
  l_autoReconnect : bool;
  l_shouldStop : bool;
  l_connected : bool
}.

Definition holds_reconnectMutex (p : LoopPoint) : bool :=
  match p with
  | AtWait | AfterWait | AtBranch => true
  | _ => false
  end.

Inductive loop_step : LoopState -> LoopState -> Prop :=
(* the loop thread *)
| step_while a s c :
    loop_step (mkLoopState AtWhile a s c)
              (mkLoopState (if s then Exited else AtLock) a s c)
| step_lock a s c :
    loop_step (mkLoopState AtLock a s c) (mkLoopState AtWait a s c)
| step_wait a s c :
    loop_step (mkLoopState AtWait a s c)
              (mkLoopState (if negb a || s then AfterWait else Waiting) a s c)
| step_wake a s c :
    loop_step (mkLoopState Waiting a s c) (mkLoopState AtWait a s c)
| step_after_wait a s c :
    loop_step (mkLoopState AfterWait a s c)
              (mkLoopState (if s then Exited else AtBranch) a s c)
| step_branch a s c :
    loop_step (mkLoopState AtBranch a s c)
              (mkLoopState (if a && negb c then Attempting else AtWhile) a s c)
| step_attempt a s c c' :
    loop_step (mkLoopState Attempting a s c) (mkLoopState AtWhile a s c')
(* the other threads *)
| step_enableAutoReconnect p a s c enable :
    holds_reconnectMutex p = false ->
    loop_step (mkLoopState p a s c) (mkLoopState p enable s c)
| step_stop p a s c :
    loop_step (mkLoopState p a s c) (mkLoopState p a true c)
| step_connection p a s c c' :
    loop_step (mkLoopState p a s c) (mkLoopState p a s c').

Inductive loop_reachable (init : LoopState) : LoopState -> Prop :=
| reach_init : loop_reachable init init
| reach_step s s' : loop_reachable init s -> loop_step s s' -> loop_reachable init s'.

(** What holds at every control point: past the wait with the mutex held,
    reconnection is disabled or the client is stopping; at the branch,
    reconnection is disabled; the attempt is not reached. *)
Definition loop_invariant (st : LoopState) : Prop :=
  match point st with
  | AfterWait => l_autoReconnect st = false \/ l_shouldStop st = true
  | AtBranch => l_autoReconnect st = false
  | Attempting => False
  | _ => True
  end.

(** *** The loops of the background threads

    The conditions of [while (!shouldStop_ && isConnected())] in
    [receiveLoop] and of [while (!shouldStop_)] in [heartbeatLoop]: whether
    the thread, once started, runs the body of its loop at all. *)
Definition receiveLoop_enters (c : t) : bool :=
  negb (shouldStop_ c) && isConnected c.

Definition heartbeatLoop_enters (c : t) : bool := negb (shouldStop_ c).

End TcpClient.

(** ** TcpServer (tcp_server.h, tcp_server.cpp) *)

Module TcpServer.

Record t : Type := mk {
  base : TcpSocket.t;            (* the TcpSocket base class *)
  localAddress_ : string;
  localPort_ : Z;
  running_ : bool;
  shouldStop_ : bool;
  connections_ : list (option TcpConnection.t);  (* shared_ptr, possibly null *)
  connectionsMutex_ : bool;      (* held by the calling thread *)
  onDisconnected_ : bool;        (* a callback is set *)
  acceptThread_ : bool;          (* joinable() *)
  cleanupThread_ : bool;
  onConnected_ : bool;           (* a callback is set *)
  totalConnections : Z           (* statistics_.totalConnections *)
}.

Definition make : t :=
  mk TcpSocket.make EmptyString 0 false false [] false false false false false 0.

Definition set_base (b : TcpSocket.t) (s : t) : t :=
  mk b (localAddress_ s) (localPort_ s) (running_ s) (shouldStop_ s) (connections_ s)
     (connectionsMutex_ s) (onDisconnected_ s) (acceptThread_ s) (cleanupThread_ s) (onConnected_ s)
     (totalConnections s).

Definition set_localAddress (a : string) (s : t) : t :=
  mk (base s) a (localPort_ s) (running_ s) (shouldStop_ s) (connections_ s)
     (connectionsMutex_ s) (onDisconnected_ s) (acceptThread_ s) (cleanupThread_ s) (onConnected_ s)
     (totalConnections s).

Definition set_localPort (p : Z) (s : t) : t :=
  mk (base s) (localAddress_ s) p (running_ s) (shouldStop_ s) (connections_ s)
     (connectionsMutex_ s) (onDisconnected_ s) (acceptThread_ s) (cleanupThread_ s) (onConnected_ s)
     (totalConnections s).

Definition set_connections (l : list (option TcpConnection.t)) (s : t) : t :=
  mk (base s) (localAddress_ s) (localPort_ s) (running_ s) (shouldStop_ s) l
     (connectionsMutex_ s) (onDisconnected_ s) (acceptThread_ s) (cleanupThread_ s) (onConnected_ s)
     (totalConnections s).

Definition set_connectionsMutex (held : bool) (s : t) : t :=
  mk (base s) (localAddress_ s) (localPort_ s) (running_ s) (shouldStop_ s)
     (connections_ s) held (onDisconnected_ s) (acceptThread_ s) (cleanupThread_ s) (onConnected_ s)
     (totalConnections s).

Definition isValid (s : t) : bool := TcpSocket.isValid (base s).

(** What the operating system answers during one [bind]. *)
Record BindSys : Type := mkBindSys {
  socket_answer : Z;
  inet_pton_ok : bool;
  bind_ok : bool
}.

Definition bind (sys : BindSys) (address : string) (port : Z) (s : t)
  : Sys.M (bool * t) :=
  if running_ s then Sys.ret (false, s)
  else
    ' (created, b) <- TcpSocket.create (socket_answer sys) (base s) ;;
    let s := set_base b s in
    if negb created then Sys.ret (false, s)
    else
      let addressed :=
        if String.eqb address EmptyString || String.eqb address "0.0.0.0"
        then Some (set_localAddress "0.0.0.0" s)
        else if negb (inet_pton_ok sys) then None
             else Some (set_localAddress address s) in
      match addressed with
      | None => Sys.ret (false, s)
      | Some s =>
          if negb (bind_ok sys) then Sys.ret (false, s)
          else Sys.ret (true, set_localPort port s)
      end.

(** [listen(backlog)]; [listen_ok] tells whether [::listen] succeeds. *)
Definition listen (listen_ok : bool) (s : t) : Sys.M (bool * t) :=
  if negb (isValid s) then Sys.ret (false, s)
  else if negb listen_ok then Sys.ret (false, s)
  else Sys.ret (true, s).

Definition start (sys : BindSys) (listen_ok : bool) (address : string) (port : Z) (s : t)
  : Sys.M (bool * t) :=
  ' (bound, s) <- bind sys address port s ;;
  if negb bound then Sys.ret (false, s)
  else
    ' (listening, s) <- listen listen_ok s ;;
    if negb listening then Sys.ret (false, s)
    else
      (* assigning to a joinable std::thread calls std::terminate *)
      if acceptThread_ s || cleanupThread_ s then Sys.terminate
      else
        Sys.ret (true, mk (base s) (localAddress_ s) (localPort_ s) true false
                          (connections_ s) (connectionsMutex_ s) (onDisconnected_ s)
                          true true (onConnected_ s) (totalConnections s)).

Definition same_connection (c : TcpConnection.t) (o : option TcpConnection.t) : bool :=
  match o with
  | Some c' => TcpConnection.id_ c' =? TcpConnection.id_ c
  | None => false
  end.

Definition removeConnection (c : TcpConnection.t) (s : t) : Sys.M t :=
  if connectionsMutex_ s then Sys.deadlock
  else
    Sys.ret (set_connections
               (filter (fun o => negb (same_connection c o)) (connections_ s)) s).

Definition handleDisconnection (c : TcpConnection.t) (s : t) : Sys.M t :=
  s <- removeConnection c s ;;
  if onDisconnected_ s then
    _ <- Sys.fire (Sys.onDisconnected (Some (TcpConnection.id_ c))) ;;
    Sys.ret s
  else Sys.ret s.

(** [connection->close()] for a connection held by the registry: the
    registry's [shared_ptr] makes [shared_from_this()] succeed, and the
    callback is run on the calling thread. *)
Definition close_registered (c : TcpConnection.t) (s : t)
  : Sys.M (TcpConnection.t * t) :=
  ' (call, c) <- TcpConnection.close_core true c ;;
  if call then
    match TcpConnection.onDisconnected_ c with
    | TcpConnection.ServerHandler =>
        s <- handleDisconnection c s ;;
        Sys.ret (c, s)
    | _ =>
        _ <- Sys.fire (Sys.onDisconnected (Some (TcpConnection.id_ c))) ;;
        Sys.ret (c, s)
    end
  else Sys.ret (c, s).

(** The [for] loop of [closeAllConnections] over the registry. *)
Fixpoint closeAll_loop (l : list (option TcpConnection.t)) (s : t) : Sys.M t :=
  match l with
  | [] => Sys.ret s
  | None :: rest => closeAll_loop rest s
  | Some c :: rest =>
      ' (_, s) <- close_registered c s ;;
      closeAll_loop rest s
  end.

Definition closeAllConnections (s : t) : Sys.M t :=
  if connectionsMutex_ s then Sys.deadlock
  else
    s <- closeAll_loop (connections_ s) (set_connectionsMutex true s) ;;
    Sys.ret (set_connectionsMutex false (set_connections [] s)).

Definition stop (s : t) : Sys.M t :=
  if negb (running_ s) then Sys.ret s
  else
    (* running_ = false; shouldStop_ = true; *)
    let s := mk (base s) (localAddress_ s) (localPort_ s) false true (connections_ s)
                (connectionsMutex_ s) (onDisconnected_ s) (acceptThread_ s)
                (cleanupThread_ s) (onConnected_ s) (totalConnections s) in
    b <- TcpSocket.close (base s) ;;
    let s := set_base b s in
    (* the two joins *)
    let s := mk (base s) (localAddress_ s) (localPort_ s) (running_ s) (shouldStop_ s)
                (connections_ s) (connectionsMutex_ s) (onDisconnected_ s) false false
                (onConnected_ s) (totalConnections s) in
    closeAllConnections s.

(** The connection [acceptConnection()] returns for an accepted socket:
    [setupConnectionCallbacks] has installed the server's lambdas. *)
Definition accepted (id socket : Z) : TcpConnection.t :=
  TcpConnection.setOnDisconnected TcpConnection.ServerHandler
    (TcpConnection.make id socket).

(** [handleNewConnection(connection)]; the optional [enableSsl] on the
    connection is left out. *)
Definition handleNewConnection (c : TcpConnection.t) (s : t) : Sys.M t :=
  if connectionsMutex_ s then Sys.deadlock
  else
    let s := set_connections (connections_ s ++ [Some c]) s in
    let s := mk (base s) (localAddress_ s) (localPort_ s) (running_ s) (shouldStop_ s)
                (connections_ s) (connectionsMutex_ s) (onDisconnected_ s)
                (acceptThread_ s) (cleanupThread_ s) (onConnected_ s)
                (wrap64 (totalConnections s + 1)) in
    if onConnected_ s then
      _ <- Sys.fire (Sys.onConnected (Some (TcpConnection.id_ c))) ;;
      Sys.ret s
    else Sys.ret s.


(** What [cleanupLoop] keeps in the registry. *)
Definition keeps (o : option TcpConnection.t) : bool :=
  match o with
  | Some c => TcpConnection.isConnected c
  | None => false
  end.

(** The destructors of the connections [cleanupLoop] erases, run while
    [connectionsMutex_] is held.  [last_owner id] tells whether the
    registry held the last [shared_ptr] to the object; the destructor then
    calls [close()], in which [shared_from_this()] fails. *)
Fixpoint destroy_erased (last_owner : Z -> bool) (l : list (option TcpConnection.t))
  : Sys.M unit :=
  match l with
  | [] => Sys.ret tt
  | o :: rest =>
      _ <- (match o with
            | Some c =>
                if negb (keeps o) && last_owner (TcpConnection.id_ c) then
                  _ <- TcpConnection.close false c ;;
                  Sys.ret tt
                else Sys.ret tt
            | None => Sys.ret tt
            end) ;;
      destroy_erased last_owner rest
  end.

(** One pass of [cleanupLoop] over the registry. *)
Definition cleanup_pass (last_owner : Z -> bool) (s : t) : Sys.M t :=
  if connectionsMutex_ s then Sys.deadlock
  else
    _ <- destroy_erased last_owner (connections_ s) ;;
    Sys.ret (set_connections (filter keeps (connections_ s)) s).

(** A registered connection whose [close()] runs the server's
    [handleDisconnection]: it is not [Disconnected] and carries the lambda
    of [setupConnectionCallbacks]. *)
Definition notifies_server (o : option TcpConnection.t) : bool :=
  match o with
  | Some c =>
      negb (ConnectionState_eqb (TcpConnection.state_ c) Disconnected)
      && match TcpConnection.onDisconnected_ c with
         | TcpConnection.ServerHandler => true
         | _ => false
         end
  | None => false
  end.

End TcpServer.

Module LPF := LengthPrefixedFramer.
Module DF := DelimiterFramer.
Module RL := RateLimiter.
Module CB := CircularBuffer.
Module CP := ConnectionPool.
Module IO := TcpConnectionIO.

(** * Properties *)

(** ** Length-prefixed framing *)

Lemma byte_of_bits len i :
  0 <= i -> LPF.byte_of len i = Z.land (Z.shiftr len (i * 8)) (Z.ones 8).
Proof.
  intros Hi. unfold LPF.byte_of, wrap8.
  change 255 with (Z.ones 8). rewrite Z.land_ones by lia.
  rewrite Z.mod_mod; [reflexivity | lia].
Qed.

(** The bytes of a length [n], put together one at a time. *)
Section LengthField.

Variable n : Z.

(** Adding the byte at bit [k] to the low [k] bits gives the low [k + 8]
    bits. *)
Lemma le_step k k' :
  0 <= k -> k' = k + 8 ->
  Z.lor (n mod 2 ^ k) (Z.shiftl (Z.land (Z.shiftr n k) (Z.ones 8)) k) = n mod 2 ^ k'.
Proof. intros Hk ->. Z.bitblast. Qed.

(** Adding the byte at bit [k] to the bits from [k + 8] up gives the bits
    from [k] up. *)
Lemma be_step k k' :
  0 <= k -> k' = k + 8 ->
  Z.lor (Z.shiftl (Z.shiftr n k') k') (Z.shiftl (Z.land (Z.shiftr n k) (Z.ones 8)) k)
  = Z.shiftl (Z.shiftr n k) k.
Proof. intros Hk ->. Z.bitblast. Qed.

Lemma be_start k k' :
  0 <= k -> k' = k + 8 -> 0 <= n < 2 ^ k' ->
  Z.shiftl (Z.land (Z.shiftr n k) (Z.ones 8)) k = Z.shiftl (Z.shiftr n k) k.
Proof.
  intros Hk -> Hn.
  assert (Hhigh : forall j, k + 8 <= j -> Z.testbit n j = false).
  { intros j Hj. rewrite <- (Z.mod_small n (2 ^ (k + 8))) by lia.
    apply Z.mod_pow2_bits_high. lia. }
  Z.bitblast. rewrite Hhigh by lia. reflexivity.
Qed.

End LengthField.

Lemma shiftl_byte_small x k :
  0 <= k <= 56 ->
  wrap64 (Z.shiftl (Z.land x (Z.ones 8)) k) = Z.shiftl (Z.land x (Z.ones 8)) k.
Proof. intros Hk. unfold wrap64. Z.bitblast. Qed.

Lemma shiftl_byte_small32 x k :
  0 <= k <= 24 ->
  wrap32 (Z.shiftl (Z.land x (Z.ones 8)) k) = Z.shiftl (Z.land x (Z.ones 8)) k.
Proof. intros Hk. unfold wrap32. Z.bitblast. Qed.

(** Reading a vector at a literal index. *)
Ltac norm_index :=
  unfold at_;
  repeat match goal with
         | |- context [Z.to_nat ?k] =>
             let x := eval vm_compute in (Z.to_nat k) in
             change (Z.to_nat k) with x
         end;
  cbn [nth app].

(** [readLength] recovers what [writeLength] wrote, for every field width
    and byte order, when the length fits the field. *)
Lemma readLength_writeLength f n tl :
  0 <= n < 2 ^ (8 * LPF.getLengthSize f) ->
  LPF.readLength f (LPF.writeLength f [] n ++ tl) 0 = n.
Proof.
  destruct f as [lt be buf el lr].
  unfold LPF.readLength, LPF.writeLength, LPF.getLengthSize;
    cbn [LPF.lengthType_ LPF.bigEndian_].
  destruct lt, be; intros Hn;
    cbn -[Z.shiftl Z.shiftr Z.lor Z.land Z.pow Z.modulo wrap64 wrap32 wrap16 wrap8
          LPF.byte_of at_] in *;
    norm_index; rewrite ?byte_of_bits by lia;
    rewrite ?shiftl_byte_small, ?shiftl_byte_small32 by lia;
    unfold wrap8, wrap16, wrap32 in *; rewrite ?(Z.mod_small n) by (unfold wrap64; lia);
    cbn [Z.mul Z.sub Z.add Pos.mul Pos.add Z.pos_sub Z.opp Pos.pred_double
         Z.succ_double Z.pred_double Z.double] in *.
  all: unfold wrap64 in *; rewrite ?(Z.mod_small n) by lia; rewrite ?Z.lor_0_l.
  all: try reflexivity.
  all: rewrite ?Z.shiftl_0_r.
  (* big-endian: fold from the most significant byte down *)
  1, 3, 5:
    rewrite <- (Z.shiftl_0_r (Z.land (Z.shiftr n 0) (Z.ones 8)));
    match goal with
    | |- context [Z.shiftl (Z.land (Z.shiftr ?m ?k) (Z.ones 8)) ?k] =>
        rewrite (be_start m k (k + 8)) by (cbn; lia)
    end;
    repeat match goal with
      | |- context [Z.lor (Z.shiftl (Z.shiftr ?m ?k') ?k')
                          (Z.shiftl (Z.land (Z.shiftr ?m ?k) (Z.ones 8)) ?k)] =>
          rewrite (be_step m k k') by lia
      end;
    rewrite Z.shiftl_0_r, Z.shiftr_0_r; reflexivity.
  (* little-endian: fold from the least significant byte up *)
  all: rewrite Z.shiftr_0_r, Z.land_ones by lia;
    repeat match goal with
      | |- context [Z.lor (?m mod 2 ^ ?k)
                          (Z.shiftl (Z.land (Z.shiftr ?m ?k) (Z.ones 8)) ?k)] =>
          let k' := eval cbv in (k + 8) in
          rewrite (le_step m k k') by lia
      end;
    apply Z.mod_small; lia.
Qed.

Lemma getLengthSize_pos f : 1 <= LPF.getLengthSize f <= 8.
Proof. unfold LPF.getLengthSize. destruct (LPF.lengthType_ f); lia. Qed.

Lemma length_writeLength f n :
  length (LPF.writeLength f [] n) = Z.to_nat (LPF.getLengthSize f).
Proof.
  unfold LPF.writeLength, LPF.getLengthSize.
  destruct (LPF.lengthType_ f), (LPF.bigEndian_ f); reflexivity.
Qed.

Lemma size_app {A : Type} (u v : list A) : size (u ++ v) = size u + size v.
Proof. unfold size. rewrite length_app. lia. Qed.

Lemma size_nonneg {A : Type} (v : list A) : 0 <= size v.
Proof. unfold size. lia. Qed.

(** *** The loop of [unframe] terminates *)

Lemma lpf_unframe_loop_fuel fuel :
  forall f messages,
    (LPF.measure f < fuel)%nat ->
    exists r, LPF.unframe_loop fuel f messages = Some r.
Proof.
  induction fuel as [|fuel IH]; intros f messages Hm; [lia|].
  cbn [LPF.unframe_loop].
  destruct (size (LPF.buffer_ f) <? LPF.getLengthSize f) eqn:Hsz; [eauto|].
  apply Z.ltb_ge in Hsz. pose proof (getLengthSize_pos f) as HL.
  destruct (LPF.lengthReceived_ f) eqn:Hlr; cbn [negb].
  - (* the header was read by an earlier call *)
    rewrite Hlr. cbn [andb].
    destruct (LPF.expectedLength_ f <=? size (LPF.buffer_ f)); [|eauto].
    apply IH. unfold LPF.measure in *. cbn. rewrite Hlr in Hm.
    rewrite length_skipn. lia.
  - destruct (LPF.getLengthSize f <=? size (LPF.buffer_ f)) eqn:Hge; [|eauto].
    cbn [LPF.lengthReceived_ LPF.expectedLength_ LPF.buffer_ LPF.lengthType_
         LPF.bigEndian_ andb].
    match goal with |- context [if ?c then _ else _] => destruct c end; [|eauto].
    apply IH. unfold LPF.measure in *. cbn. rewrite Hlr in Hm.
    rewrite !length_skipn. unfold size in Hsz. lia.
Qed.

(** [unframe] returns on every framer state and every input. *)
Lemma lpf_unframe_total f data : exists r, LPF.unframe f data = Some r.
Proof.
  unfold LPF.unframe. apply lpf_unframe_loop_fuel.
  unfold LPF.measure, LPF.unframe_fuel. cbn.
  destruct (LPF.lengthReceived_ f); lia.
Qed.

(** *** One complete frame at the head of the buffer is emitted *)

Lemma lpf_loop_emit fuel lt be e hdr body rest messages :
  length hdr = Z.to_nat (LPF.getLengthSize (LPF.make lt be)) ->
  LPF.readLength (LPF.make lt be) (hdr ++ body ++ rest) 0 = size body ->
  LPF.unframe_loop (S fuel) (LPF.mk lt be (hdr ++ body ++ rest) e false) messages
  = LPF.unframe_loop fuel (LPF.mk lt be rest 0 false) (messages ++ [body]).
Proof.
  intros Hh Hr.
  pose proof (getLengthSize_pos (LPF.make lt be)) as HL.
  assert (HLeq : forall b x r, LPF.getLengthSize (LPF.mk lt be b x r)
                               = LPF.getLengthSize (LPF.make lt be)) by reflexivity.
  assert (HReq : forall b x r d, LPF.readLength (LPF.mk lt be b x r) d 0
                                 = LPF.readLength (LPF.make lt be) d 0) by reflexivity.
  cbn [LPF.unframe_loop LPF.buffer_ LPF.lengthReceived_ negb LPF.lengthType_ LPF.bigEndian_].
  rewrite !HLeq, HReq, Hr.
  set (L := LPF.getLengthSize (LPF.make lt be)) in *.
  assert (Hsz : size (hdr ++ body ++ rest) = L + size body + size rest).
  { rewrite !size_app. unfold size at 1. rewrite Hh. lia. }
  pose proof (size_nonneg body). pose proof (size_nonneg rest).
  replace (size (hdr ++ body ++ rest) <? L) with false by (symmetry; apply Z.ltb_ge; lia).
  replace (L <=? size (hdr ++ body ++ rest)) with true by (symmetry; apply Z.leb_le; lia).
  cbn [LPF.buffer_ LPF.lengthReceived_ LPF.expectedLength_ LPF.lengthType_ LPF.bigEndian_ andb].
  assert (Hskip : skipn (Z.to_nat L) (hdr ++ body ++ rest) = body ++ rest).
  { rewrite <- Hh. rewrite skipn_app, skipn_all, Nat.sub_diag. reflexivity. }
  rewrite Hskip.
  replace (size body <=? size (body ++ rest)) with true
    by (symmetry; apply Z.leb_le; rewrite size_app; lia).
  unfold size at 1 2. rewrite !Nat2Z.id.
  rewrite firstn_app, firstn_all, Nat.sub_diag, app_nil_r.
  rewrite skipn_app, skipn_all, Nat.sub_diag. reflexivity.
Qed.

(** The length-prefixed half of the round trip. *)
Lemma lpf_unframe_frame lt be M :
  size M < 2 ^ (8 * LPF.getLengthSize (LPF.make lt be)) ->
  LPF.unframe (LPF.make lt be) (LPF.frame (LPF.make lt be) M)
  = Some ([M], LPF.make lt be).
Proof.
  intros HM. unfold LPF.unframe, LPF.frame, LPF.unframe_fuel.
  set (hdr := LPF.writeLength (LPF.make lt be) [] (size M)).
  cbn [LPF.buffer_ LPF.make LPF.lengthType_ LPF.bigEndian_ LPF.expectedLength_
       LPF.lengthReceived_ app].
  replace (2 * length (hdr ++ M) + 3)%nat with (S (S (2 * length (hdr ++ M) + 1))) by lia.
  replace (hdr ++ M) with (hdr ++ M ++ []) at 2 by (rewrite app_nil_r; reflexivity).
  rewrite lpf_loop_emit.
  - cbn [LPF.unframe_loop LPF.buffer_].
    pose proof (getLengthSize_pos (LPF.mk lt be [] 0 false)).
    replace (size [] <? _) with true by (symmetry; apply Z.ltb_lt; cbn; lia).
    reflexivity.
  - apply length_writeLength.
  - rewrite app_nil_r. apply readLength_writeLength.
    split; [apply size_nonneg | exact HM].
Qed.

(** *** More fuel does not change the result *)

Lemma lpf_unframe_loop_mono fuel :
  forall fuel' f acc r,
    LPF.unframe_loop fuel f acc = Some r ->
    (fuel <= fuel')%nat ->
    LPF.unframe_loop fuel' f acc = Some r.
Proof.
  induction fuel as [|fuel IH]; intros fuel' f acc r H Hle; [discriminate|].
  destruct fuel' as [|fuel']; [lia|].
  cbn [LPF.unframe_loop] in *.
  destruct (size (LPF.buffer_ f) <? LPF.getLengthSize f); [exact H|].
  match type of H with
  | match ?h with _ => _ end = _ => destruct h as [f1|]; [|exact H]
  end.
  destruct (LPF.lengthReceived_ f1 && (LPF.expectedLength_ f1 <=? size (LPF.buffer_ f1)));
    [|exact H].
  apply IH; [exact H | lia].
Qed.

Lemma lpf_unframe_loop_deterministic fuel fuel' f acc r r' :
  LPF.unframe_loop fuel f acc = Some r ->
  LPF.unframe_loop fuel' f acc = Some r' ->
  r = r'.
Proof.
  intros H H'.
  apply (lpf_unframe_loop_mono _ (Nat.max fuel fuel')) in H; [|lia].
  apply (lpf_unframe_loop_mono _ (Nat.max fuel fuel')) in H'; [|lia].
  congruence.
Qed.

(** The loop only appends to the messages it starts with. *)
Lemma lpf_unframe_loop_acc fuel :
  forall f acc,
    LPF.unframe_loop fuel f acc
    = option_map (fun r => (acc ++ fst r, snd r)) (LPF.unframe_loop fuel f []).
Proof.
  induction fuel as [|fuel IH]; intros f acc; [reflexivity|].
  cbn [LPF.unframe_loop].
  destruct (size (LPF.buffer_ f) <? LPF.getLengthSize f);
    [cbn; rewrite app_nil_r; reflexivity|].
  match goal with
  | |- match ?h with _ => _ end = _ => destruct h as [f1|];
        [|cbn; rewrite app_nil_r; reflexivity]
  end.
  destruct (LPF.lengthReceived_ f1 && (LPF.expectedLength_ f1 <=? size (LPF.buffer_ f1)));
    [|cbn; rewrite app_nil_r; reflexivity].
  match goal with
  | |- LPF.unframe_loop fuel ?g (acc ++ ?m) = _ =>
      rewrite (IH g (acc ++ m)), (IH g ([] ++ m));
      destruct (LPF.unframe_loop fuel g []) as [[ms g']|]; cbn;
      [rewrite <- app_assoc; reflexivity | reflexivity]
  end.
Qed.

(** X2.  Several frames in one call: [unframe] on the concatenation of
    the frames of any number of messages returns all the messages, in
    order, and leaves the framer empty, for every width and byte order of
    the length field (each message fitting the field). *)
Lemma lpf_unframe_frames lt be Ms :
  Forall (fun M => size M < 2 ^ (8 * LPF.getLengthSize (LPF.make lt be))) Ms ->
  LPF.unframe (LPF.make lt be) (concat (map (LPF.frame (LPF.make lt be)) Ms))
  = Some (Ms, LPF.make lt be).
Proof.
  intros HMs.
  assert (Hloop : forall acc,
             LPF.unframe_loop (S (length Ms))
               (LPF.mk lt be (concat (map (LPF.frame (LPF.make lt be)) Ms)) 0 false) acc
             = Some (acc ++ Ms, LPF.make lt be)).
  { induction HMs as [|M Ms HM HMs IH]; intros acc.
    - cbn [map concat length LPF.unframe_loop LPF.buffer_].
      pose proof (getLengthSize_pos (LPF.mk lt be [] 0 false)).
      replace (size [] <? _) with true by (symmetry; apply Z.ltb_lt; cbn; lia).
      rewrite app_nil_r. reflexivity.
    - cbn [map concat length]. unfold LPF.frame at 1. rewrite <- app_assoc.
      rewrite lpf_loop_emit.
      + rewrite IH, <- app_assoc. reflexivity.
      + apply length_writeLength.
      + apply readLength_writeLength. split; [apply size_nonneg | exact HM]. }
  destruct (lpf_unframe_total (LPF.make lt be)
              (concat (map (LPF.frame (LPF.make lt be)) Ms))) as [r Hr].
  rewrite Hr. f_equal.
  unfold LPF.unframe in Hr. cbn [LPF.make LPF.buffer_ LPF.lengthType_ LPF.bigEndian_
                                  LPF.expectedLength_ LPF.lengthReceived_ app] in Hr.
  eapply lpf_unframe_loop_deterministic; [exact Hr | apply (Hloop [])].
Qed.

Lemma lpf_unframe_frames_witness :
  let f := LPF.make LPF.UInt16 false in
  let Ms := [[1; 2]; []; [3]] in
  Forall (fun M => size M < 2 ^ (8 * LPF.getLengthSize f)) Ms
  /\ LPF.unframe f (concat (map (LPF.frame f) Ms)) = Some (Ms, f).
Proof.
  cbn zeta.
  assert (H : Forall (fun M => size M < 2 ^ (8 * LPF.getLengthSize (LPF.make LPF.UInt16 false)))
                [[1; 2]; []; [3]])
    by (repeat constructor).
  split; [exact H|].
  exact (lpf_unframe_frames LPF.UInt16 false [[1; 2]; []; [3]] H).
Defined.

(** The loop keeps the framer's configuration. *)
Lemma lpf_unframe_loop_config fuel :
  forall f acc ms f',
    LPF.unframe_loop fuel f acc = Some (ms, f') ->
    LPF.lengthType_ f' = LPF.lengthType_ f /\ LPF.bigEndian_ f' = LPF.bigEndian_ f.
Proof.
  induction fuel as [|fuel IH]; intros f acc ms f' H; [discriminate|].
  cbn [LPF.unframe_loop] in H.
  destruct (size (LPF.buffer_ f) <? LPF.getLengthSize f);
    [inversion H; subst; auto|].
  destruct (negb (LPF.lengthReceived_ f)).
  - destruct (LPF.getLengthSize f <=? size (LPF.buffer_ f));
      [|inversion H; subst; auto].
    cbn [LPF.lengthReceived_ LPF.expectedLength_ LPF.buffer_ LPF.lengthType_
         LPF.bigEndian_ andb] in H.
    match type of H with
    | (if ?c then _ else _) = _ => destruct c
    end; [apply IH in H; cbn in H; exact H | inversion H; subst; auto].
  - match type of H with
    | (if ?c then _ else _) = _ => destruct c
    end; [apply IH in H; cbn in H; exact H | inversion H; subst; auto].
Qed.

Lemma firstn_app_le {A : Type} (n : nat) (u v : list A) :
  (n <= length u)%nat -> firstn n (u ++ v) = firstn n u.
Proof.
  intros H. rewrite firstn_app.
  replace (n - length u)%nat with 0%nat by lia. cbn. apply app_nil_r.
Qed.

Lemma skipn_app_le {A : Type} (n : nat) (u v : list A) :
  (n <= length u)%nat -> skipn n (u ++ v) = skipn n u ++ v.
Proof.
  intros H. rewrite skipn_app.
  replace (n - length u)%nat with 0%nat by lia. reflexivity.
Qed.

(** With a one-byte length field, bytes that arrive later are absorbed:
    running the loop on [X], then again with [b] appended to what was left,
    gives what running it on [X ++ b] gives. *)
Lemma lpf_uint8_absorb k :
  forall be X e lr acc m1 f1 b fuel2 r,
    LPF.unframe_loop k (LPF.mk LPF.UInt8 be X e lr) acc = Some (m1, f1) ->
    LPF.unframe_loop fuel2
      (LPF.mk LPF.UInt8 be (LPF.buffer_ f1 ++ b) (LPF.expectedLength_ f1)
              (LPF.lengthReceived_ f1)) m1 = Some r ->
    exists fuel, LPF.unframe_loop fuel (LPF.mk LPF.UInt8 be (X ++ b) e lr) acc = Some r.
Proof.
  induction k as [|k IH]; intros be X e lr acc m1 f1 b fuel2 r H H2; [discriminate|].
  cbn [LPF.unframe_loop LPF.buffer_ LPF.lengthReceived_ LPF.expectedLength_
       LPF.lengthType_ LPF.bigEndian_] in H.
  change (LPF.getLengthSize (LPF.mk LPF.UInt8 be X e lr)) with 1 in H.
  destruct (size X <? 1) eqn:Hg.
  - (* nothing buffered *)
    apply Z.ltb_lt in Hg. destruct X as [|x X]; [|unfold size in Hg; cbn in Hg; lia].
    inversion H; subst. cbn in H2. exists fuel2. exact H2.
  - apply Z.ltb_ge in Hg.
    assert (HX : (1 <= length X)%nat) by (unfold size in Hg; lia).
    destruct lr; cbn [negb] in H.
    + (* the header was consumed by an earlier call *)
      cbn [LPF.buffer_ LPF.lengthReceived_ LPF.expectedLength_ LPF.lengthType_
           LPF.bigEndian_ andb] in H.
      destruct (e <=? size X) eqn:He.
      * apply Z.leb_le in He.
        destruct (IH _ _ _ _ _ _ _ b fuel2 r H H2) as [fuel Hf].
        exists (S fuel).
        cbn [LPF.unframe_loop LPF.buffer_ LPF.lengthReceived_ LPF.expectedLength_
             LPF.lengthType_ LPF.bigEndian_ negb andb].
        change (LPF.getLengthSize (LPF.mk LPF.UInt8 be (X ++ b) e true)) with 1.
        pose proof (size_nonneg b).
        replace (size (X ++ b) <? 1) with false
          by (symmetry; apply Z.ltb_ge; rewrite size_app; lia).
        replace (e <=? size (X ++ b)) with true
          by (symmetry; apply Z.leb_le; rewrite size_app; lia).
        rewrite firstn_app_le, skipn_app_le by (unfold size in He; lia).
        exact Hf.
      * inversion H; subst. cbn in H2. exists fuel2. exact H2.
    + (* the header is read in this iteration *)
      replace (1 <=? size X) with true in H by (symmetry; apply Z.leb_le; lia).
      cbn [LPF.buffer_ LPF.lengthReceived_ LPF.expectedLength_ LPF.lengthType_
           LPF.bigEndian_ andb] in H.
      change (LPF.getLengthSize (LPF.mk LPF.UInt8 be X e false)) with 1 in H.
      change (LPF.readLength (LPF.mk LPF.UInt8 be X e false) X 0) with (at_ X 0) in H.
      set (e' := at_ X 0) in *. set (X1 := skipn (Z.to_nat 1) X) in *.
      assert (Hhead : forall fuel acc',
                 LPF.unframe_loop (S fuel) (LPF.mk LPF.UInt8 be (X ++ b) e false) acc'
                 = if e' <=? size (X1 ++ b)
                   then LPF.unframe_loop fuel
                          (LPF.mk LPF.UInt8 be (skipn (Z.to_nat e') (X1 ++ b)) 0 false)
                          (acc' ++ [firstn (Z.to_nat e') (X1 ++ b)])
                   else Some (acc', LPF.mk LPF.UInt8 be (X1 ++ b) e' true)).
      { intros fuel acc'.
        cbn [LPF.unframe_loop LPF.buffer_ LPF.lengthReceived_ LPF.expectedLength_
             LPF.lengthType_ LPF.bigEndian_ negb].
        change (LPF.getLengthSize (LPF.mk LPF.UInt8 be (X ++ b) e false)) with 1.
        pose proof (size_nonneg b).
        replace (size (X ++ b) <? 1) with false
          by (symmetry; apply Z.ltb_ge; rewrite size_app; lia).
        replace (1 <=? size (X ++ b)) with true
          by (symmetry; apply Z.leb_le; rewrite size_app; lia).
        cbn [LPF.buffer_ LPF.lengthReceived_ LPF.expectedLength_ LPF.lengthType_
             LPF.bigEndian_ andb].
        change (LPF.readLength (LPF.mk LPF.UInt8 be (X ++ b) e false) (X ++ b) 0)
          with (at_ (X ++ b) 0).
        replace (at_ (X ++ b) 0) with e'
          by (unfold e', at_; cbn [Z.to_nat]; rewrite app_nth1 by lia; reflexivity).
        rewrite skipn_app_le by (cbn; lia). fold X1. reflexivity. }
      destruct (e' <=? size X1) eqn:He.
      * apply Z.leb_le in He.
        destruct (IH _ _ _ _ _ _ _ b fuel2 r H H2) as [fuel Hf].
        exists (S fuel). rewrite Hhead.
        pose proof (size_nonneg b).
        replace (e' <=? size (X1 ++ b)) with true
          by (symmetry; apply Z.leb_le; rewrite size_app; lia).
        rewrite firstn_app_le, skipn_app_le by (unfold size in He; lia).
        exact Hf.
      * apply Z.leb_gt in He. inversion H; subst m1 f1.
        cbn [LPF.buffer_ LPF.lengthReceived_ LPF.expectedLength_] in H2.
        destruct fuel2 as [|k2]; [discriminate|].
        exists (S k2). rewrite Hhead.
        cbn [LPF.unframe_loop LPF.buffer_ LPF.lengthReceived_ LPF.expectedLength_
             LPF.lengthType_ LPF.bigEndian_ negb andb] in H2.
        change (LPF.getLengthSize (LPF.mk LPF.UInt8 be (X1 ++ b) e' true)) with 1 in H2.
        pose proof (size_nonneg X1).
        destruct (e' <=? size (X1 ++ b)) eqn:He2.
        -- apply Z.leb_le in He2.
           replace (size (X1 ++ b) <? 1) with false in H2
             by (symmetry; apply Z.ltb_ge; lia).
           exact H2.
        -- destruct (size (X1 ++ b) <? 1); exact H2.
Qed.

Lemma lpf_unframe_config f data ms f' :
  LPF.unframe f data = Some (ms, f') ->
  LPF.lengthType_ f' = LPF.lengthType_ f /\ LPF.bigEndian_ f' = LPF.bigEndian_ f.
Proof. unfold LPF.unframe. intros H. apply lpf_unframe_loop_config in H. exact H. Qed.

(** Two calls against one, for a one-byte length field. *)
Lemma lpf_uint8_two_chunks f a b m1 f1 m2 f2 :
  LPF.lengthType_ f = LPF.UInt8 ->
  LPF.unframe f a = Some (m1, f1) ->
  LPF.unframe f1 b = Some (m2, f2) ->
  LPF.unframe f (a ++ b) = Some (m1 ++ m2, f2).
Proof.
  intros Hlt H1 H2.
  destruct (lpf_unframe_config _ _ _ _ H1) as [Hlt1 Hbe1].
  destruct f as [lt be X e lr]. cbn in Hlt. subst lt.
  destruct f1 as [lt1 be1 X1 e1 lr1]. cbn in Hlt1, Hbe1. subst lt1 be1.
  unfold LPF.unframe in H1, H2.
  cbn [LPF.buffer_ LPF.lengthReceived_ LPF.expectedLength_ LPF.lengthType_
       LPF.bigEndian_] in H1, H2.
  assert (H2' : LPF.unframe_loop
                  (LPF.unframe_fuel (LPF.mk LPF.UInt8 be (X1 ++ b) e1 lr1))
                  (LPF.mk LPF.UInt8 be (X1 ++ b) e1 lr1) m1
                = Some (m1 ++ m2, f2)).
  { rewrite lpf_unframe_loop_acc, H2. reflexivity. }
  destruct (lpf_uint8_absorb _ _ _ _ _ _ _ _ b _ _ H1 H2') as [fuel Hf].
  destruct (lpf_unframe_total (LPF.mk LPF.UInt8 be X e lr) (a ++ b)) as [r Hr].
  rewrite Hr. f_equal.
  unfold LPF.unframe in Hr.
  cbn [LPF.buffer_ LPF.lengthReceived_ LPF.expectedLength_ LPF.lengthType_
       LPF.bigEndian_] in Hr.
  rewrite app_assoc in Hr.
  eapply lpf_unframe_loop_deterministic; eassumption.
Qed.

Lemma lpf_uint8_chunks chunks :
  forall f c,
    LPF.lengthType_ f = LPF.UInt8 ->
    exists mss f',
      LPF.feed f (c :: chunks) = Some (mss, f')
      /\ LPF.unframe f (concat (c :: chunks)) = Some (concat mss, f').
Proof.
  induction chunks as [|c' rest IH]; intros f c Hlt.
  - destruct (lpf_unframe_total f c) as [[m f1] H].
    exists [m], f1. cbn [LPF.feed concat]. rewrite !app_nil_r, H. auto.
  - destruct (lpf_unframe_total f c) as [[m1 f1] H1].
    destruct (lpf_unframe_config _ _ _ _ H1) as [Hlt1 _]. rewrite Hlt in Hlt1.
    destruct (IH f1 c' Hlt1) as (mss & f' & Hfeed & Hone).
    exists (m1 :: mss), f'. split.
    + change (LPF.feed f (c :: c' :: rest))
        with (match LPF.unframe f c with
              | None => None
              | Some (ms, f0) =>
                  match LPF.feed f0 (c' :: rest) with
                  | None => None
                  | Some (mss0, f'') => Some (ms :: mss0, f'')
                  end
              end).
      rewrite H1, Hfeed. reflexivity.
    + change (concat (c :: c' :: rest)) with (c ++ concat (c' :: rest)).
      cbn [concat]. eapply lpf_uint8_two_chunks; eassumption.
Qed.

(** X3.  Chunk invariance does hold for the one-byte length field: however the
    bytes are split into chunks, a fresh framer emits over the calls what
    it emits for all the bytes in one call, and ends in the same state. *)
Theorem lpf_uint8_chunk_invariance be chunks :
  exists mss f',
    LPF.feed (LPF.make LPF.UInt8 be) chunks = Some (mss, f')
    /\ LPF.unframe (LPF.make LPF.UInt8 be) (concat chunks) = Some (concat mss, f').
Proof.
  destruct chunks as [|c chunks].
  - exists [], (LPF.make LPF.UInt8 be). split; reflexivity.
  - apply lpf_uint8_chunks. reflexivity.
Qed.

(** ** Delimiter framing *)

Lemma std_equal_refl d l : DF.std_equal d (d ++ l) = true.
Proof.
  induction d as [|x d IH]; [reflexivity|].
  cbn. rewrite Z.eqb_refl. exact IH.
Qed.

(** [std_equal] tells whether the range occurs at the head of the data. *)
Lemma std_equal_spec d l :
  DF.std_equal d l = true <-> firstn (length d) l = d.
Proof.
  revert l. induction d as [|x d IH]; intros l.
  - cbn. tauto.
  - destruct l as [|y l]; cbn.
    + split; discriminate.
    + rewrite andb_true_iff, Z.eqb_eq, IH. split.
      * intros [-> ->]. reflexivity.
      * intros H. injection H as -> H. rewrite H. tauto.
Qed.

Lemma find_from_first d data k :
  forall count i,
    (forall j, (i <= j < i + k)%nat -> DF.std_equal d (skipn j data) = false) ->
    DF.std_equal d (skipn (i + k) data) = true ->
    (k < count)%nat ->
    DF.find_from d data count i = Some (i + k)%nat.
Proof.
  induction k as [|k IH]; intros count i Hno Hyes Hc.
  - destruct count; [lia|]. cbn. rewrite Nat.add_0_r in *. rewrite Hyes. reflexivity.
  - destruct count; [lia|]. cbn. rewrite (Hno i) by lia.
    replace (i + S k)%nat with (S i + k)%nat in * by lia.
    apply IH; [|assumption|lia].
    intros j Hj. apply Hno. lia.
Qed.

Lemma find_from_range d data count :
  forall i p, DF.find_from d data count i = Some p -> (i <= p < i + count)%nat.
Proof.
  induction count as [|count IH]; intros i p H; [discriminate|].
  cbn in H. destruct (DF.std_equal d (skipn i data)).
  - inversion H. lia.
  - apply IH in H. lia.
Qed.

(** A match lies inside the data and the delimiter is not empty. *)
Lemma findDelimiter_range f data p :
  DF.findDelimiter f data 0 = Some p ->
  (0 < length (DF.delimiter_ f))%nat
  /\ (p + length (DF.delimiter_ f) <= length data)%nat.
Proof.
  unfold DF.findDelimiter.
  destruct (length (DF.delimiter_ f) =? 0)%nat eqn:E0; [discriminate|].
  destruct (length data <? length (DF.delimiter_ f))%nat eqn:E1; [discriminate|].
  cbn [orb]. intros H. apply find_from_range in H.
  apply Nat.eqb_neq in E0. apply Nat.ltb_ge in E1. lia.
Qed.

Lemma df_unframe_loop_fuel fuel :
  forall f messages,
    (length (DF.buffer_ f) < fuel)%nat ->
    exists r, DF.unframe_loop fuel f messages = Some r.
Proof.
  induction fuel as [|fuel IH]; intros f messages Hm; [lia|].
  cbn [DF.unframe_loop].
  destruct (DF.findDelimiter f (DF.buffer_ f) 0) as [pos|] eqn:E; [|eauto].
  apply findDelimiter_range in E. destruct E as [Hd Hp].
  apply IH. cbn [DF.buffer_]. rewrite length_skipn. lia.
Qed.

(** [unframe] returns on every framer state and every input. *)
Lemma df_unframe_total f data : exists r, DF.unframe f data = Some r.
Proof.
  unfold DF.unframe, DF.unframe_fuel. apply df_unframe_loop_fuel.
  cbn [DF.buffer_]. lia.
Qed.

(** The delimiter half of the round trip: the delimiter is not empty and
    does not occur in [M ++ delimiter] before the end of [M]. *)
Lemma df_unframe_frame d incl M :
  d <> [] ->
  (forall i, (i < length M)%nat -> firstn (length d) (skipn i (M ++ d)) <> d) ->
  DF.unframe (DF.make d incl) (DF.frame (DF.make d incl) M)
  = Some ([if incl then M ++ d else M], DF.make d incl).
Proof.
  intros Hd Hfirst.
  assert (Hlen : (0 < length d)%nat) by (destruct d; [congruence | cbn; lia]).
  unfold DF.unframe, DF.frame, DF.unframe_fuel.
  cbn [DF.make DF.delimiter_ DF.includeDelimiter_ DF.buffer_ app DF.unframe_loop].
  assert (Hfind : DF.findDelimiter (DF.mk d incl (M ++ d)) (M ++ d) 0 = Some (length M)).
  { unfold DF.findDelimiter. cbn [DF.delimiter_].
    replace (length d =? 0)%nat with false by (symmetry; apply Nat.eqb_neq; lia).
    replace (length (M ++ d) <? length d)%nat with false
      by (symmetry; apply Nat.ltb_ge; rewrite length_app; lia).
    cbn [orb]. rewrite length_app, Nat.sub_0_r.
    replace (S (length M + length d - length d)) with (S (length M)) by lia.
    apply (find_from_first d (M ++ d) (length M) (S (length M)) 0).
    - intros j Hj. destruct (DF.std_equal d (skipn j (M ++ d))) eqn:E; [|reflexivity].
      apply std_equal_spec in E. exfalso. apply (Hfirst j); [lia | exact E].
    - cbn [Nat.add]. rewrite skipn_app, skipn_all, Nat.sub_diag. cbn [skipn app].
      rewrite <- (app_nil_r d) at 2. apply std_equal_refl.
    - lia. }
  rewrite Hfind.
  cbn [DF.delimiter_ DF.includeDelimiter_ DF.buffer_].
  rewrite firstn_app, firstn_all, Nat.sub_diag, app_nil_r.
  replace (skipn (length M + length d) (M ++ d)) with (@nil Z)
    by (symmetry; apply skipn_all2; rewrite length_app; lia).
  rewrite length_app. replace (length M + length d)%nat with (S (length M + length d - 1)) by lia.
  cbn [DF.unframe_loop].
  unfold DF.findDelimiter. cbn [DF.delimiter_ DF.buffer_ length].
  replace (0 <? length d)%nat with true by (symmetry; apply Nat.ltb_lt; lia).
  rewrite orb_true_r. cbn [app]. destruct incl; reflexivity.
Qed.

(** *** The worked examples of the specification *)

Example lpf_two_messages_in_one_call :
  option_map fst
    (LPF.unframe (LPF.make LPF.UInt32 true)
                 [0; 0; 0; 3; 97; 98; 99; 0; 0; 0; 2; 120; 121])
  = Some [[97; 98; 99]; [120; 121]].
Proof. vm_compute. reflexivity. Qed.

Example df_delimiter_split_across_calls :
  option_map fst
    (DF.feed (DF.make [13; 10] false)
             [[97; 98; 99; 13; 10; 100; 101]; [102; 13; 10]])
  = Some [[[97; 98; 99]]; [[100; 101; 102]]].
Proof. vm_compute. reflexivity. Qed.

(** *** The claims on framing *)

(** C1 (chunk invariance of the length-prefixed framer) fails on the code.
    A 4-byte big-endian framer is fed the frame of the message [[120; 121]]
    in two chunks, the header [[0; 0; 0; 2]] and then the payload: the
    first call reads the header, the second call does not enter the loop
    because the two buffered bytes are fewer than a header, so nothing is
    emitted; the same six bytes in one call emit the message.  (With a
    one-byte length field the loop guard cannot go wrong in this way, see
    [lpf_uint8_chunk_invariance].) *)
Theorem C1_split_after_header_emits_nothing :
  option_map (fun r => concat (fst r))
             (LPF.feed (LPF.make LPF.UInt32 true) [[0; 0; 0; 2]; [120; 121]])
  = Some []
  /\ option_map fst (LPF.unframe (LPF.make LPF.UInt32 true) [0; 0; 0; 2; 120; 121])
     = Some [[120; 121]].
Proof. split; vm_compute; reflexivity. Qed.

(** The payload of the split frame is still buffered: it is emitted once
    later bytes bring the buffer up to the size of a header. *)
Lemma lpf_split_message_is_delayed :
  option_map fst
    (LPF.feed (LPF.make LPF.UInt32 true) [[0; 0; 0; 2]; [120; 121]; [0; 0]])
  = Some [[]; []; [[120; 121]]].
Proof. vm_compute. reflexivity. Qed.

(** C2 as stated fails: with [includeDelimiter] set, the delimiter framer
    returns the message with the delimiter appended. *)
Lemma C2_counterexample_include_delimiter :
  option_map fst
    (DF.unframe (DF.make [10] true) (DF.frame (DF.make [10] true) [97]))
  = Some [[97; 10]]
  /\ option_map fst
       (DF.unframe (DF.make [10] true) (DF.frame (DF.make [10] true) [97]))
     <> Some [[97]].
Proof. split; vm_compute; [reflexivity | discriminate]. Qed.

(** The other ways the round trip fails: a message longer than the length
    field can count, and a message in which the delimiter occurs. *)
Lemma lpf_roundtrip_fails_on_long_message :
  option_map fst
    (LPF.unframe (LPF.make LPF.UInt8 true)
                 (LPF.frame (LPF.make LPF.UInt8 true) (repeat 1 256)))
  <> Some [repeat 1 256].
Proof. vm_compute. discriminate. Qed.

Lemma df_roundtrip_fails_on_embedded_delimiter :
  option_map fst
    (DF.unframe (DF.make [10] false) (DF.frame (DF.make [10] false) [97; 10; 98]))
  = Some [[97]; [98]].
Proof. vm_compute. reflexivity. Qed.

(** C2, amended.  A fresh length-prefixed framer of any width and byte
    order returns exactly [[M]] on [frame(M)] when the length of [M] fits
    the length field; a fresh delimiter framer with a non-empty delimiter
    that does not occur in [M ++ delimiter] before the end of [M] returns
    exactly one message, [M] when [includeDelimiter] is off and
    [M ++ delimiter] when it is on.  In both cases the framer is left
    with an empty buffer. *)
Theorem C2_unframe_frame_amended :
  (forall lt be M,
      size M < 2 ^ (8 * LPF.getLengthSize (LPF.make lt be)) ->
      LPF.unframe (LPF.make lt be) (LPF.frame (LPF.make lt be) M)
      = Some ([M], LPF.make lt be))
  /\ (forall d incl M,
         d <> [] ->
         (forall i, (i < length M)%nat -> firstn (length d) (skipn i (M ++ d)) <> d) ->
         DF.unframe (DF.make d incl) (DF.frame (DF.make d incl) M)
         = Some ([if incl then M ++ d else M], DF.make d incl)).
Proof.
  split.
  - exact lpf_unframe_frame.
  - exact df_unframe_frame.
Qed.

Lemma C2_unframe_frame_witness :
  (size [1; 2; 3] < 2 ^ (8 * LPF.getLengthSize (LPF.make LPF.UInt16 false))
   /\ LPF.unframe (LPF.make LPF.UInt16 false)
                  (LPF.frame (LPF.make LPF.UInt16 false) [1; 2; 3])
      = Some ([[1; 2; 3]], LPF.make LPF.UInt16 false))
  /\ ([13; 10] <> []
      /\ (forall i, (i < length [97; 98])%nat ->
                    firstn (length [13; 10]) (skipn i ([97; 98] ++ [13; 10])) <> [13; 10])
      /\ DF.unframe (DF.make [13; 10] false) (DF.frame (DF.make [13; 10] false) [97; 98])
         = Some ([[97; 98]], DF.make [13; 10] false)).
Proof.
  assert (H1 : size [1; 2; 3] < 2 ^ (8 * LPF.getLengthSize (LPF.make LPF.UInt16 false)))
    by (vm_compute; reflexivity).
  assert (H2 : [13; 10] <> @nil Z) by discriminate.
  assert (H3 : forall i, (i < length [97; 98])%nat ->
                         firstn (length [13; 10]) (skipn i ([97; 98] ++ [13; 10]))
                         <> [13; 10]).
  { intros i Hi. cbn in Hi.
    destruct i as [|[|i]]; [cbn; discriminate | cbn; discriminate | lia]. }
  split.
  - split; [exact H1 | exact (proj1 C2_unframe_frame_amended _ _ _ H1)].
  - split; [exact H2 | split; [exact H3 |]].
    exact (proj2 C2_unframe_frame_amended [13; 10] false [97; 98] H2 H3).
Defined.

Lemma df_empty_unframe incl buf data :
  DF.unframe (DF.mk [] incl buf) data = Some ([], DF.mk [] incl (buf ++ data)).
Proof. reflexivity. Qed.

(** C10.  A delimiter framer whose delimiter is empty: [frame] returns the
    message unchanged, [isComplete] is false on every input, and [unframe]
    returns no message and appends the input to the buffer, on one call and
    on every sequence of calls. *)
Theorem C10_empty_delimiter incl buf M data chunks :
  let f := DF.mk [] incl buf in
  DF.frame f M = M
  /\ DF.isComplete f data = false
  /\ DF.unframe f data = Some ([], DF.mk [] incl (buf ++ data))
  /\ DF.feed f chunks
     = Some (map (fun _ => []) chunks, DF.mk [] incl (buf ++ concat chunks)).
Proof.
  cbn zeta. repeat split.
  - unfold DF.frame. cbn. apply app_nil_r.
  - revert buf. induction chunks as [|c chunks IH]; intros buf.
    + cbn. rewrite app_nil_r. reflexivity.
    + cbn [DF.feed]. rewrite df_empty_unframe, IH.
      cbn [map concat]. rewrite app_assoc. reflexivity.
Qed.


(** ** The token bucket *)

Lemma wrap64_range z : 0 <= wrap64 z < 2 ^ 64.
Proof. unfold wrap64. apply Z.mod_pos_bound. lia. Qed.

Lemma wrap64_small z : 0 <= z <= SIZE_MAX -> wrap64 z = z.
Proof. unfold wrap64, SIZE_MAX. intros H. apply Z.mod_small. lia. Qed.

Lemma wrap64_le z : 0 <= z -> wrap64 z <= z.
Proof. unfold wrap64. intros H. apply Z.mod_le; lia. Qed.

(** *** Rounding in binary64

    [binary_round_aux] shifts a mantissa of at least 53 bits down to 53
    bits and rounds it to nearest even; the result is within [2^-52] of
    the number rounded, relatively.  The conversion of an integer, the
    division and the multiplication all end in it. *)

Lemma digits2_pos_size p : digits2_pos p = Pos.size p.
Proof. induction p; cbn; congruence. Qed.

Lemma Zdigits2_log2 p : Zdigits2 (Zpos p) = Z.succ (Z.log2 (Zpos p)).
Proof.
  destruct p; cbn [Zdigits2 digits2_pos Z.log2]; rewrite ?digits2_pos_size, ?Pos2Z.inj_succ; reflexivity.
Qed.

Lemma Zdigits2_bounds m : 0 < m -> 2 ^ (Zdigits2 m - 1) <= m < 2 ^ Zdigits2 m.
Proof.
  intros H. destruct m as [|p|p]; try lia.
  rewrite Zdigits2_log2. replace (Z.succ (Z.log2 (Z.pos p)) - 1) with (Z.log2 (Z.pos p)) by lia.
  apply Z.log2_spec. lia.
Qed.

Lemma Zdigits2_unique m k : 2 ^ (k - 1) <= m < 2 ^ k -> 1 <= k -> Zdigits2 m = k.
Proof.
  intros H Hk. assert (0 < m) by (pose proof (Z.pow_pos_nonneg 2 (k - 1)); lia).
  destruct m as [|p|p]; try lia.
  rewrite Zdigits2_log2. rewrite (Z.log2_unique (Z.pos p) (k - 1)); try lia.
  replace (Z.succ (k - 1)) with k by lia. exact H.
Qed.

Lemma shr_1_m mrs : 0 <= shr_m mrs -> shr_m (shr_1 mrs) = shr_m mrs / 2.
Proof.
  destruct mrs as [m r s]. cbn [shr_m]. intros H. unfold shr_1.
  destruct m as [|[p|p|]|p]; cbn [shr_m]; try lia; try reflexivity.
  - apply (Z.div_unique _ _ _ 1); lia.
  - apply (Z.div_unique _ _ _ 0); lia.
Qed.

Lemma iter_pos_shr_m p : forall mrs, 0 <= shr_m mrs ->
  shr_m (iter_pos shr_1 p mrs) = shr_m mrs / 2 ^ Zpos p.
Proof.
  induction p as [p IH|p IH|]; intros mrs H; cbn [iter_pos].
  - assert (H1 : 0 <= shr_m (shr_1 mrs)) by (rewrite shr_1_m by assumption; apply Z.div_pos; lia).
    assert (H2 : 0 <= shr_m (iter_pos shr_1 p (shr_1 mrs))).
    { rewrite IH by assumption. apply Z.div_pos; [assumption|]. apply Z.pow_pos_nonneg; lia. }
    rewrite IH, IH, shr_1_m by assumption.
    rewrite !Z.div_div by (try apply Z.pow_pos_nonneg; lia).
    f_equal. change (Z.pos p~1) with (2 * Z.pos p + 1).
    replace (2 * Z.pos p + 1) with (1 + Z.pos p + Z.pos p) by lia.
    rewrite !Z.pow_add_r by lia. change (2 ^ 1) with 2. lia.
  - assert (H2 : 0 <= shr_m (iter_pos shr_1 p mrs)).
    { rewrite IH by assumption. apply Z.div_pos; [assumption|]. apply Z.pow_pos_nonneg; lia. }
    rewrite IH, IH by assumption.
    rewrite !Z.div_div by (try apply Z.pow_pos_nonneg; lia).
    f_equal. change (Z.pos p~0) with (2 * Z.pos p).
    replace (2 * Z.pos p) with (Z.pos p + Z.pos p) by lia.
    rewrite !Z.pow_add_r by lia. lia.
  - rewrite shr_1_m by assumption. reflexivity.
Qed.

Lemma shr_record_of_loc_m m l : shr_m (shr_record_of_loc m l) = m.
Proof. destruct l as [|[]]; reflexivity. Qed.

Lemma shr_fexp_m m e l :
  0 < m -> 53 <= Zdigits2 m -> -1000 <= e ->
  snd (shr_fexp 53 1024 m e l) = e + (Zdigits2 m - 53)
  /\ shr_m (fst (shr_fexp 53 1024 m e l)) = m / 2 ^ (Zdigits2 m - 53).
Proof.
  intros Hm Hd He. unfold shr_fexp, fexp, emin.
  replace (Z.max (Zdigits2 m + e - 53) (3 - 1024 - 53) - e) with (Zdigits2 m - 53) by lia.
  unfold shr. destruct (Zdigits2 m - 53) as [|p|p] eqn:E; try lia; cbn [fst snd].
  - rewrite shr_record_of_loc_m, Z.div_1_r. split; lia.
  - split; [reflexivity|]. rewrite iter_pos_shr_m; rewrite shr_record_of_loc_m; [reflexivity | lia].
Qed.

Lemma round_nearest_even_bounds m l :
  m <= round_nearest_even m l <= m + 1.
Proof. destruct l as [|[]]; cbn; try lia. destruct (Z.even m); lia. Qed.

Lemma bpow_pos e : (0 < RL.bpow e)%R.
Proof. apply powerRZ_lt. lra. Qed.

Lemma bpow_add a b : RL.bpow (a + b) = (RL.bpow a * RL.bpow b)%R.
Proof. apply powerRZ_add. lra. Qed.

Lemma bpow_IZR k : 0 <= k -> RL.bpow k = IZR (2 ^ k).
Proof.
  intros H. unfold RL.bpow. rewrite <- (Z2Nat.id k) by assumption.
  rewrite <- pow_powerRZ, pow_IZR. reflexivity.
Qed.

Lemma binary_round_aux_bound m e l (X : R) :
  0 < m -> 53 <= Zdigits2 m -> -1000 <= e -> Zdigits2 m + e <= 1000 ->
  (IZR m * RL.bpow e <= X < (IZR m + 1) * RL.bpow e)%R ->
  exists m' e',
    binary_round_aux 53 1024 false m e l = S754_finite false m' e'
    /\ Zdigits2 (Zpos m') = 53
    /\ e + (Zdigits2 m - 53) <= e' <= e + (Zdigits2 m - 53) + 1
    /\ (X * (1 - RL.eps) <= IZR (Zpos m') * RL.bpow e' <= X * (1 + RL.eps))%R.
Proof.
  intros Hm Hd He Hhi HX.
  set (n := Zdigits2 m - 53) in *.
  assert (Hn : 0 <= n) by lia.
  destruct (shr_fexp_m m e l Hm Hd He) as [Hs1 Hm1]. fold n in Hs1, Hm1.
  unfold binary_round_aux.
  destruct (shr_fexp 53 1024 m e l) as [mrs1 e1]. cbn [fst snd] in Hs1, Hm1. subst e1.
  set (m1 := shr_m mrs1) in *.
  pose proof (Zdigits2_bounds m Hm) as Hb.
  assert (H2n : 0 < 2 ^ n) by (apply Z.pow_pos_nonneg; lia).
  assert (Hsplit : 2 ^ (Zdigits2 m - 1) = 2 ^ 52 * 2 ^ n).
  { rewrite <- Z.pow_add_r by lia. f_equal. lia. }
  assert (Hsplit' : 2 ^ Zdigits2 m = 2 ^ 53 * 2 ^ n).
  { rewrite <- Z.pow_add_r by lia. f_equal. lia. }
  assert (Hm1b : 2 ^ 52 <= m1 < 2 ^ 53).
  { rewrite Hm1. split.
    - apply Z.div_le_lower_bound; lia.
    - apply Z.div_lt_upper_bound; lia. }
  assert (Hdm : m1 * 2 ^ n <= m /\ m + 1 <= (m1 + 1) * 2 ^ n).
  { rewrite Hm1. pose proof (Z.div_mod m (2 ^ n)). pose proof (Z.mod_pos_bound m (2 ^ n)). nia. }
  pose proof (round_nearest_even_bounds m1 (loc_of_shr_record mrs1)) as Hr.
  set (m2 := round_nearest_even m1 (loc_of_shr_record mrs1)) in *.
  set (beta := RL.bpow (e + n)).
  assert (Hbeta : (0 < beta)%R) by apply bpow_pos.
  assert (Hbe : beta = (IZR (2 ^ n) * RL.bpow e)%R).
  { unfold beta. rewrite Z.add_comm, bpow_add, (bpow_IZR n) by lia. reflexivity. }
  assert (HXl : (IZR m1 * beta <= X)%R).
  { apply Rle_trans with (IZR m * RL.bpow e)%R; [|apply HX].
    rewrite Hbe, <- Rmult_assoc, <- mult_IZR.
    apply Rmult_le_compat_r; [apply Rlt_le, bpow_pos|]. apply IZR_le. lia. }
  assert (HXu : (X <= (IZR m1 + 1) * beta)%R).
  { apply Rle_trans with ((IZR m + 1) * RL.bpow e)%R; [apply Rlt_le, HX|].
    rewrite Hbe, <- Rmult_assoc, <- !plus_IZR, <- mult_IZR.
    apply Rmult_le_compat_r; [apply Rlt_le, bpow_pos|]. apply IZR_le. lia. }
  assert (Hm1R : (4503599627370496 <= IZR m1)%R) by (apply IZR_le; change (2 ^ 52) with 4503599627370496 in Hm1b; lia).
  assert (Hbx : (beta <= X * RL.eps)%R).
  { unfold RL.eps. nra. }
  assert (Hm2R : (IZR m1 <= IZR m2 <= IZR m1 + 1)%R).
  { rewrite <- plus_IZR. split; apply IZR_le; lia. }
  assert (HV : (X * (1 - RL.eps) <= IZR m2 * beta <= X * (1 + RL.eps))%R) by nra.
  assert (Hm2 : 0 < m2) by lia.
  assert (Hd2 : 53 <= Zdigits2 m2 <= 54).
  { destruct (Z.eq_dec m2 (2 ^ 53)) as [E|E].
    - rewrite E. cbn. lia.
    - rewrite (Zdigits2_unique m2 53); lia. }
  destruct (shr_fexp_m m2 (e + n) loc_Exact Hm2 (proj1 Hd2) ltac:(lia)) as [Hs2 Hm3].
  destruct (shr_fexp 53 1024 m2 (e + n) loc_Exact) as [mrs2 e2]. cbn [fst snd] in Hs2, Hm3. subst e2.
  destruct (Z.eq_dec m2 (2 ^ 53)) as [E|E].
  - rewrite E in Hm3 |- *. change (Zdigits2 (2 ^ 53) - 53) with 1 in *.
    change (2 ^ 53 / 2 ^ 1) with (Z.pos (2 ^ 52)) in Hm3. rewrite Hm3.
    replace (e + n + 1 <=? 1024 - 53) with true by (symmetry; apply Z.leb_le; lia).
    exists (2 ^ 52)%positive, (e + n + 1). split; [reflexivity|]. split; [reflexivity|].
    split; [lia|].
    replace (IZR (Z.pos (2 ^ 52)) * RL.bpow (e + n + 1))%R with (IZR m2 * beta)%R; [exact HV|].
    rewrite E, bpow_add. fold beta.
    replace (RL.bpow 1) with 2%R by (rewrite bpow_IZR by lia; reflexivity).
    change (2 ^ 53) with 9007199254740992. change (Z.pos (2 ^ 52)) with 4503599627370496.
    lra.
  - assert (Hd53 : Zdigits2 m2 = 53) by (apply Zdigits2_unique; lia).
    rewrite Hd53 in *. change (53 - 53) with 0 in *. rewrite Z.div_1_r in Hm3.
    rewrite Hm3. destruct m2 as [|p|p]; try lia.
    replace (e + n + 0 <=? 1024 - 53) with true by (symmetry; apply Z.leb_le; lia).
    exists p, (e + n + 0). split; [reflexivity|]. split; [exact Hd53|]. split; [lia|].
    rewrite Z.add_0_r. exact HV.
Qed.

Lemma Pos_iter_xO p k : Zpos (Pos.iter xO p k) = Zpos p * 2 ^ Zpos k.
Proof.
  induction k as [|k IH] using Pos.peano_ind.
  - cbn. lia.
  - rewrite Pos.iter_succ, Pos2Z.inj_xO, IH, Pos2Z.inj_succ, Z.pow_succ_r by lia. lia.
Qed.

Lemma to_double_bound z :
  0 < z < 2 ^ 64 -> RL.near_double (RL.to_double z) (-52) 12 (IZR z).
Proof.
  intros Hz. destruct z as [|p|p]; try lia.
  unfold RL.to_double, RL.prec, RL.emax, binary_normalize, binary_round, shl_align, fexp, emin.
  pose proof (Zdigits2_bounds (Zpos p) ltac:(lia)) as Hb.
  change (Z.pos (digits2_pos p)) with (Zdigits2 (Zpos p)).
  set (d := Zdigits2 (Zpos p)) in *.
  assert (Hd1 : 1 <= d) by (unfold d; cbn; lia).
  assert (Hd : d <= 64).
  { destruct (Z_le_gt_dec d 64) as [L|G]; [exact L|].
    assert (2 ^ 64 <= 2 ^ (d - 1)) by (apply Z.pow_le_mono_r; lia). lia. }
  replace (Z.max (d + 0 - 53) (3 - 1024 - 53) - 0) with (d - 53) by lia.
  replace (Z.max (d + 0 - 53) (3 - 1024 - 53)) with (d - 53) by lia.
  destruct (d - 53) as [|k|k] eqn:E.
  - destruct (binary_round_aux_bound (Zpos p) 0 loc_Exact (IZR (Zpos p)))
      as (m' & e' & H1 & H2 & H3 & H4); fold d; try lia.
    { unfold RL.bpow. cbn. lra. }
    exists m', e'. fold d in H3. repeat split; try assumption; try apply H4; lia.
  - destruct (binary_round_aux_bound (Zpos p) 0 loc_Exact (IZR (Zpos p)))
      as (m' & e' & H1 & H2 & H3 & H4); fold d; try lia.
    { unfold RL.bpow. cbn. lra. }
    exists m', e'. fold d in H3. repeat split; try assumption; try apply H4; lia.
  - assert (Hk : Z.pos k = 53 - d) by lia.
    assert (Hv : Zpos (Pos.iter xO p k) = Zpos p * 2 ^ (53 - d)) by (rewrite Pos_iter_xO, Hk; reflexivity).
    assert (H2k : 0 < 2 ^ (53 - d)) by (apply Z.pow_pos_nonneg; lia).
    assert (Hdd : Zdigits2 (Zpos (Pos.iter xO p k)) = 53).
    { apply Zdigits2_unique; [|lia]. rewrite Hv.
      assert (P1 : 2 ^ (53 - 1) = 2 ^ (d - 1) * 2 ^ (53 - d))
        by (rewrite <- Z.pow_add_r by lia; f_equal; lia).
      assert (P2 : 2 ^ 53 = 2 ^ d * 2 ^ (53 - d))
        by (rewrite <- Z.pow_add_r by lia; f_equal; lia).
      rewrite P1, P2. nia. }
    destruct (binary_round_aux_bound (Zpos (Pos.iter xO p k)) (Z.neg k) loc_Exact (IZR (Zpos p)))
      as (m' & e' & H1 & H2 & H3 & H4); rewrite ?Hdd; try lia.
    { assert (Hx : (IZR (Zpos (Pos.iter xO p k)) * RL.bpow (Z.neg k) = IZR (Zpos p))%R).
      { rewrite Hv, mult_IZR, <- bpow_IZR by lia. rewrite Rmult_assoc, <- bpow_add.
        replace (53 - d + Z.neg k) with 0 by lia. unfold RL.bpow. cbn. lra. }
      pose proof (bpow_pos (Z.neg k)). rewrite Rmult_plus_distr_r, Hx. lra. }
    exists m', e'. repeat split; try assumption; try apply H4; lia.
Qed.

Lemma double_div_bound m1 e1 m2 e2 :
  Zdigits2 (Zpos m1) = 53 -> Zdigits2 (Zpos m2) = 53 ->
  -200 <= e1 <= 200 -> -200 <= e2 <= 200 ->
  RL.near_double (RL.double_div (S754_finite false m1 e1) (S754_finite false m2 e2))
              (e1 - e2 - 53) (e1 - e2 - 51)
              (IZR (Zpos m1) * RL.bpow e1 / (IZR (Zpos m2) * RL.bpow e2))%R.
Proof.
  intros D1 D2 E1 E2.
  pose proof (Zdigits2_bounds (Zpos m1) ltac:(lia)) as B1. rewrite D1 in B1.
  pose proof (Zdigits2_bounds (Zpos m2) ltac:(lia)) as B2. rewrite D2 in B2.
  change (2 ^ (53 - 1)) with 4503599627370496 in *.
  change (2 ^ 53) with 9007199254740992 in *.
  unfold RL.double_div, RL.prec, RL.emax, SFdiv, SFdiv_core_binary. rewrite D1, D2. unfold fexp, emin.
  replace (Z.min (Z.max (53 + e1 - (53 + e2) - 53) (3 - 1024 - 53)) (e1 - e2))
    with (e1 - e2 - 53) by lia.
  replace (e1 - e2 - (e1 - e2 - 53)) with 53 by lia.
  rewrite Z.shiftl_mul_pow2 by lia. change (2 ^ 53) with 9007199254740992.
  pose proof (Z_div_mod (Zpos m1 * 9007199254740992) (Zpos m2) ltac:(lia)) as Hdiv.
  destruct (Z.div_eucl (Z.pos m1 * 9007199254740992) (Z.pos m2)) as [q r].
  destruct Hdiv as [Hq Hr].
  assert (Hqb : 4503599627370496 <= q < 18014398509481984) by nia.
  assert (Hdq : 53 <= Zdigits2 q <= 54).
  { destruct (Z_lt_le_dec q 9007199254740992).
    - rewrite (Zdigits2_unique q 53); [lia| |lia].
      change (2 ^ (53 - 1)) with 4503599627370496. change (2 ^ 53) with 9007199254740992. lia.
    - rewrite (Zdigits2_unique q 54); [lia| |lia].
      change (2 ^ (54 - 1)) with 9007199254740992. change (2 ^ 54) with 18014398509481984. lia. }
  set (X := (IZR (Zpos m1) * RL.bpow e1 / (IZR (Zpos m2) * RL.bpow e2))%R).
  set (e' := e1 - e2 - 53).
  assert (HM2 : (0 < IZR (Zpos m2))%R) by (apply IZR_lt; lia).
  assert (HX : (X * IZR (Zpos m2) = IZR (Zpos m1 * 9007199254740992) * RL.bpow e')%R).
  { unfold X. replace e1 with (e2 + (53 + e')) by (unfold e'; lia).
    rewrite !bpow_add, (bpow_IZR 53), mult_IZR by lia.
    change (2 ^ 53) with 9007199254740992.
    pose proof (bpow_pos e2). field. split; lra. }
  assert (Hbe : (0 < RL.bpow e')%R) by apply bpow_pos.
  destruct (binary_round_aux_bound q e' (new_location (Zpos m2) r) X)
    as (m' & ez & H1 & H2 & H3 & H4); try (unfold e'; lia).
  { rewrite Hq, plus_IZR, mult_IZR in HX.
    assert (Hr0 : (0 <= IZR r < IZR (Zpos m2))%R) by (split; [apply IZR_le|apply IZR_lt]; lia).
    split.
    - apply Rmult_le_reg_r with (IZR (Zpos m2)); [exact HM2|]. rewrite HX. nra.
    - apply Rmult_lt_reg_r with (IZR (Zpos m2)); [exact HM2|]. rewrite HX. nra. }
  exists m', ez. split; [exact H1|]. split; [exact H2|]. split; [unfold e' in H3; lia|]. exact H4.
Qed.

Lemma double_mul_bound m1 e1 m2 e2 :
  Zdigits2 (Zpos m1) = 53 -> Zdigits2 (Zpos m2) = 53 ->
  -200 <= e1 <= 200 -> -200 <= e2 <= 200 ->
  RL.near_double (RL.double_mul (S754_finite false m1 e1) (S754_finite false m2 e2))
              (e1 + e2 + 52) (e1 + e2 + 54)
              ((IZR (Zpos m1) * RL.bpow e1) * (IZR (Zpos m2) * RL.bpow e2))%R.
Proof.
  intros D1 D2 E1 E2.
  pose proof (Zdigits2_bounds (Zpos m1) ltac:(lia)) as B1. rewrite D1 in B1.
  pose proof (Zdigits2_bounds (Zpos m2) ltac:(lia)) as B2. rewrite D2 in B2.
  change (2 ^ (53 - 1)) with 4503599627370496 in *.
  change (2 ^ 53) with 9007199254740992 in *.
  unfold RL.double_mul, RL.prec, RL.emax, SFmul. cbn [xorb].
  assert (Hp : 4503599627370496 * 4503599627370496 <= Zpos (m1 * m2)
               < 9007199254740992 * 9007199254740992) by (rewrite Pos2Z.inj_mul; nia).
  assert (Hd : 105 <= Zdigits2 (Zpos (m1 * m2)) <= 106).
  { destruct (Z_lt_le_dec (Zpos (m1 * m2)) (2 ^ 105)) as [L|G].
    - rewrite (Zdigits2_unique _ 105); [lia| |lia]. split; [|exact L].
      change (2 ^ (105 - 1)) with (4503599627370496 * 4503599627370496). lia.
    - rewrite (Zdigits2_unique _ 106); [lia| |lia]. split; [exact G|].
      change (2 ^ 106) with (9007199254740992 * 9007199254740992). lia. }
  destruct (binary_round_aux_bound (Zpos (m1 * m2)) (e1 + e2) loc_Exact
              ((IZR (Zpos m1) * RL.bpow e1) * (IZR (Zpos m2) * RL.bpow e2))%R)
    as (m' & ez & H1 & H2 & H3 & H4); try lia.
  { rewrite Pos2Z.inj_mul, mult_IZR, bpow_add.
    pose proof (bpow_pos e1). pose proof (bpow_pos e2).
    assert (0 < RL.bpow e1 * RL.bpow e2)%R by (apply Rmult_lt_0_compat; assumption).
    split; [right; ring|]. nra. }
  exists m', ez. split; [exact H1|]. split; [exact H2|]. split; [lia|]. exact H4.
Qed.

Lemma truncate_bound m e :
  -1000 <= e ->
  exists T, RL.truncate (S754_finite false m e) = Some T
            /\ 0 <= T
            /\ (IZR T <= IZR (Zpos m) * RL.bpow e < IZR T + 1)%R.
Proof.
  intros He. unfold RL.truncate. destruct (0 <=? e) eqn:E.
  - apply Z.leb_le in E. exists (Z.pos m * 2 ^ e). split; [reflexivity|].
    split; [apply Z.mul_nonneg_nonneg; [lia|apply Z.pow_nonneg; lia]|].
    rewrite mult_IZR, <- bpow_IZR by lia. lra.
  - apply Z.leb_gt in E. exists (Z.pos m / 2 ^ (- e)). split; [reflexivity|].
    assert (H2 : 0 < 2 ^ (- e)) by (apply Z.pow_pos_nonneg; lia).
    split; [apply Z.div_pos; lia|].
    pose proof (Z.div_mod (Zpos m) (2 ^ (- e)) ltac:(lia)) as Hd.
    pose proof (Z.mod_pos_bound (Zpos m) (2 ^ (- e)) H2) as Hm.
    set (T := Z.pos m / 2 ^ (- e)) in *.
    assert (Hb : (RL.bpow e * IZR (2 ^ (- e)) = 1)%R).
    { rewrite <- bpow_IZR, <- bpow_add by lia. replace (e + - e) with 0 by lia. reflexivity. }
    assert (HP : (0 < IZR (2 ^ (- e)))%R) by (apply IZR_lt; lia).
    assert (Hl : (IZR T * IZR (2 ^ (- e)) <= IZR (Zpos m))%R).
    { rewrite <- mult_IZR. apply IZR_le. lia. }
    assert (Hu : (IZR (Zpos m) < (IZR T + 1) * IZR (2 ^ (- e)))%R).
    { rewrite <- plus_IZR, <- mult_IZR. apply IZR_lt. lia. }
    pose proof (bpow_pos e) as Hbe.
    split.
    + apply Rmult_le_reg_r with (IZR (2 ^ (- e))); [exact HP|].
      rewrite Rmult_assoc, Hb. lra.
    + apply Rmult_lt_reg_r with (IZR (2 ^ (- e))); [exact HP|].
      rewrite Rmult_assoc, Hb. lra.
Qed.

Lemma div_mul_truncate a b c :
  0 < a < 2 ^ 64 -> 0 < b < 2 ^ 64 -> 0 < c < 2 ^ 64 ->
  exists T,
    RL.truncate (RL.double_mul (RL.double_div (RL.to_double a) (RL.to_double b)) (RL.to_double c)) = Some T
    /\ 0 <= T
    /\ b * T * 2 ^ 49 <= a * c * (2 ^ 49 + 1)
    /\ a * c * (2 ^ 49 - 1) < b * (T + 1) * 2 ^ 49.
Proof.
  intros Ha Hb Hc.
  destruct (to_double_bound a Ha) as (ma & ea & -> & Da & Ea & HA).
  destruct (to_double_bound b Hb) as (mb & eb & -> & Db & Eb & HB).
  destruct (to_double_bound c Hc) as (mc & ec & -> & Dc & Ec & HC).
  destruct (double_div_bound ma ea mb eb Da Db ltac:(lia) ltac:(lia)) as (mq & eq & -> & Dq & Eq & HQ).
  destruct (double_mul_bound mq eq mc ec Dq Dc ltac:(lia) ltac:(lia)) as (mp & ep & -> & Dp & Ep & HP).
  destruct (truncate_bound mp ep ltac:(lia)) as (T & HT & T0 & HTb).
  exists T. split; [exact HT|]. split; [exact T0|].
  set (A := (IZR (Zpos ma) * RL.bpow ea)%R) in *.
  set (B := (IZR (Zpos mb) * RL.bpow eb)%R) in *.
  set (C := (IZR (Zpos mc) * RL.bpow ec)%R) in *.
  set (Q := (IZR (Zpos mq) * RL.bpow eq)%R) in *.
  set (P := (IZR (Zpos mp) * RL.bpow ep)%R) in *.
  assert (Ra : (1 <= IZR a)%R) by (apply IZR_le; lia).
  assert (Rb : (1 <= IZR b)%R) by (apply IZR_le; lia).
  assert (Rc : (1 <= IZR c)%R) by (apply IZR_le; lia).
  assert (RT : (0 <= IZR T)%R) by (apply IZR_le; lia).
  unfold RL.eps in *.
  set (u := (1 + / 4503599627370496)%R) in *.
  set (v := (1 - / 4503599627370496)%R) in *.
  assert (Hu : (1 < u)%R) by (unfold u; lra).
  assert (Hv : (0 < v < 1)%R) by (unfold v; lra).
  assert (A0 : (0 < A)%R) by nra.
  assert (B0 : (0 < B)%R) by nra.
  assert (C0 : (0 < C)%R) by nra.
  assert (HQB : (A * v <= Q * B <= A * u)%R).
  { replace (A * v)%R with (A / B * v * B)%R by (field; lra).
    replace (A * u)%R with (A / B * u * B)%R by (field; lra).
    split; apply Rmult_le_compat_r; lra. }
  assert (Q0 : (0 < Q)%R) by nra.
  assert (U1 : (Q * (IZR b * v) <= IZR a * (u * u))%R).
  { apply Rle_trans with (Q * B)%R; [apply Rmult_le_compat_l; lra|].
    apply Rle_trans with (A * u)%R; [lra|]. rewrite <- Rmult_assoc. apply Rmult_le_compat_r; lra. }
  assert (L1 : (IZR a * (v * v) <= Q * (IZR b * u))%R).
  { apply Rle_trans with (Q * B)%R; [|apply Rmult_le_compat_l; lra].
    apply Rle_trans with (A * v)%R; [|lra]. rewrite <- Rmult_assoc. apply Rmult_le_compat_r; lra. }
  assert (U2 : (P <= Q * (IZR c * (u * u)))%R).
  { apply Rle_trans with (Q * C * u)%R; [lra|].
    rewrite Rmult_assoc. apply Rmult_le_compat_l; [lra|].
    rewrite <- Rmult_assoc. apply Rmult_le_compat_r; lra. }
  assert (L2 : (Q * (IZR c * (v * v)) <= P)%R).
  { apply Rle_trans with (Q * C * v)%R; [|lra].
    rewrite Rmult_assoc. apply Rmult_le_compat_l; [lra|].
    rewrite <- Rmult_assoc. apply Rmult_le_compat_r; lra. }
  assert (U3 : (IZR T * (IZR b * v) <= IZR a * IZR c * (u * u * u * u))%R).
  { apply Rle_trans with (P * (IZR b * v))%R.
    { apply Rmult_le_compat_r; [nra|lra]. }
    apply Rle_trans with (Q * (IZR c * (u * u)) * (IZR b * v))%R.
    { apply Rmult_le_compat_r; [nra|lra]. }
    replace (Q * (IZR c * (u * u)) * (IZR b * v))%R
      with (Q * (IZR b * v) * (IZR c * (u * u)))%R by ring.
    replace (IZR a * IZR c * (u * u * u * u))%R
      with (IZR a * (u * u) * (IZR c * (u * u)))%R by ring.
    apply Rmult_le_compat_r; [nra|lra]. }
  assert (L3 : (IZR a * IZR c * (v * v * v * v) < (IZR T + 1) * (IZR b * u))%R).
  { apply Rle_lt_trans with (P * (IZR b * u))%R.
    2:{ apply Rmult_lt_compat_r; [nra|lra]. }
    apply Rle_trans with (Q * (IZR c * (v * v)) * (IZR b * u))%R.
    2:{ apply Rmult_le_compat_r; [nra|lra]. }
    replace (Q * (IZR c * (v * v)) * (IZR b * u))%R
      with (Q * (IZR b * u) * (IZR c * (v * v)))%R by ring.
    replace (IZR a * IZR c * (v * v * v * v))%R
      with (IZR a * (v * v) * (IZR c * (v * v)))%R by ring.
    apply Rmult_le_compat_r; [nra|lra]. }
  assert (Nu : (u * u * u * u * 562949953421312 <= v * 562949953421313)%R).
  { unfold u, v. lra. }
  assert (Nv : (u * 562949953421311 <= v * v * v * v * 562949953421312)%R).
  { unfold u, v. lra. }
  change (2 ^ 49) with 562949953421312.
  split.
  - apply le_IZR. rewrite !mult_IZR, plus_IZR.
    assert (Hac : (0 <= IZR a * IZR c)%R) by nra.
    assert (K : (IZR T * IZR b * v * 562949953421312
                 <= IZR a * IZR c * v * 562949953421313)%R).
    { apply Rle_trans with (IZR a * IZR c * (u * u * u * u) * 562949953421312)%R.
      - apply Rmult_le_compat_r; lra.
      - rewrite !Rmult_assoc. apply Rmult_le_compat_l; [lra|].
        apply Rmult_le_compat_l; lra. }
    apply Rmult_le_reg_r with v; [lra|]. lra.
  - apply lt_IZR. rewrite !mult_IZR, !plus_IZR, minus_IZR.
    assert (Hac : (0 <= IZR a * IZR c)%R) by nra.
    assert (K : (IZR a * IZR c * u * 562949953421311
                 < (IZR T + 1) * IZR b * u * 562949953421312)%R).
    { apply Rle_lt_trans with (IZR a * IZR c * (v * v * v * v) * 562949953421312)%R.
      - rewrite !Rmult_assoc. apply Rmult_le_compat_l; [lra|].
        apply Rmult_le_compat_l; lra.
      - apply Rmult_lt_compat_r; lra. }
    apply Rmult_lt_reg_r with u; [lra|]. lra.
Qed.

(** A quotient known up to the relative error [2^-49] is known up to one
    unit when the numerator is below [2^49], and exactly when the division
    leaves a remainder. *)
Lemma quotient_from_relative_bounds N b T :
  0 < b -> 0 <= N < 2 ^ 49 ->
  b * T * 2 ^ 49 <= N * (2 ^ 49 + 1) ->
  N * (2 ^ 49 - 1) < b * (T + 1) * 2 ^ 49 ->
  N / b - 1 <= T <= N / b /\ (N mod b <> 0 -> T = N / b).
Proof.
  change (2 ^ 49) with 562949953421312. intros Hb HN Hu Hl.
  assert (H1 : b * T <= N) by nia.
  assert (H2 : N <= b * (T + 1)) by nia.
  assert (Hq1 : T <= N / b) by (apply Z.div_le_lower_bound; lia).
  assert (Hq2 : N / b <= T + 1) by (apply Z.div_le_upper_bound; lia).
  split; [lia|].
  intros Hr.
  assert (H3 : N <> b * (T + 1)).
  { intros E. apply Hr. rewrite E, Z.mul_comm. apply Z.mod_mul. lia. }
  assert (Hq3 : N / b < T + 1) by (apply Z.div_lt_upper_bound; lia).
  lia.
Qed.

(** *** The conversions *)

Lemma double_to_size_t_range u x : 0 <= RL.double_to_size_t u x <= SIZE_MAX.
Proof.
  unfold RL.double_to_size_t.
  pose proof (wrap64_range (u x)) as Hw. unfold SIZE_MAX in *.
  destruct (RL.truncate x) as [v|]; [|lia].
  destruct ((0 <=? v) && (v <=? 2 ^ 64 - 1)) eqn:E; [|lia].
  apply andb_true_iff in E. destruct E as [E1 E2].
  apply Z.leb_le in E1, E2. lia.
Qed.

Lemma double_to_size_t_in_range u x v :
  RL.truncate x = Some v -> 0 <= v <= SIZE_MAX -> RL.double_to_size_t u x = v.
Proof.
  intros Hx Hv. unfold RL.double_to_size_t. rewrite Hx.
  replace ((0 <=? v) && (v <=? SIZE_MAX)) with true; [reflexivity|].
  symmetry. apply andb_true_iff. split; apply Z.leb_le; lia.
Qed.

Lemma double_to_long_long_in_range w x v :
  RL.truncate x = Some v -> RL.LLONG_MIN <= v <= RL.LLONG_MAX ->
  RL.double_to_long_long w x = v.
Proof.
  intros Hx Hv. unfold RL.double_to_long_long. rewrite Hx.
  replace ((RL.LLONG_MIN <=? v) && (v <=? RL.LLONG_MAX)) with true; [reflexivity|].
  symmetry. apply andb_true_iff. split; apply Z.leb_le; lia.
Qed.

(** *** The tokens of a refill *)

Lemma tokensToAdd_range u elapsed rate : 0 <= RL.tokensToAdd u elapsed rate <= SIZE_MAX.
Proof. unfold RL.tokensToAdd. apply double_to_size_t_range. Qed.

Lemma tokensToAdd_nonneg u elapsed rate : 0 <= RL.tokensToAdd u elapsed rate.
Proof. apply tokensToAdd_range. Qed.

(** The double arithmetic of [refillBucket] on a few inputs.  Ten
    milliseconds at 100 bytes per second add one token; 290 milliseconds
    add 28, not 29, because [0.29 * 100] is just below 29 in binary64. *)
Example tokensToAdd_values u :
  RL.tokensToAdd u 10 100 = 1 /\ RL.tokensToAdd u 1000 100 = 100
  /\ RL.tokensToAdd u 290 100 = 28 /\ RL.tokensToAdd u 333 3 = 0.
Proof. repeat split; vm_compute; reflexivity. Qed.

(** The tokens of [elapsed] milliseconds at [rate] bytes per second are
    [elapsed * rate / 1000] up to the relative error [2^-49], rounded
    down, as long as that stays below [2^64]. *)
Lemma tokensToAdd_bounds u elapsed rate :
  0 < elapsed < 2 ^ 64 -> 0 < rate < 2 ^ 64 ->
  elapsed * rate * (2 ^ 49 + 1) < 1000 * 2 ^ 64 * 2 ^ 49 ->
  1000 * RL.tokensToAdd u elapsed rate * 2 ^ 49 <= elapsed * rate * (2 ^ 49 + 1)
  /\ elapsed * rate * (2 ^ 49 - 1) < 1000 * (RL.tokensToAdd u elapsed rate + 1) * 2 ^ 49.
Proof.
  intros He Hr Hfit.
  destruct (div_mul_truncate elapsed 1000 rate He ltac:(lia) Hr) as (T & HT & T0 & Hu & Hl).
  unfold RL.tokensToAdd.
  rewrite (double_to_size_t_in_range u _ T HT); [split; assumption|].
  unfold SIZE_MAX. change (2 ^ 49) with 562949953421312 in *.
  change (2 ^ 64) with 18446744073709551616 in *. lia.
Qed.

Lemma tokensToAdd_floor u elapsed rate :
  0 < elapsed -> 0 < rate -> elapsed * rate < 2 ^ 49 ->
  elapsed * rate / 1000 - 1 <= RL.tokensToAdd u elapsed rate <= elapsed * rate / 1000
  /\ ((elapsed * rate) mod 1000 <> 0 -> RL.tokensToAdd u elapsed rate = elapsed * rate / 1000).
Proof.
  intros He Hr Hs.
  assert (He' : elapsed < 2 ^ 64) by (change (2 ^ 49) with 562949953421312 in Hs; change (2 ^ 64) with 18446744073709551616; nia).
  assert (Hr' : rate < 2 ^ 64) by (change (2 ^ 49) with 562949953421312 in Hs; change (2 ^ 64) with 18446744073709551616; nia).
  destruct (tokensToAdd_bounds u elapsed rate) as [Hu Hl]; [lia | lia | |].
  { change (2 ^ 49) with 562949953421312 in *. change (2 ^ 64) with 18446744073709551616. lia. }
  apply quotient_from_relative_bounds; [lia | nia | exact Hu | exact Hl].
Qed.

Lemma tokensToAdd_zero_rate u elapsed :
  0 < elapsed < 2 ^ 64 -> RL.tokensToAdd u elapsed 0 = 0.
Proof.
  intros He.
  destruct (to_double_bound elapsed He) as (ma & ea & Ha & Da & Ea & _).
  destruct (to_double_bound 1000 ltac:(lia)) as (mb & eb & Hb & Db & Eb & _).
  destruct (double_div_bound ma ea mb eb Da Db ltac:(lia) ltac:(lia)) as (mq & eq & Hq & _).
  unfold RL.tokensToAdd. rewrite Ha, Hb, Hq. reflexivity.
Qed.

(** *** The invariant and the calls that keep it *)

Lemma refillBucket_in_bucket u now l :
  RL.in_bucket l -> RL.in_bucket (RL.refillBucket u now l).
Proof.
  unfold RL.in_bucket, RL.refillBucket. intros H.
  destruct (0 <? RL.elapsed_ms now l); [|exact H].
  cbn.
  pose proof (wrap64_range (RL.availableBytes_ l
                            + RL.tokensToAdd u (RL.elapsed_ms now l) (RL.bytesPerSecond_ l))).
  lia.
Qed.

Lemma allowBytes_in_bucket u now bytes l :
  0 <= bytes -> RL.in_bucket l -> RL.in_bucket (snd (RL.allowBytes u now bytes l)).
Proof.
  intros Hb H. apply (refillBucket_in_bucket u now) in H.
  unfold RL.allowBytes.
  destruct (bytes <=? RL.availableBytes_ (RL.refillBucket u now l)) eqn:E; [|exact H].
  apply Z.leb_le in E. unfold RL.in_bucket in *. cbn.
  pose proof (wrap64_range (RL.availableBytes_ (RL.refillBucket u now l) - bytes)).
  pose proof (wrap64_le (RL.availableBytes_ (RL.refillBucket u now l) - bytes)).
  lia.
Qed.

Lemma waitForBytes_in_bucket u clock bytes :
  forall l, 0 <= bytes -> RL.in_bucket l ->
            RL.in_bucket (snd (RL.waitForBytes u clock bytes l)).
Proof.
  induction clock as [|now later IH]; intros l Hb H; [exact H|].
  cbn [RL.waitForBytes].
  pose proof (allowBytes_in_bucket u now bytes l Hb H) as Ha.
  destruct (RL.allowBytes u now bytes l) as [ok l'].
  destruct ok; [exact Ha | apply IH; assumption].
Qed.

Lemma apply_in_bucket u o l :
  RL.keeps_bucket o -> RL.in_bucket l -> RL.in_bucket (RL.apply u o l).
Proof.
  destruct o; cbn [RL.keeps_bucket RL.apply]; intros Ho H.
  - apply allowBytes_in_bucket; assumption.
  - exact H.
  - apply waitForBytes_in_bucket; assumption.
  - exact H.
  - contradiction.
  - unfold RL.in_bucket, RL.reset in *. cbn. lia.
  - exact H.
Qed.

(** Every sequence of calls without [setBucketSize] keeps the token count
    within the bucket. *)
Lemma run_in_bucket u ops :
  forall l, Forall RL.keeps_bucket ops -> RL.in_bucket l -> RL.in_bucket (RL.run u ops l).
Proof.
  induction ops as [|o ops IH]; intros l Hops H; [exact H|].
  inversion Hops; subst. cbn. apply IH; [assumption|].
  apply apply_in_bucket; assumption.
Qed.

Lemma make_in_bucket now rate bucket :
  0 <= rate -> 0 <= bucket -> RL.in_bucket (RL.make now rate bucket).
Proof.
  intros Hr Hb. unfold RL.in_bucket, RL.make.
  destruct (0 <? bucket) eqn:E; cbn; lia.
Qed.

(** [setBucketSize] keeps the invariant exactly when the new size is not
    below the tokens held. *)
Lemma setBucketSize_in_bucket b l :
  RL.in_bucket l ->
  (RL.in_bucket (RL.setBucketSize b l) <-> RL.availableBytes_ l <= b).
Proof. unfold RL.in_bucket, RL.setBucketSize. cbn. lia. Qed.

(** C6 fails on the code.  A limiter built with [bytesPerSecond = 100] and
    [bucketSize = 100] holds 100 tokens; after [setBucketSize(10)] the
    bucket size is 10 and [getAvailableBytes()] still returns 100:
    [setBucketSize] stores the new size without clamping the tokens held,
    unlike [refillBucket], [reset] and the constructor. *)
Theorem C6_setBucketSize_leaves_tokens_above_bucket :
  forall u,
  let l := RL.run u [RL.SetBucketSize 10] (RL.make 0 100 100) in
  RL.getAvailableBytes l = 100 /\ RL.bucketSize_ l = 10 /\ ~ RL.in_bucket l.
Proof.
  intros u. cbn. repeat split. unfold RL.in_bucket. cbn. lia.
Qed.

(** The excess stays observable until a refill that sees at least one
    elapsed millisecond: a call less than a millisecond later leaves it. *)
Lemma tokens_above_bucket_survive_allowBytes u :
  let l := RL.run u [RL.SetBucketSize 10; RL.AllowBytes 999999 0] (RL.make 0 100 100) in
  RL.getAvailableBytes l = 100 /\ RL.bucketSize_ l = 10.
Proof. vm_compute. split; reflexivity. Qed.

(** *** [allowBytes] *)

(** What a refill leaves, when the sum of the tokens held and the tokens
    added fits a [size_t]. *)
Lemma refillBucket_no_overflow u now l :
  0 <= RL.availableBytes_ l ->
  RL.availableBytes_ l + RL.credit u now l <= SIZE_MAX ->
  RL.refillBucket u now l
  = if 0 <? RL.elapsed_ms now l
    then RL.mk (RL.bytesPerSecond_ l) (RL.bucketSize_ l)
               (Z.min (RL.bucketSize_ l) (RL.availableBytes_ l + RL.credit u now l)) now
    else l.
Proof.
  unfold RL.refillBucket, RL.credit. intros Hav Hfit.
  destruct (0 <? RL.elapsed_ms now l); [|reflexivity].
  pose proof (tokensToAdd_nonneg u (RL.elapsed_ms now l) (RL.bytesPerSecond_ l)).
  rewrite wrap64_small by lia. reflexivity.
Qed.

(** C7 as stated fails: the refill is not
    [min(bucketSize, tokens + elapsed_seconds * bytesPerSecond)].  On an
    empty limiter of 100 bytes per second, 290 milliseconds are worth 29
    tokens and the refill adds 28, the product being computed and
    truncated in [double].  On an empty limiter of one million bytes per
    second, 999999 nanoseconds are worth 999 tokens and the refill adds
    none, the elapsed time being counted in whole milliseconds.  On a
    limiter of [2^64 - 2048] bytes per second that holds its 5000 tokens,
    one second later the refill leaves 2952: the sum of the tokens held
    and the tokens added is taken in [size_t] and wraps. *)
Lemma C7_counterexample_refill_formula :
  let u := fun _ : spec_float => 0 in
  let l1 := RL.mk 100 100 0 0 in
  let l2 := RL.mk 1000000 1000 0 0 in
  let l3 := RL.mk 18446744073709549568 5000 5000 0 in
  (RL.refilled u 290000000 l1 = 28
   /\ RL.refill_as_claimed 290000000 l1 = 10 ^ 9 * 29
   /\ 10 ^ 9 * RL.refilled u 290000000 l1 <> RL.refill_as_claimed 290000000 l1)
  /\ (RL.refilled u 999999 l2 = 0
      /\ RL.refill_as_claimed 999999 l2 = 999999 * 1000000
      /\ 10 ^ 9 * RL.refilled u 999999 l2 <> RL.refill_as_claimed 999999 l2)
  /\ (RL.refilled u 1000000000 l3 = 2952
      /\ RL.refill_as_claimed 1000000000 l3 = 10 ^ 9 * 5000
      /\ 10 ^ 9 * RL.refilled u 1000000000 l3 <> RL.refill_as_claimed 1000000000 l3).
Proof. vm_compute. repeat split; discriminate. Qed.

(** C7, amended.  [allowBytes(n)] at clock reading [now] first refills
    the bucket, but only when at least one whole millisecond has elapsed
    since the last refill; with less, the token count and [lastRefill_]
    stay as they are.  The refill adds the tokens of the elapsed whole
    milliseconds and, the sum fitting a [size_t], brings the count to
    [min(bucketSize, tokens + added)].  Then, if the count is at least
    [n], the call debits exactly [n] and returns true; otherwise it
    returns false and leaves the refilled count.

    The tokens added for [elapsed] milliseconds at [rate] bytes per second
    are [elapsed * rate / 1000] computed in [double] and rounded down.
    With [q] that quotient as a real number, the count [added] satisfies
    [added <= q * (1 + 2^-49)] and [q * (1 - 2^-49) < added + 1] whenever
    [q * (1 + 2^-49) < 2^64]; for [elapsed * rate < 2^49] it is the
    integer quotient when the division by 1000 leaves a remainder, and the
    quotient or one less when it leaves none (290 milliseconds at 100
    bytes per second add 28 tokens); it is zero when the rate is zero.

    A limiter built with [bytesPerSecond = 100] and [bucketSize = 100]
    grants [allowBytes(100)] and then refuses [allowBytes(1)] when both
    calls come less than a millisecond after the construction. *)
Theorem C7_allowBytes_amended :
  (forall u now n l,
      0 <= n ->
      0 <= RL.availableBytes_ l ->
      let elapsed := RL.elapsed_ms now l in
      let added := if 0 <? elapsed then RL.tokensToAdd u elapsed (RL.bytesPerSecond_ l) else 0 in
      RL.availableBytes_ l + added <= SIZE_MAX ->
      let tokens := if 0 <? elapsed
                    then Z.min (RL.bucketSize_ l) (RL.availableBytes_ l + added)
                    else RL.availableBytes_ l in
      let last := if 0 <? elapsed then now else RL.lastRefill_ l in
      RL.refilled u now l = tokens
      /\ RL.allowBytes u now n l
         = if n <=? tokens
           then (true, RL.mk (RL.bytesPerSecond_ l) (RL.bucketSize_ l) (tokens - n) last)
           else (false, RL.mk (RL.bytesPerSecond_ l) (RL.bucketSize_ l) tokens last))
  /\ (forall u elapsed rate,
         0 < elapsed < 2 ^ 64 -> 0 < rate < 2 ^ 64 ->
         elapsed * rate * (2 ^ 49 + 1) < 1000 * 2 ^ 64 * 2 ^ 49 ->
         let added := RL.tokensToAdd u elapsed rate in
         1000 * added * 2 ^ 49 <= elapsed * rate * (2 ^ 49 + 1)
         /\ elapsed * rate * (2 ^ 49 - 1) < 1000 * (added + 1) * 2 ^ 49)
  /\ (forall u elapsed rate,
         0 < elapsed -> 0 < rate -> elapsed * rate < 2 ^ 49 ->
         let added := RL.tokensToAdd u elapsed rate in
         elapsed * rate / 1000 - 1 <= added <= elapsed * rate / 1000
         /\ ((elapsed * rate) mod 1000 <> 0 -> added = elapsed * rate / 1000))
  /\ (forall u, RL.tokensToAdd u 290 100 = 28)
  /\ (forall u elapsed, 0 < elapsed < 2 ^ 64 -> RL.tokensToAdd u elapsed 0 = 0)
  /\ (forall u t0 now1 now2,
         t0 <= now1 < t0 + 1000000 ->
         t0 <= now2 < t0 + 1000000 ->
         let l0 := RL.make t0 100 100 in
         fst (RL.allowBytes u now1 100 l0) = true
         /\ fst (RL.allowBytes u now2 1 (snd (RL.allowBytes u now1 100 l0))) = false).
Proof.
  split; [|split; [|split; [|split; [|split]]]].
  - intros u now n l Hn Hav elapsed added Hfit tokens last.
    assert (Hadd : 0 <= added).
    { subst added. destruct (0 <? elapsed); [apply tokensToAdd_nonneg | lia]. }
    assert (Hrefill : RL.refillBucket u now l
                      = RL.mk (RL.bytesPerSecond_ l) (RL.bucketSize_ l) tokens last).
    { rewrite refillBucket_no_overflow by (unfold RL.credit; assumption).
      unfold RL.credit. fold elapsed. subst tokens last added.
      destruct (0 <? elapsed); [reflexivity | destruct l; reflexivity]. }
    split.
    + unfold RL.refilled. rewrite Hrefill. reflexivity.
    + unfold RL.allowBytes. rewrite Hrefill. cbn.
      destruct (n <=? tokens) eqn:E; [|reflexivity].
      apply Z.leb_le in E. rewrite wrap64_small; [reflexivity|].
      subst tokens. destruct (0 <? elapsed); lia.
  - intros u elapsed rate He Hr Hfit. apply tokensToAdd_bounds; assumption.
  - intros u elapsed rate He Hr Hs. apply tokensToAdd_floor; assumption.
  - intros u. vm_compute. reflexivity.
  - intros u elapsed He. apply tokensToAdd_zero_rate. exact He.
  - intros u t0 now1 now2 H1 H2 l0.
    assert (E1 : RL.elapsed_ms now1 l0 = 0).
    { unfold RL.elapsed_ms. cbn. apply Z.quot_small. lia. }
    assert (R1 : RL.allowBytes u now1 100 l0 = (true, RL.mk 100 100 0 t0)).
    { unfold RL.allowBytes, RL.refillBucket. rewrite E1. reflexivity. }
    rewrite R1. split; [reflexivity|]. cbn [snd].
    assert (E2 : RL.elapsed_ms now2 (RL.mk 100 100 0 t0) = 0).
    { unfold RL.elapsed_ms. cbn. apply Z.quot_small. lia. }
    unfold RL.allowBytes, RL.refillBucket. rewrite E2. reflexivity.
Qed.

Lemma C7_allowBytes_amended_witness :
  let u := fun _ : spec_float => 0 in
  let l := RL.mk 100 100 40 0 in
  (0 <= 50
   /\ 0 <= RL.availableBytes_ l
   /\ RL.availableBytes_ l + RL.tokensToAdd u 200 100 <= SIZE_MAX
   /\ RL.refilled u 200000000 l = 60
   /\ RL.allowBytes u 200000000 50 l = (true, RL.mk 100 100 10 200000000))
  /\ (0 < 1500 < 2 ^ 64
      /\ 0 < 1000000 < 2 ^ 64
      /\ 1500 * 1000000 * (2 ^ 49 + 1) < 1000 * 2 ^ 64 * 2 ^ 49
      /\ 1000 * RL.tokensToAdd u 1500 1000000 * 2 ^ 49 <= 1500 * 1000000 * (2 ^ 49 + 1))
  /\ (0 < 333 /\ 0 < 3 /\ 333 * 3 < 2 ^ 49
      /\ (333 * 3) mod 1000 <> 0
      /\ RL.tokensToAdd u 333 3 = 333 * 3 / 1000)
  /\ (0 < 7 < 2 ^ 64 /\ RL.tokensToAdd u 7 0 = 0)
  /\ (0 <= 5 < 0 + 1000000
      /\ 0 <= 7 < 0 + 1000000
      /\ fst (RL.allowBytes u 5 100 (RL.make 0 100 100)) = true
      /\ fst (RL.allowBytes u 7 1 (snd (RL.allowBytes u 5 100 (RL.make 0 100 100)))) = false).
Proof.
  set (u := fun _ : spec_float => 0). set (l := RL.mk 100 100 40 0). cbn zeta.
  assert (H1 : 0 <= 50) by lia.
  assert (H2 : 0 <= RL.availableBytes_ l) by (cbn; lia).
  assert (H3 : RL.availableBytes_ l + RL.tokensToAdd u 200 100 <= SIZE_MAX)
    by (vm_compute; discriminate).
  assert (H4 : 0 < 1500 < 2 ^ 64) by lia.
  assert (H5 : 0 < 1000000 < 2 ^ 64) by lia.
  assert (H6 : 1500 * 1000000 * (2 ^ 49 + 1) < 1000 * 2 ^ 64 * 2 ^ 49) by lia.
  assert (H7 : 0 < 333) by lia.
  assert (H8 : 0 < 3) by lia.
  assert (H9 : 333 * 3 < 2 ^ 49) by lia.
  assert (H10 : (333 * 3) mod 1000 <> 0) by (vm_compute; discriminate).
  assert (H11 : 0 < 7 < 2 ^ 64) by lia.
  assert (H12 : 0 <= 5 < 0 + 1000000) by lia.
  assert (H13 : 0 <= 7 < 0 + 1000000) by lia.
  pose proof C7_allowBytes_amended as (T1 & T2 & T3 & _ & T5 & T6).
  split; [|split; [|split; [|split]]].
  - split; [exact H1 | split; [exact H2 | split; [exact H3 |]]].
    exact (T1 u 200000000 50 l H1 H2 H3).
  - split; [exact H4 | split; [exact H5 | split; [exact H6 |]]].
    exact (proj1 (T2 u 1500 1000000 H4 H5 H6)).
  - split; [exact H7 | split; [exact H8 | split; [exact H9 | split; [exact H10 |]]]].
    exact (proj2 (T3 u 333 3 H7 H8 H9) H10).
  - split; [exact H11|]. exact (T5 u 7 H11).
  - split; [exact H12 | split; [exact H13 |]].
    exact (T6 u 0 5 7 H12 H13).
Defined.

(** *** [getDelay] *)

Example getDelay_values w :
  RL.getDelay w 50 (RL.mk 100 100 0 0) = 500
  /\ RL.getDelay w 50 (RL.mk 100 100 50 0) = 0
  /\ RL.getDelay w 1 (RL.mk 3 3 0 0) = 333.
Proof. repeat split; vm_compute; reflexivity. Qed.

(** The wait for a deficit at [rate] bytes per second is
    [1000 * deficit / rate] milliseconds up to the relative error
    [2^-49], rounded down, as long as that stays below [2^63]. *)
Lemma getDelay_bounds w n l :
  RL.availableBytes_ l < n -> 0 <= RL.availableBytes_ l -> n <= SIZE_MAX ->
  0 < RL.bytesPerSecond_ l < 2 ^ 64 ->
  (n - RL.availableBytes_ l) * 1000 * (2 ^ 49 + 1) < RL.bytesPerSecond_ l * 2 ^ 63 * 2 ^ 49 ->
  0 <= RL.getDelay w n l
  /\ RL.bytesPerSecond_ l * RL.getDelay w n l * 2 ^ 49
     <= (n - RL.availableBytes_ l) * 1000 * (2 ^ 49 + 1)
  /\ (n - RL.availableBytes_ l) * 1000 * (2 ^ 49 - 1)
     < RL.bytesPerSecond_ l * (RL.getDelay w n l + 1) * 2 ^ 49.
Proof.
  intros Hlt Hav Hn Hr Hfit. unfold RL.getDelay.
  replace (n <=? RL.availableBytes_ l) with false by (symmetry; apply Z.leb_gt; lia).
  rewrite wrap64_small by lia.
  destruct (div_mul_truncate (n - RL.availableBytes_ l) (RL.bytesPerSecond_ l) 1000)
    as (T & HT & T0 & Hu & Hl); [unfold SIZE_MAX in Hn; lia | exact Hr | lia |].
  cbn zeta. rewrite (double_to_long_long_in_range w _ T HT).
  - split; [exact T0|]. split; assumption.
  - unfold RL.LLONG_MIN, RL.LLONG_MAX. change (2 ^ 49) with 562949953421312 in *.
    change (2 ^ 63) with 9223372036854775808 in *. nia.
Qed.

Lemma getDelay_floor w n l :
  RL.availableBytes_ l < n -> 0 <= RL.availableBytes_ l -> n <= SIZE_MAX ->
  0 < RL.bytesPerSecond_ l < 2 ^ 64 ->
  (n - RL.availableBytes_ l) * 1000 < 2 ^ 49 ->
  (n - RL.availableBytes_ l) * 1000 / RL.bytesPerSecond_ l - 1 <= RL.getDelay w n l
    <= (n - RL.availableBytes_ l) * 1000 / RL.bytesPerSecond_ l
  /\ (((n - RL.availableBytes_ l) * 1000) mod RL.bytesPerSecond_ l <> 0 ->
      RL.getDelay w n l = (n - RL.availableBytes_ l) * 1000 / RL.bytesPerSecond_ l).
Proof.
  intros Hlt Hav Hn Hr Hs.
  destruct (getDelay_bounds w n l) as (_ & Hu & Hl); [exact Hlt | exact Hav | exact Hn | exact Hr | |].
  { change (2 ^ 49) with 562949953421312 in *. change (2 ^ 63) with 9223372036854775808. nia. }
  apply quotient_from_relative_bounds; [lia | nia | exact Hu | exact Hl].
Qed.

(** C8 as stated fails: [getDelay] does not account for the time elapsed
    since the last refill.  The limiter of C7 is emptied at clock reading
    0; one second later a refill would bring it back to 100 tokens, so 50
    tokens are available under the lazy-refill model, yet [getDelay(50)]
    still answers 500 milliseconds, at that and at every other time. *)
Lemma C8_counterexample_elapsed_time_ignored :
  let u := fun _ : spec_float => 0 in
  let l := snd (RL.allowBytes u 0 100 (RL.make 0 100 100)) in
  50 <= RL.refilled u 1000000000 l
  /\ RL.getDelay u 50 l = 500
  /\ RL.getDelay u 50 l <> 0.
Proof. vm_compute. repeat split; discriminate. Qed.

(** The answer is truncated to whole milliseconds, and so is the elapsed
    time in [refillBucket]: after waiting the 333 milliseconds announced
    for one token at 3 bytes per second, the token is still not there. *)
Lemma getDelay_wait_can_be_too_short u w :
  let l := RL.mk 3 3 0 0 in
  RL.getDelay w 1 l = 333
  /\ fst (RL.allowBytes u (333 * 1000000) 1 l) = false.
Proof. vm_compute. split; reflexivity. Qed.

(** C8, amended.  [getDelay(n)] leaves the limiter as it is and reads
    neither the clock nor [lastRefill_]: its answer is a function of the
    stored token count, [n] and [bytesPerSecond_] only, the same for any
    two limiters with the same rate and the same deficit [n - stored].  It
    is zero when the stored count is at least [n].  Otherwise, for a rate
    that is not zero, it is the deficit divided by the rate, in
    milliseconds, computed in [double] and rounded down.  With [q] the
    quotient [1000 * deficit / rate] as a real number, the answer [wait]
    satisfies [0 <= wait <= q * (1 + 2^-49)] and
    [q * (1 - 2^-49) < wait + 1] whenever [q * (1 + 2^-49) < 2^63]; for
    [1000 * deficit < 2^49] it is the integer quotient when the division
    by the rate leaves a remainder, and the quotient or one less when it
    leaves none. *)
Theorem C8_getDelay_amended :
  forall u w n l,
    RL.apply u (RL.GetDelay n) l = l
    /\ (forall last bucket,
           RL.getDelay w n (RL.mk (RL.bytesPerSecond_ l) bucket (RL.availableBytes_ l) last)
           = RL.getDelay w n l)
    /\ (forall n' l',
           RL.availableBytes_ l < n ->
           RL.availableBytes_ l' < n' ->
           RL.bytesPerSecond_ l' = RL.bytesPerSecond_ l ->
           n' - RL.availableBytes_ l' = n - RL.availableBytes_ l ->
           RL.getDelay w n' l' = RL.getDelay w n l)
    /\ (n <= RL.availableBytes_ l -> RL.getDelay w n l = 0)
    /\ (RL.availableBytes_ l < n ->
        0 <= RL.availableBytes_ l -> n <= SIZE_MAX ->
        0 < RL.bytesPerSecond_ l < 2 ^ 64 ->
        let deficit := n - RL.availableBytes_ l in
        let rate := RL.bytesPerSecond_ l in
        let wait := RL.getDelay w n l in
        (deficit * 1000 * (2 ^ 49 + 1) < rate * 2 ^ 63 * 2 ^ 49 ->
         0 <= wait
         /\ rate * wait * 2 ^ 49 <= deficit * 1000 * (2 ^ 49 + 1)
         /\ deficit * 1000 * (2 ^ 49 - 1) < rate * (wait + 1) * 2 ^ 49)
        /\ (deficit * 1000 < 2 ^ 49 ->
            deficit * 1000 / rate - 1 <= wait <= deficit * 1000 / rate
            /\ ((deficit * 1000) mod rate <> 0 -> wait = deficit * 1000 / rate))).
Proof.
  intros u w n l. split; [reflexivity|]. split; [reflexivity|]. split; [|split].
  - intros n' l' H H' Hr Hd. unfold RL.getDelay.
    replace (n <=? RL.availableBytes_ l) with false by (symmetry; apply Z.leb_gt; lia).
    replace (n' <=? RL.availableBytes_ l') with false by (symmetry; apply Z.leb_gt; lia).
    rewrite Hr, Hd. reflexivity.
  - intros H. unfold RL.getDelay.
    replace (n <=? RL.availableBytes_ l) with true by (symmetry; apply Z.leb_le; lia).
    reflexivity.
  - intros Hlt Hav Hn Hr deficit rate wait. split.
    + intros Hfit. apply getDelay_bounds; assumption.
    + intros Hs. apply getDelay_floor; assumption.
Qed.

Lemma C8_getDelay_amended_witness :
  let u := fun _ : spec_float => 0 in
  let l := RL.mk 100 100 20 0 in
  let l' := RL.mk 100 500 130 77 in
  let l3 := RL.mk 3 3 0 0 in
  RL.apply u (RL.GetDelay 70) l = l
  /\ (RL.availableBytes_ l < 70
      /\ RL.availableBytes_ l' < 180
      /\ RL.bytesPerSecond_ l' = RL.bytesPerSecond_ l
      /\ 180 - RL.availableBytes_ l' = 70 - RL.availableBytes_ l
      /\ RL.getDelay u 180 l' = RL.getDelay u 70 l)
  /\ (20 <= RL.availableBytes_ l /\ RL.getDelay u 20 l = 0)
  /\ (RL.availableBytes_ l3 < 1
      /\ 0 <= RL.availableBytes_ l3
      /\ 1 <= SIZE_MAX
      /\ 0 < RL.bytesPerSecond_ l3 < 2 ^ 64
      /\ (1 - RL.availableBytes_ l3) * 1000 * (2 ^ 49 + 1) < RL.bytesPerSecond_ l3 * 2 ^ 63 * 2 ^ 49
      /\ (1 - RL.availableBytes_ l3) * 1000 < 2 ^ 49
      /\ ((1 - RL.availableBytes_ l3) * 1000) mod RL.bytesPerSecond_ l3 <> 0
      /\ 0 <= RL.getDelay u 1 l3
      /\ RL.getDelay u 1 l3 = (1 - RL.availableBytes_ l3) * 1000 / RL.bytesPerSecond_ l3).
Proof.
  set (u := fun _ : spec_float => 0).
  set (l := RL.mk 100 100 20 0). set (l' := RL.mk 100 500 130 77).
  set (l3 := RL.mk 3 3 0 0). cbn zeta.
  assert (H0 : 20 <= RL.availableBytes_ l) by (cbn; lia).
  assert (H1 : RL.availableBytes_ l < 70) by (cbn; lia).
  assert (H2 : RL.availableBytes_ l' < 180) by (cbn; lia).
  assert (H3 : RL.bytesPerSecond_ l' = RL.bytesPerSecond_ l) by reflexivity.
  assert (H4 : 180 - RL.availableBytes_ l' = 70 - RL.availableBytes_ l) by reflexivity.
  assert (H5 : RL.availableBytes_ l3 < 1) by (cbn; lia).
  assert (H6 : 0 <= RL.availableBytes_ l3) by (cbn; lia).
  assert (H7 : 1 <= SIZE_MAX) by (unfold SIZE_MAX; lia).
  assert (H8 : 0 < RL.bytesPerSecond_ l3 < 2 ^ 64) by (cbn; lia).
  assert (H9 : (1 - RL.availableBytes_ l3) * 1000 * (2 ^ 49 + 1)
               < RL.bytesPerSecond_ l3 * 2 ^ 63 * 2 ^ 49) by (cbn; lia).
  assert (H10 : (1 - RL.availableBytes_ l3) * 1000 < 2 ^ 49) by (cbn; lia).
  assert (H11 : ((1 - RL.availableBytes_ l3) * 1000) mod RL.bytesPerSecond_ l3 <> 0)
    by (vm_compute; discriminate).
  split; [exact (proj1 (C8_getDelay_amended u u 70 l))|].
  split.
  - split; [exact H1 | split; [exact H2 | split; [exact H3 | split; [exact H4 |]]]].
    exact (proj1 (proj2 (proj2 (C8_getDelay_amended u u 70 l))) 180 l' H1 H2 H3 H4).
  - split.
    + split; [exact H0|].
      exact (proj1 (proj2 (proj2 (proj2 (C8_getDelay_amended u u 20 l)))) H0).
    + split; [exact H5 | split; [exact H6 | split; [exact H7 | split; [exact H8 |
        split; [exact H9 | split; [exact H10 | split; [exact H11 |]]]]]]].
      pose proof (proj2 (proj2 (proj2 (proj2 (C8_getDelay_amended u u 1 l3)))) H5 H6 H7 H8)
        as [Hb Hf].
      split; [exact (proj1 (Hb H9)) | exact (proj2 (Hf H10) H11)].
Defined.


(** ** The circular buffer *)

Lemma store_length v : forall i x, length (CB.store v i x) = length v.
Proof.
  induction v as [|y v IH]; intros [|i] x; cbn; try reflexivity.
  rewrite IH. reflexivity.
Qed.

Lemma nth_store_same v : forall i x, (i < length v)%nat -> nth i (CB.store v i x) 0 = x.
Proof.
  induction v as [|y v IH]; intros [|i] x H; cbn in *; try lia; try reflexivity.
  apply IH. lia.
Qed.

Lemma nth_store_other v : forall i j x, i <> j -> nth j (CB.store v i x) 0 = nth j v 0.
Proof.
  induction v as [|y v IH]; intros [|i] [|j] x H; cbn; try reflexivity; try lia.
  apply IH. lia.
Qed.

Lemma at_store_other v t h x :
  0 <= t -> 0 <= h -> h <> t -> at_ (CB.store v (Z.to_nat t) x) h = at_ v h.
Proof. intros Ht Hh Hne. unfold at_. apply nth_store_other. lia. Qed.

Lemma at_store_same v t x :
  0 <= t < size v -> at_ (CB.store v (Z.to_nat t) x) t = x.
Proof. unfold at_, size. intros H. apply nth_store_same. lia. Qed.

(** *** Arithmetic of the ring *)

Section Ring.

Variable cap : Z.
Hypothesis cap_pos : 0 < cap.

(** Distinct offsets below the capacity land on distinct cells. *)
Lemma ring_offsets_distinct h j s :
  0 <= j < s -> s < cap -> (h + j) mod cap <> (h + s) mod cap.
Proof.
  intros Hj Hs E.
  assert (D : ((h + s) - (h + j)) mod cap = 0).
  { rewrite Zminus_mod, E, Z.sub_diag. apply Z.mod_0_l. lia. }
  replace (h + s - (h + j)) with (s - j) in D by lia.
  rewrite Z.mod_small in D by lia. lia.
Qed.

Lemma ring_next_in_range h : 0 <= (h + 1) mod cap < cap.
Proof. apply Z.mod_pos_bound. exact cap_pos. Qed.

Lemma cells_snoc v n :
  forall h, 0 <= h < cap ->
            CB.cells v cap h (S n) = CB.cells v cap h n ++ [at_ v ((h + Z.of_nat n) mod cap)].
Proof.
  induction n as [|n IH]; intros h Hh.
  - cbn. rewrite Z.add_0_r, Z.mod_small by lia. reflexivity.
  - change (CB.cells v cap h (S (S n)))
      with (at_ v h :: CB.cells v cap ((h + 1) mod cap) (S n)).
    rewrite IH by apply ring_next_in_range.
    cbn [CB.cells app]. rewrite Z.add_mod_idemp_l by lia.
    replace (h + 1 + Z.of_nat n) with (h + Z.of_nat (S n)) by lia. reflexivity.
Qed.

(** A store outside the cells read does not change them. *)
Lemma cells_store_other v t x n :
  forall h, 0 <= h < cap -> 0 <= t ->
            (forall j, 0 <= j < Z.of_nat n -> (h + j) mod cap <> t) ->
            CB.cells (CB.store v (Z.to_nat t) x) cap h n = CB.cells v cap h n.
Proof.
  induction n as [|n IH]; intros h Hh Ht Hne; [reflexivity|].
  cbn [CB.cells]. f_equal.
  - apply at_store_other; try lia.
    specialize (Hne 0). rewrite Z.add_0_r, Z.mod_small in Hne by lia. apply Hne. lia.
  - apply IH; [apply ring_next_in_range | lia |].
    intros j Hj. rewrite Z.add_mod_idemp_l by lia.
    replace (h + 1 + j) with (h + (j + 1)) by lia. apply Hne. lia.
Qed.

Lemma cells_skipn v k : forall n h,
  0 <= h < cap -> (k <= n)%nat ->
  skipn k (CB.cells v cap h n) = CB.cells v cap ((h + Z.of_nat k) mod cap) (n - k).
Proof.
  induction k as [|k IH]; intros n h Hh H.
  - cbn [skipn]. rewrite Z.add_0_r, Z.mod_small, Nat.sub_0_r by lia. reflexivity.
  - destruct n as [|n]; [lia|]. cbn [skipn CB.cells Nat.sub].
    rewrite IH by (try apply ring_next_in_range; lia).
    rewrite Z.add_mod_idemp_l by lia.
    replace (h + 1 + Z.of_nat k) with (h + Z.of_nat (S k)) by lia. reflexivity.
Qed.

End Ring.

Lemma cells_length v cap n : forall h, length (CB.cells v cap h n) = n.
Proof. induction n as [|n IH]; intros h; cbn; [reflexivity | rewrite IH; reflexivity]. Qed.

Lemma cells_firstn v cap k : forall n h,
  (k <= n)%nat -> firstn k (CB.cells v cap h n) = CB.cells v cap h k.
Proof.
  induction k as [|k IH]; intros n h H; [reflexivity|].
  destruct n as [|n]; [lia|]. cbn. f_equal. apply IH. lia.
Qed.

(** The loop of [write]. *)
Lemma write_loop_spec n :
  forall i src b,
    CB.wf b -> CB.size_ b + Z.of_nat n <= CB.capacity_ b -> 0 <= i ->
    exists b',
      CB.write_loop n i src b = Some b'
      /\ CB.wf b'
      /\ CB.capacity_ b' = CB.capacity_ b
      /\ CB.size_ b' = CB.size_ b + Z.of_nat n
      /\ CB.contents b'
         = CB.contents b ++ map (fun k => at_ src (i + Z.of_nat k)) (seq 0 n).
Proof.
  induction n as [|n IH]; intros i src b Hwf Hroom Hi.
  - exists b. cbn [CB.write_loop seq map]. rewrite app_nil_r.
    split; [reflexivity|]. split; [assumption|]. split; [reflexivity|].
    split; [cbn; lia | reflexivity].
  - destruct Hwf as (Hlen & Hmax & Hsz & Hzero & Hpos).
    assert (Hc : 0 < CB.capacity_ b) by lia.
    destruct (Hpos Hc) as (Hh & Ht).
    assert (Htr : 0 <= CB.tail_ b < CB.capacity_ b)
      by (rewrite Ht; apply Z.mod_pos_bound; lia).
    cbn [CB.write_loop]. unfold CB.umod.
    replace (CB.capacity_ b =? 0) with false by (symmetry; apply Z.eqb_neq; lia).
    rewrite (wrap64_small (CB.tail_ b + 1)) by (unfold SIZE_MAX, CB.MAX_SIZE in *; lia).
    rewrite (wrap64_small (CB.size_ b + 1)) by (unfold SIZE_MAX, CB.MAX_SIZE in *; lia).
    set (b1 := CB.mk _ _ _ _ _).
    assert (Hwf1 : CB.wf b1).
    { unfold CB.wf, b1.
      cbn [CB.buffer_ CB.capacity_ CB.size_ CB.head_ CB.tail_].
      split; [unfold size in *; rewrite store_length; exact Hlen|].
      split; [lia|]. split; [lia|]. split; [intros; lia|].
      intros _. split; [lia|].
      rewrite Ht, Z.add_mod_idemp_l by lia. f_equal. lia. }
    destruct (IH (i + 1) src b1 Hwf1) as (b' & Hrun & Hwf' & Hcap' & Hsz' & Hcont');
      [unfold b1; cbn; lia | lia |].
    exists b'. rewrite Hrun. split; [reflexivity|]. split; [assumption|].
    split; [rewrite Hcap'; reflexivity|].
    split; [rewrite Hsz'; unfold b1; cbn; lia|].
    rewrite Hcont'. unfold CB.contents, b1. cbn [CB.buffer_ CB.capacity_ CB.head_ CB.size_].
    replace (Z.to_nat (CB.size_ b + 1)) with (S (Z.to_nat (CB.size_ b))) by lia.
    rewrite cells_snoc by lia.
    rewrite Z2Nat.id by lia. rewrite <- Ht.
    rewrite at_store_same by lia.
    rewrite cells_store_other; try lia.
    + rewrite <- app_assoc. f_equal. cbn [seq map app]. rewrite Z.add_0_r. f_equal.
      rewrite <- seq_shift, map_map. apply map_ext. intros k. f_equal. lia.
    + intros j Hj. rewrite Ht. apply ring_offsets_distinct; lia.
Qed.

Lemma map_at_seq src : forall n,
  (n <= length src)%nat ->
  map (fun k => at_ src (0 + Z.of_nat k)) (seq 0 n) = firstn n src.
Proof.
  induction src as [|x src IH]; intros n Hn.
  - cbn in Hn. replace n with 0%nat by lia. reflexivity.
  - destruct n as [|n]; [reflexivity|].
    cbn [seq map firstn]. f_equal.
    rewrite <- seq_shift, map_map. rewrite <- IH by (cbn in Hn; lia).
    apply map_ext. intros k. unfold at_. cbn [Z.add].
    rewrite !Nat2Z.id. reflexivity.
Qed.

(** The loop of [read]. *)
Lemma read_loop_spec n :
  forall dest b,
    CB.wf b -> Z.of_nat n <= CB.size_ b ->
    exists b',
      CB.read_loop n dest b = Some (dest ++ firstn n (CB.contents b), b')
      /\ CB.wf b'
      /\ CB.capacity_ b' = CB.capacity_ b
      /\ CB.size_ b' = CB.size_ b - Z.of_nat n
      /\ CB.contents b' = skipn n (CB.contents b).
Proof.
  induction n as [|n IH]; intros dest b Hwf Hn.
  - exists b. cbn [CB.read_loop firstn skipn]. rewrite app_nil_r.
    split; [reflexivity|]. split; [assumption|]. split; [reflexivity|].
    split; [cbn; lia | reflexivity].
  - destruct Hwf as (Hlen & Hmax & Hsz & Hzero & Hpos).
    assert (Hc : 0 < CB.capacity_ b) by lia.
    destruct (Hpos Hc) as (Hh & Ht).
    cbn [CB.read_loop]. unfold CB.umod.
    replace (CB.capacity_ b =? 0) with false by (symmetry; apply Z.eqb_neq; lia).
    rewrite (wrap64_small (CB.head_ b + 1)) by (unfold SIZE_MAX, CB.MAX_SIZE in *; lia).
    rewrite (wrap64_small (CB.size_ b - 1)) by (unfold SIZE_MAX, CB.MAX_SIZE in *; lia).
    set (b1 := CB.mk _ _ _ _ _).
    assert (Hwf1 : CB.wf b1).
    { unfold CB.wf, b1.
      cbn [CB.buffer_ CB.capacity_ CB.size_ CB.head_ CB.tail_].
      split; [exact Hlen|]. split; [lia|]. split; [lia|]. split; [intros; lia|].
      intros _. split; [apply Z.mod_pos_bound; lia|].
      rewrite Ht, Z.add_mod_idemp_l by lia. f_equal. lia. }
    assert (Hcont : CB.contents b = at_ (CB.buffer_ b) (CB.head_ b) :: CB.contents b1).
    { unfold CB.contents, b1. cbn [CB.buffer_ CB.capacity_ CB.size_ CB.head_].
      replace (Z.to_nat (CB.size_ b)) with (S (Z.to_nat (CB.size_ b - 1))) by lia.
      reflexivity. }
    destruct (IH (dest ++ [at_ (CB.buffer_ b) (CB.head_ b)]) b1 Hwf1)
      as (b' & Hrun & Hwf' & Hcap' & Hsz' & Hcont'); [unfold b1; cbn; lia|].
    exists b'. rewrite Hrun, Hcont. cbn [firstn skipn]. rewrite <- app_assoc.
    split; [reflexivity|]. split; [assumption|].
    split; [rewrite Hcap'; reflexivity|].
    split; [rewrite Hsz'; unfold b1; cbn; lia | exact Hcont'].
Qed.

(** The loop of [peek]. *)
Lemma peek_loop_spec n :
  forall dest b h,
    (n = 0%nat \/ 0 < CB.capacity_ b <= CB.MAX_SIZE) -> 0 <= h < Z.max 1 (CB.capacity_ b) ->
    CB.peek_loop n dest b h
    = Some (dest ++ CB.cells (CB.buffer_ b) (CB.capacity_ b) h n).
Proof.
  induction n as [|n IH]; intros dest b h Hc Hh.
  - cbn. rewrite app_nil_r. reflexivity.
  - destruct Hc as [Hc|Hc]; [discriminate|].
    cbn [CB.peek_loop CB.cells]. unfold CB.umod.
    replace (CB.capacity_ b =? 0) with false by (symmetry; apply Z.eqb_neq; lia).
    rewrite (wrap64_small (h + 1)) by (unfold SIZE_MAX, CB.MAX_SIZE in *; lia).
    rewrite IH.
    + rewrite <- app_assoc. reflexivity.
    + right. exact Hc.
    + pose proof (Z.mod_pos_bound (h + 1) (CB.capacity_ b)). lia.
Qed.

Lemma cb_contents_length b : length (CB.contents b) = Z.to_nat (CB.size_ b).
Proof. unfold CB.contents. apply cells_length. Qed.

Lemma cb_make_wf capacity :
  0 <= capacity <= CB.MAX_SIZE -> CB.wf (CB.make capacity) /\ CB.contents (CB.make capacity) = [].
Proof.
  intros H. unfold CB.wf, CB.make, CB.contents.
  cbn [CB.buffer_ CB.capacity_ CB.size_ CB.head_ CB.tail_ Z.to_nat CB.cells].
  unfold size. rewrite repeat_length.
  split; [|reflexivity].
  split; [lia|]. split; [lia|]. split; [lia|]. split; [tauto|].
  intros Hc. split; [lia|]. symmetry. apply Z.mod_0_l. lia.
Qed.

(** [skip] on a buffer of capacity zero divides by zero. *)
Lemma cb_skip_zero_capacity n b : CB.capacity_ b = 0 -> CB.skip n b = None.
Proof. intros H. unfold CB.skip, CB.umod. rewrite H. reflexivity. Qed.

(** What the calls do on a well-formed buffer, for every length [n]:
    [write(data, n)] returns [min(n, capacity - size)] and stores that many
    bytes, the first ones of [data], behind the bytes held; [read(buf, n)]
    returns [min(n, size)], copies out that many of the oldest bytes and
    removes them; [peek] copies the same bytes and removes nothing;
    [skip(n)] removes [min(n, size)] bytes, on a buffer whose capacity is
    not zero; [clear] empties the buffer.  After each of them the buffer
    is well formed again, with the same capacity and its size in
    [[0, capacity]]. *)
Lemma cb_calls_on_well_formed_buffer b data n :
  CB.wf b ->
  0 <= n <= SIZE_MAX ->
  let w := Z.min n (CB.capacity_ b - CB.size_ b) in
  let r := Z.min n (CB.size_ b) in
  (exists b',
      CB.write data n b = Some (w, b')
      /\ CB.wf b' /\ CB.capacity_ b' = CB.capacity_ b
      /\ CB.size_ b' = CB.size_ b + w
      /\ 0 <= CB.size_ b' <= CB.capacity_ b
      /\ (n <= size data ->
          CB.contents b' = CB.contents b ++ firstn (Z.to_nat w) data))
  /\ (exists b',
         CB.read n b = Some (r, firstn (Z.to_nat r) (CB.contents b), b')
         /\ CB.wf b' /\ CB.capacity_ b' = CB.capacity_ b
         /\ CB.size_ b' = CB.size_ b - r
         /\ 0 <= CB.size_ b' <= CB.capacity_ b
         /\ CB.contents b' = skipn (Z.to_nat r) (CB.contents b))
  /\ CB.peek n b = Some (r, firstn (Z.to_nat r) (CB.contents b))
  /\ (0 < CB.capacity_ b ->
      exists b',
        CB.skip n b = Some b'
        /\ CB.wf b' /\ CB.capacity_ b' = CB.capacity_ b
        /\ CB.size_ b' = CB.size_ b - r
        /\ 0 <= CB.size_ b' <= CB.capacity_ b
        /\ CB.contents b' = skipn (Z.to_nat r) (CB.contents b))
  /\ (CB.wf (CB.clear b)
      /\ CB.capacity_ (CB.clear b) = CB.capacity_ b
      /\ CB.size_ (CB.clear b) = 0
      /\ CB.contents (CB.clear b) = []).
Proof.
  intros Hwf Hn w r.
  pose proof Hwf as (Hlen & Hmax & Hsz & Hzero & Hpos).
  assert (Hw : 0 <= w <= CB.capacity_ b - CB.size_ b) by (subst w; lia).
  assert (Hr : 0 <= r <= CB.size_ b) by (subst r; lia).
  split; [|split; [|split; [|split]]].
  - (* write *)
    unfold CB.write.
    rewrite (wrap64_small (CB.capacity_ b - CB.size_ b))
      by (unfold SIZE_MAX, CB.MAX_SIZE in *; lia).
    fold w.
    destruct (write_loop_spec (Z.to_nat w) 0 data b Hwf)
      as (b' & Hrun & Hwf' & Hcap' & Hsz' & Hcont'); [lia | lia |].
    exists b'. rewrite Hrun. rewrite Z2Nat.id in Hsz' by lia.
    split; [reflexivity|]. split; [assumption|]. split; [assumption|].
    split; [assumption|]. split; [lia|].
    intros Hdata. rewrite Hcont'. f_equal. apply map_at_seq.
    unfold size in Hdata. lia.
  - (* read *)
    unfold CB.read. fold r.
    destruct (read_loop_spec (Z.to_nat r) [] b Hwf)
      as (b' & Hrun & Hwf' & Hcap' & Hsz' & Hcont'); [lia|].
    exists b'. rewrite Hrun. rewrite Z2Nat.id in Hsz' by lia.
    split; [reflexivity|]. split; [assumption|]. split; [assumption|].
    split; [assumption|]. split; [lia | assumption].
  - (* peek *)
    unfold CB.peek. fold r. rewrite peek_loop_spec.
    + cbn [app]. unfold CB.contents. rewrite cells_firstn by lia. reflexivity.
    + destruct (Z.eq_dec r 0) as [->|]; [left; reflexivity | right; lia].
    + destruct (Z.eq_dec (CB.capacity_ b) 0) as [E|E].
      * destruct (Hzero E) as [-> _]. lia.
      * destruct Hpos as [Hh _]; lia.
  - (* skip *)
    intros Hc. destruct (Hpos Hc) as (Hh & Ht).
    unfold CB.skip, CB.umod. fold r.
    replace (CB.capacity_ b =? 0) with false by (symmetry; apply Z.eqb_neq; lia).
    rewrite (wrap64_small (CB.head_ b + r)) by (unfold SIZE_MAX, CB.MAX_SIZE in *; lia).
    rewrite (wrap64_small (CB.size_ b - r)) by (unfold SIZE_MAX, CB.MAX_SIZE in *; lia).
    eexists. split; [reflexivity|].
    cbn [CB.buffer_ CB.capacity_ CB.size_ CB.head_ CB.tail_].
    split; [|split; [reflexivity | split; [reflexivity | split; [lia|]]]].
    + unfold CB.wf. cbn [CB.buffer_ CB.capacity_ CB.size_ CB.head_ CB.tail_].
      split; [exact Hlen|]. split; [lia|]. split; [lia|]. split; [intros; lia|].
      intros _. split; [apply Z.mod_pos_bound; lia|].
      rewrite Ht, Z.add_mod_idemp_l by lia. f_equal. lia.
    + unfold CB.contents. cbn [CB.buffer_ CB.capacity_ CB.size_ CB.head_].
      rewrite cells_skipn by lia. rewrite Z2Nat.id by lia.
      f_equal. lia.
  - (* clear *)
    unfold CB.clear, CB.contents.
    cbn [CB.buffer_ CB.capacity_ CB.size_ CB.head_ CB.tail_ Z.to_nat CB.cells].
    split; [|repeat split].
    unfold CB.wf. cbn [CB.buffer_ CB.capacity_ CB.size_ CB.head_ CB.tail_].
    split; [exact Hlen|]. split; [lia|]. split; [lia|]. split; [tauto|].
    intros Hc. split; [lia|]. symmetry. apply Z.mod_0_l. lia.
Qed.

Example cb_calls_on_well_formed_buffer_example :
  let b := CB.mk [1; 2; 3; 0] 4 2 1 3 in
  CB.wf b
  /\ 0 <= 3 <= SIZE_MAX
  /\ 3 <= size [7; 8; 9]
  /\ 0 < CB.capacity_ b
  /\ option_map fst (CB.write [7; 8; 9] 3 b) = Some 2
  /\ option_map (fun x => CB.contents (snd x)) (CB.write [7; 8; 9] 3 b) = Some [2; 3; 7; 8]
  /\ option_map fst (CB.read 3 b) = Some (2, [2; 3])
  /\ CB.peek 3 b = Some (2, [2; 3])
  /\ option_map CB.size_ (CB.skip 3 b) = Some 0.
Proof.
  set (b := CB.mk [1; 2; 3; 0] 4 2 1 3). cbn zeta.
  assert (Hwf : CB.wf b).
  { unfold CB.wf, b, CB.MAX_SIZE. cbn.
    split; [reflexivity|]. split; [lia|]. split; [lia|]. split; [lia|].
    intros _. split; [lia | reflexivity]. }
  assert (Hn : 0 <= 3 <= SIZE_MAX) by (unfold SIZE_MAX; lia).
  assert (Hd : 3 <= size [7; 8; 9]) by (cbn; lia).
  assert (Hc : 0 < CB.capacity_ b) by (cbn; lia).
  destruct (cb_calls_on_well_formed_buffer b [7; 8; 9] 3 Hwf Hn)
    as ((bw & Hw & _ & _ & _ & _ & Hwc) & (br & Hr & _) & Hp & Hs & _).
  destruct (Hs Hc) as (bs & Hsk & _ & _ & Hss & _).
  split; [exact Hwf|]. split; [exact Hn|]. split; [exact Hd|]. split; [exact Hc|].
  split; [rewrite Hw; reflexivity|].
  split; [rewrite Hw; cbn [option_map snd]; rewrite (Hwc Hd); reflexivity|].
  split; [rewrite Hr; reflexivity|].
  split; [rewrite Hp; reflexivity|].
  rewrite Hsk. cbn [option_map]. rewrite Hss. reflexivity.
Defined.

(** C9 fails on the code for [skip].  [CircularBuffer(0)] builds a buffer
    of capacity zero, empty and well formed.  On it [write], [read] and
    [peek] return 0 and [clear] leaves it empty, their loops running zero
    times; [skip(n)] computes [(head_ + min(n, size_)) % capacity_]
    whatever the capacity, so it divides by zero for every [n] and leaves
    no buffer whose size could be within [[0, capacity]]. *)
Theorem C9_skip_divides_by_zero_on_capacity_zero :
  let b := CB.make 0 in
  CB.wf b /\ CB.capacity_ b = 0 /\ CB.size_ b = 0
  /\ CB.write [1; 2; 3] 3 b = Some (0, b)
  /\ CB.read 3 b = Some (0, [], b)
  /\ CB.peek 3 b = Some (0, [])
  /\ CB.size_ (CB.clear b) = 0
  /\ (forall n, CB.skip n b = None).
Proof.
  cbn zeta. split.
  - apply cb_make_wf. unfold CB.MAX_SIZE. lia.
  - split; [reflexivity|]. split; [reflexivity|].
    split; [vm_compute; reflexivity|]. split; [vm_compute; reflexivity|].
    split; [vm_compute; reflexivity|]. split; [reflexivity|].
    intros n. apply cb_skip_zero_capacity. reflexivity.
Qed.


(** ** Closing twice *)

Ltac run_sys :=
  unfold Sys.bind, Sys.ret, Sys.fire, Sys.sys_close, Sys.sys_socket,
         Sys.deadlock, Sys.terminate in *;
  cbn in *.

(** After [close()] the connection is [Disconnected] and its receive thread
    is joined. *)
Lemma TcpConnection_close_core_post shared c w call c1 w1 :
  TcpConnection.close_core shared c w = Sys.Returns (call, c1) w1 ->
  TcpConnection.state_ c1 = Disconnected /\ TcpConnection.receiveThread_ c1 = false.
Proof.
  unfold TcpConnection.close_core. destruct c as [id sock st stop th h].
  run_sys. destruct st; cbn; destruct (sock =? INVALID_SOCKET); cbn;
    destruct h; cbn; intros H; inversion H; subst; cbn; split; reflexivity.
Qed.

Lemma TcpConnection_close_post shared c w c1 w1 :
  TcpConnection.close shared c w = Sys.Returns c1 w1 ->
  TcpConnection.state_ c1 = Disconnected /\ TcpConnection.receiveThread_ c1 = false.
Proof.
  unfold TcpConnection.close, Sys.bind.
  destruct (TcpConnection.close_core shared c w) as [[call c'] w'| |] eqn:E;
    try discriminate.
  apply TcpConnection_close_core_post in E.
  destruct call; run_sys; intros H; inversion H; subst; exact E.
Qed.

(** [close()] on a connection that is [Disconnected] with its thread
    joined changes nothing and fires nothing. *)
Lemma TcpConnection_close_disconnected shared c w :
  TcpConnection.state_ c = Disconnected ->
  TcpConnection.receiveThread_ c = false ->
  TcpConnection.close shared c w = Sys.Returns c w.
Proof.
  destruct c as [id sock st stop th h]. cbn. intros -> ->. reflexivity.
Qed.

(** [TcpConnection::close()] is idempotent: a second call in a row returns
    with the connection and the record of callbacks unchanged. *)
Lemma TcpConnection_close_twice shared1 shared2 c w c1 w1 :
  TcpConnection.close shared1 c w = Sys.Returns c1 w1 ->
  TcpConnection.close shared2 c1 w1 = Sys.Returns c1 w1.
Proof.
  intros H. apply TcpConnection_close_post in H. destruct H.
  apply TcpConnection_close_disconnected; assumption.
Qed.

(** One [close()] fires the disconnected callback at most once. *)
Lemma TcpConnection_close_fires_at_most_once shared c w c1 w1 :
  TcpConnection.close shared c w = Sys.Returns c1 w1 ->
  (Sys.disconnected_count w1 <= S (Sys.disconnected_count w))%nat.
Proof.
  unfold TcpConnection.close, TcpConnection.close_core.
  destruct c as [id sock st stop th h]. run_sys.
  destruct st; cbn; destruct (sock =? INVALID_SOCKET); cbn;
    destruct h; cbn; try destruct shared; cbn;
    intros H; inversion H; subst; unfold Sys.disconnected_count; cbn;
    rewrite ?filter_app, ?length_app; cbn; lia.
Qed.

Lemma TcpConnection_closes_disconnected shareds :
  forall c w,
    TcpConnection.state_ c = Disconnected ->
    TcpConnection.receiveThread_ c = false ->
    TcpConnection.closes shareds c w = Sys.Returns c w.
Proof.
  induction shareds as [|shared rest IH]; intros c w Hs Ht; [reflexivity|].
  cbn [TcpConnection.closes]. unfold Sys.bind.
  rewrite TcpConnection_close_disconnected by assumption.
  apply IH; assumption.
Qed.

(** X21.  However often [close()] is called on a connection, and whether
    or not a [shared_ptr] still owns it at each call, its disconnected
    callback fires at most once. *)
Lemma TcpConnection_closes_fire_at_most_once shareds c w c1 w1 :
  TcpConnection.closes shareds c w = Sys.Returns c1 w1 ->
  (Sys.disconnected_count w1 <= S (Sys.disconnected_count w))%nat.
Proof.
  destruct shareds as [|shared rest]; cbn [TcpConnection.closes].
  - intros H. inversion H. lia.
  - unfold Sys.bind.
    destruct (TcpConnection.close shared c w) as [c' w'| |] eqn:E; try discriminate.
    pose proof (TcpConnection_close_fires_at_most_once _ _ _ _ _ E) as Hle.
    apply TcpConnection_close_post in E. destruct E as [Hs Ht].
    rewrite TcpConnection_closes_disconnected by assumption.
    intros H. inversion H; subst. exact Hle.
Qed.

Lemma TcpConnection_closes_fire_at_most_once_witness :
  let c := TcpConnection.setOnDisconnected TcpConnection.UserHandler (TcpConnection.make 1 4) in
  let w := Sys.mkWorld [4] [] in
  exists c1 w1,
    TcpConnection.closes [true; true; false] c w = Sys.Returns c1 w1
    /\ (Sys.disconnected_count w1 <= S (Sys.disconnected_count w))%nat
    /\ Sys.disconnected_count w1 = 1%nat.
Proof.
  cbn zeta. eexists. eexists.
  assert (E : TcpConnection.closes [true; true; false]
                (TcpConnection.setOnDisconnected TcpConnection.UserHandler
                   (TcpConnection.make 1 4))
                (Sys.mkWorld [4] [])
              = Sys.Returns
                  (TcpConnection.mk 1 INVALID_SOCKET Disconnected true false
                                    TcpConnection.UserHandler)
                  (Sys.mkWorld [] [Sys.onDisconnected (Some 1)]))
    by reflexivity.
  split; [exact E|].
  split; [exact (TcpConnection_closes_fire_at_most_once _ _ _ _ _ E) | reflexivity].
Defined.

(** [TcpServer::stop()] keeps [running_] false through the closing of the
    registry. *)
Lemma TcpServer_closeAll_loop_running l :
  forall s w s1 w1,
    TcpServer.closeAll_loop l s w = Sys.Returns s1 w1 ->
    TcpServer.running_ s1 = TcpServer.running_ s.
Proof.
  induction l as [|[c|] l IH]; intros s w s1 w1 H.
  - cbn in H. inversion H. reflexivity.
  - cbn [TcpServer.closeAll_loop] in H. unfold Sys.bind in H.
    destruct (TcpServer.close_registered c s w) as [[c' s'] w'| |] eqn:E;
      try discriminate.
    apply IH in H. rewrite H. clear H IH.
    unfold TcpServer.close_registered, Sys.bind in E.
    destruct (TcpConnection.close_core true c w) as [[call c2] w2| |]; try discriminate.
    destruct call; [|inversion E; reflexivity].
    unfold TcpServer.handleDisconnection, TcpServer.removeConnection in E.
    destruct (TcpConnection.onDisconnected_ c2); run_sys;
      try (inversion E; reflexivity).
    destruct (TcpServer.connectionsMutex_ s); try discriminate.
    cbn in E. destruct (TcpServer.onDisconnected_ s); inversion E; reflexivity.
  - cbn [TcpServer.closeAll_loop] in H. eapply IH; eassumption.
Qed.

Lemma TcpServer_stop_not_running s w s1 w1 :
  TcpServer.stop s w = Sys.Returns s1 w1 -> TcpServer.running_ s1 = false.
Proof.
  unfold TcpServer.stop.
  destruct (TcpServer.running_ s) eqn:Hrun; cbn [negb].
  - unfold Sys.bind.
    destruct (TcpSocket.close _ w) as [b w'| |]; try discriminate.
    unfold TcpServer.closeAllConnections. cbn [TcpServer.connectionsMutex_ TcpServer.set_base].
    destruct (TcpServer.connectionsMutex_ s); [discriminate|].
    unfold Sys.bind.
    match goal with
    | |- context [TcpServer.closeAll_loop ?l ?s0 ?w0] =>
        destruct (TcpServer.closeAll_loop l s0 w0) as [s2 w2| |] eqn:E
    end; try discriminate.
    apply TcpServer_closeAll_loop_running in E.
    intros H. inversion H; subst. cbn. exact E.
  - intros H. inversion H; subst. exact Hrun.
Qed.

(** X30.  [TcpServer::stop()] is idempotent: once a call has returned, a
    second call in a row returns at once, with the server and the record
    of callbacks unchanged. *)
Lemma TcpServer_stop_twice s w s1 w1 :
  TcpServer.stop s w = Sys.Returns s1 w1 ->
  TcpServer.stop s1 w1 = Sys.Returns s1 w1.
Proof.
  intros H. apply TcpServer_stop_not_running in H.
  unfold TcpServer.stop. rewrite H. reflexivity.
Qed.

Lemma TcpServer_stop_twice_witness :
  let s := TcpServer.mk (TcpSocket.mk 3 false false) "0.0.0.0" 8080 true false
                        [] false true true true false 0 in
  let w := Sys.mkWorld [3] [] in
  exists s1 w1,
    TcpServer.stop s w = Sys.Returns s1 w1
    /\ TcpServer.stop s1 w1 = Sys.Returns s1 w1.
Proof.
  cbn zeta. eexists. eexists.
  assert (E : TcpServer.stop
                (TcpServer.mk (TcpSocket.mk 3 false false) "0.0.0.0" 8080 true false
                              [] false true true true false 0)
                (Sys.mkWorld [3] [])
              = Sys.Returns
                  (TcpServer.mk (TcpSocket.mk INVALID_SOCKET false false) "0.0.0.0" 8080
                                false true [] false true false false false 0)
                  (Sys.mkWorld [] []))
    by reflexivity.
  split; [exact E|].
  exact (TcpServer_stop_twice _ _ _ _ E).
Defined.

(** [TcpClient::disconnect()] has no such guard: every call that finds the
    callback set fires it. *)
Lemma TcpClient_disconnect_always_fires c w :
  TcpClient.onDisconnected_ c = true ->
  TcpSocket.mutex_ (TcpClient.base c) = false ->
  exists c' w',
    TcpClient.disconnect c w = Sys.Returns c' w'
    /\ TcpClient.state_ c' = Disconnected
    /\ TcpClient.onDisconnected_ c' = true
    /\ TcpSocket.mutex_ (TcpClient.base c') = false
    /\ Sys.disconnected_count w' = S (Sys.disconnected_count w).
Proof.
  destruct c as [[sock nb mx] ra rp st se sc sh rt rct ht stop oc od oe ar hb tc rc].
  cbn. intros -> ->.
  unfold TcpClient.disconnect, TcpClient.close, TcpSocket.close, TcpSocket.lock,
    TcpSocket.isValid. run_sys.
  destruct (sock =? INVALID_SOCKET); cbn;
    eexists; eexists; (split; [reflexivity|]); cbn;
    repeat split; unfold Sys.disconnected_count; cbn;
    rewrite filter_app, length_app; cbn; lia.
Qed.

(** C3 fails on the code for [TcpClient::disconnect()].  A client with a
    disconnected callback connects and is then disconnected twice in a
    row: the callback fires on each call, twice for the one connection.
    [TcpConnection::close()] and [TcpServer::stop()] are guarded by the
    state and by [running_] ([TcpConnection_close_twice],
    [TcpServer_stop_twice]); [disconnect()] has no guard. *)
Theorem C3_client_disconnect_twice_fires_twice :
  let client := TcpClient.setOnDisconnected true TcpClient.make in
  let sys := TcpClient.mkConnectSys 3 None true true TcpClient.ConnectDone in
  match
    (r <- TcpClient.connect sys "127.0.0.1" 8080 client ;;
     c <- TcpClient.disconnect (snd r) ;;
     TcpClient.disconnect c) (Sys.mkWorld [] [])
  with
  | Sys.Returns c w =>
      Sys.fired_ w = [Sys.onDisconnected None; Sys.onDisconnected None]
      /\ Sys.disconnected_count w = 2%nat
  | _ => False
  end.
Proof. vm_compute. split; reflexivity. Qed.

(** The same on a client that never connected: every [disconnect()] fires
    the callback. *)
Lemma TcpClient_disconnect_fires_without_connection :
  match
    (c <- TcpClient.disconnect (TcpClient.setOnDisconnected true TcpClient.make) ;;
     TcpClient.disconnect c) (Sys.mkWorld [] [])
  with
  | Sys.Returns c w => Sys.disconnected_count w = 2%nat
  | _ => False
  end.
Proof. vm_compute. reflexivity. Qed.

(** [stop()] itself does not return when a registered connection is still
    connected: [closeAllConnections] holds [connectionsMutex_] while the
    connection's callback runs [removeConnection], which locks it again. *)
Lemma TcpServer_stop_self_deadlock :
  let sys := TcpServer.mkBindSys 3 true true in
  match TcpServer.start sys true "0.0.0.0" 8080 TcpServer.make (Sys.mkWorld [] []) with
  | Sys.Returns (true, s) w =>
      match TcpServer.handleNewConnection (TcpServer.accepted 1 4) s w with
      | Sys.Returns s1 w1 => TcpServer.stop s1 w1 = Sys.SelfDeadlock
      | _ => False
      end
  | _ => False
  end.
Proof. vm_compute. reflexivity. Qed.

(** ** The reconnect loop *)

(** The wait is passed, with the client meant to keep running, only when
    auto-reconnect is disabled. *)
Lemma reconnect_wait_passes_only_when_disabled c :
  TcpClient.reconnect_wait_predicate c = true ->
  TcpClient.shouldStop_ c = false ->
  TcpClient.autoReconnect_ c = false.
Proof.
  unfold TcpClient.reconnect_wait_predicate. intros H Hs. rewrite Hs in H.
  destruct (TcpClient.autoReconnect_ c); [discriminate | reflexivity].
Qed.

(** No pass through the loop reaches the reconnect attempt. *)
Lemma reconnectLoop_never_attempts c :
  TcpClient.reconnectLoop_step c <> TcpClient.LoopAttempt.
Proof.
  unfold TcpClient.reconnectLoop_step, TcpClient.reconnect_wait_predicate.
  destruct (TcpClient.shouldStop_ c), (TcpClient.autoReconnect_ c),
    (TcpClient.isConnected c); cbn; discriminate.
Qed.

(** The same among the other threads: from the start of the loop, in
    every interleaving with [enableAutoReconnect], [disconnect] and changes
    of the connection state, the loop passes its wait only with
    reconnection disabled (or to leave), and never reaches its reconnect
    attempt. *)
Lemma loop_step_invariant st st' :
  TcpClient.loop_invariant st -> TcpClient.loop_step st st' ->
  TcpClient.loop_invariant st'.
Proof.
  intros Hinv Hstep. destruct Hstep; unfold TcpClient.loop_invariant in *; cbn in *.
  - destruct s; exact I.
  - exact I.
  - destruct a, s; cbn; auto.
  - exact I.
  - destruct s; cbn; [exact I|]. destruct Hinv; [assumption | discriminate].
  - rewrite Hinv. exact I.
  - exact I.
  - destruct p; try discriminate; auto.
  - destruct p; auto.
  - destruct p; auto.
Qed.

Lemma loop_reachable_invariant init st :
  TcpClient.loop_invariant init -> TcpClient.loop_reachable init st ->
  TcpClient.loop_invariant st.
Proof.
  intros Hinit Hreach. induction Hreach as [|s s' _ IH Hstep]; [exact Hinit|].
  eapply loop_step_invariant; eassumption.
Qed.

(** X24.  The reconnect loop never reconnects.  From the start of the loop,
    whatever the flags are then and in every interleaving with
    [enableAutoReconnect], [disconnect] and changes of the connection
    state by other threads, the loop thread does not reach its reconnect
    attempt, and it is at the test of [autoReconnect_] only while that
    flag is false. *)
Lemma reconnect_attempt_unreachable a s c st :
  TcpClient.loop_reachable (TcpClient.mkLoopState TcpClient.AtWhile a s c) st ->
  TcpClient.point st <> TcpClient.Attempting
  /\ (TcpClient.point st = TcpClient.AtBranch -> TcpClient.l_autoReconnect st = false).
Proof.
  intros Hreach.
  apply loop_reachable_invariant in Hreach; [|exact I].
  unfold TcpClient.loop_invariant in Hreach.
  destruct (TcpClient.point st); split; try discriminate; try contradiction;
    intros; try discriminate; assumption.
Qed.

Lemma reconnect_attempt_unreachable_witness :
  let init := TcpClient.mkLoopState TcpClient.AtWhile true false false in
  let st := TcpClient.mkLoopState TcpClient.Waiting true false false in
  TcpClient.loop_reachable init st
  /\ TcpClient.point st <> TcpClient.Attempting.
Proof.
  cbn zeta.
  assert (H : TcpClient.loop_reachable
                (TcpClient.mkLoopState TcpClient.AtWhile true false false)
                (TcpClient.mkLoopState TcpClient.Waiting true false false)).
  { eapply TcpClient.reach_step;
      [eapply TcpClient.reach_step;
       [eapply TcpClient.reach_step; [apply TcpClient.reach_init|] |] |].
    - apply (TcpClient.step_while true false false).
    - apply TcpClient.step_lock.
    - apply (TcpClient.step_wait true false false). }
  split; [exact H|].
  exact (proj1 (reconnect_attempt_unreachable true false false _ H)).
Defined.

(** With reconnection enabled and the client running, the loop thread
    arrives at the wait and blocks there. *)
Lemma reconnect_loop_reaches_waiting c :
  TcpClient.loop_reachable (TcpClient.mkLoopState TcpClient.AtWhile true false c)
                           (TcpClient.mkLoopState TcpClient.Waiting true false c).
Proof.
  eapply TcpClient.reach_step;
    [eapply TcpClient.reach_step;
     [eapply TcpClient.reach_step; [apply TcpClient.reach_init|] |] |].
  - apply (TcpClient.step_while true false c).
  - apply TcpClient.step_lock.
  - apply (TcpClient.step_wait true false c).
Qed.

(** C4 fails on the code.  With auto-reconnect enabled on a client that is
    not connected and not stopping, the predicate handed to
    [reconnectCondition_.wait] is false, so the loop stays blocked and does
    not reach its reconnect attempt: the predicate is
    [!autoReconnect_ || shouldStop_], which lets the wait pass when
    reconnection is disabled, the opposite of what the claim states. *)
Theorem C4_reconnect_loop_blocks_while_enabled :
  let c := TcpClient.enableAutoReconnect true TcpClient.make in
  TcpClient.autoReconnect_ c = true
  /\ TcpClient.isConnected c = false
  /\ TcpClient.shouldStop_ c = false
  /\ TcpClient.reconnectThread_ c = true
  /\ TcpClient.reconnect_wait_predicate c = false
  /\ TcpClient.reconnectLoop_step c = TcpClient.LoopBlocked.
Proof. cbn. repeat split. Qed.


(** ** Failed bind, listen and connect *)

Ltac split_ifs H :=
  repeat match type of H with
         | context [if ?b then _ else _] => destruct b eqn:?; cbn in H
         | context [match ?x with _ => _ end] => destruct x eqn:?; cbn in H
         end.

Lemma is_open_head fd l f : Sys.is_open fd (Sys.mkWorld (fd :: l) f) = true.
Proof. unfold Sys.is_open. cbn. rewrite Z.eqb_refl. reflexivity. Qed.

Lemma TcpSocket_create_returns answer b w ok b' w' :
  TcpSocket.create answer b w = Sys.Returns (ok, b') w' ->
  TcpSocket.isValid b = false
  /\ TcpSocket.socket_ b' = answer
  /\ TcpSocket.nonBlocking_ b' = TcpSocket.nonBlocking_ b
  /\ TcpSocket.mutex_ b' = false
  /\ ok = negb (answer =? INVALID_SOCKET)
  /\ Sys.fired_ w' = Sys.fired_ w
  /\ Sys.open_ w' = if answer =? INVALID_SOCKET then Sys.open_ w else answer :: Sys.open_ w.
Proof.
  destruct b as [sock nb mx].
  unfold TcpSocket.create, TcpSocket.close, TcpSocket.lock, TcpSocket.isValid.
  run_sys. intros H.
  destruct mx; cbn in H; [discriminate|].
  destruct (sock =? INVALID_SOCKET); cbn in H; [|discriminate].
  destruct (answer =? INVALID_SOCKET) eqn:E; cbn in H; rewrite ?E in H; cbn in H;
    inversion H; subst; cbn; repeat split.
Qed.

(** [create()] on a valid socket calls [close()] with [mutex_] held. *)
Lemma TcpSocket_create_on_valid_socket answer b w :
  TcpSocket.isValid b = true -> TcpSocket.mutex_ b = false ->
  TcpSocket.create answer b w = Sys.SelfDeadlock.
Proof.
  destruct b as [sock nb mx]. unfold TcpSocket.isValid. cbn. intros Hv ->.
  unfold TcpSocket.create, TcpSocket.close, TcpSocket.lock, TcpSocket.isValid.
  run_sys. rewrite Hv. reflexivity.
Qed.

Lemma TcpServer_bind_failure sys address port s w s' w' :
  TcpServer.bind sys address port s w = Sys.Returns (false, s') w' ->
  (TcpServer.running_ s = true /\ s' = s /\ w' = w)
  \/ (TcpServer.running_ s = false
      /\ TcpServer.socket_answer sys = INVALID_SOCKET
      /\ TcpServer.isValid s' = false
      /\ Sys.open_ w' = Sys.open_ w)
  \/ (TcpServer.running_ s = false
      /\ TcpServer.socket_answer sys <> INVALID_SOCKET
      /\ TcpSocket.socket_ (TcpServer.base s') = TcpServer.socket_answer sys
      /\ TcpServer.isValid s' = true
      /\ Sys.is_open (TcpServer.socket_answer sys) w' = true).
Proof.
  unfold TcpServer.bind. intros H.
  destruct (TcpServer.running_ s) eqn:Hrun.
  - left. inversion H. auto.
  - right. unfold Sys.bind in H.
    destruct (TcpSocket.create (TcpServer.socket_answer sys) (TcpServer.base s) w)
      as [[ok b] w1| |] eqn:Hc; try discriminate.
    apply TcpSocket_create_returns in Hc.
    destruct Hc as (_ & Hsock & _ & _ & Hok & _ & Hopen).
    assert (Hfinal : TcpSocket.socket_ (TcpServer.base s') = TcpServer.socket_answer sys
                     /\ w' = w1).
    { cbn in H. destruct ok; cbn in H.
      - split_ifs H; inversion H; subst; cbn; auto.
      - inversion H; subst; cbn; auto. }
    destruct Hfinal as [Hs' ->].
    unfold TcpServer.isValid, TcpSocket.isValid. rewrite Hs'.
    destruct (TcpServer.socket_answer sys =? INVALID_SOCKET) eqn:E.
    + left. apply Z.eqb_eq in E. auto.
    + right. apply Z.eqb_neq in E. repeat split; auto.
      destruct w1 as [o f]. cbn in Hopen. subst o. apply is_open_head.
Qed.

Lemma TcpServer_listen_failure listen_ok s w s' w' :
  TcpServer.listen listen_ok s w = Sys.Returns (false, s') w' -> s' = s /\ w' = w.
Proof.
  unfold TcpServer.listen. intros H. run_sys.
  split_ifs H; inversion H; auto.
Qed.

Lemma TcpClient_connect_failure sys address port c w c' w' :
  TcpClient.connect sys address port c w = Sys.Returns (false, c') w' ->
  TcpClient.state_ c' = Error
  /\ ((TcpClient.socket_answer sys = INVALID_SOCKET
       /\ TcpClient.isValid c' = false)
      \/ (TcpClient.socket_answer sys <> INVALID_SOCKET
          /\ TcpSocket.socket_ (TcpClient.base c') = TcpClient.socket_answer sys
          /\ TcpClient.isValid c' = true
          /\ Sys.is_open (TcpClient.socket_answer sys) w' = true)).
Proof.
  unfold TcpClient.connect, TcpClient.connectInternal. intros H.
  unfold Sys.bind at 1 in H.
  destruct ((if TcpClient.isConnected c then TcpClient.disconnect c else Sys.ret c) w)
    as [c1 w1| |]; try discriminate.
  unfold Sys.bind at 1 in H.
  destruct (TcpSocket.create (TcpClient.socket_answer sys)
                             (TcpClient.base (TcpClient.setState Connecting c1)) w1)
    as [[ok b] w2| |] eqn:Hc; try discriminate.
  apply TcpSocket_create_returns in Hc.
  destruct Hc as (_ & Hsock & _ & Hmx & Hok & _ & Hopen).
  destruct b as [sock nb mx]. cbn in Hsock, Hmx. subst sock mx.
  assert (Hfinal : TcpClient.state_ c' = Error
                   /\ TcpSocket.socket_ (TcpClient.base c') = TcpClient.socket_answer sys
                   /\ Sys.open_ w' = Sys.open_ w2).
  { destruct sys as [answer res pton fc ca]. cbn in *.
    destruct c1 as [b1 ra rp st se sc sh rt rct ht stop oc od oe ar hb tc rc].
    unfold TcpClient.fail_with, TcpClient.connected_tail, TcpClient.handleError,
      TcpSocket.setNonBlocking, TcpSocket.lock, TcpSocket.isValid in H.
    run_sys.
    destruct ok; cbn in H.
    - split_ifs H; inversion H; subst; cbn; auto.
    - inversion H; subst; cbn; auto. }
  destruct Hfinal as (Hst & Hs' & Ho).
  split; [exact Hst|].
  unfold TcpClient.isValid, TcpSocket.isValid. rewrite Hs'.
  destruct (TcpClient.socket_answer sys =? INVALID_SOCKET) eqn:E.
  - left. apply Z.eqb_eq in E. auto.
  - right. apply Z.eqb_neq in E. repeat split; auto.
    destruct w' as [o f]. cbn in Ho. subst o. rewrite Hopen. apply is_open_head.
Qed.

(** C5 as stated fails.  A fresh server binds to a string that is not an
    address; the kernel hands out descriptor 3, [inet_pton] rejects the
    string, and [bind] returns false with descriptor 3 still open and still
    the server's handle. *)
Lemma C5_counterexample_bind_keeps_socket :
  match
    TcpServer.bind (TcpServer.mkBindSys 3 false true) "not-an-address" 8080
                   TcpServer.make (Sys.mkWorld [] [])
  with
  | Sys.Returns (ok, s) w =>
      ok = false /\ TcpServer.isValid s = true /\ Sys.is_open 3 w = true
  | _ => False
  end.
Proof. vm_compute. repeat split. Qed.

(** The same for a refused connection; the socket is also left in
    non-blocking mode. *)
Lemma TcpClient_refused_connect_keeps_socket :
  match
    TcpClient.connect (TcpClient.mkConnectSys 3 None true true TcpClient.ConnectRefused)
                      "10.0.0.1" 8080 TcpClient.make (Sys.mkWorld [] [])
  with
  | Sys.Returns (ok, c) w =>
      ok = false /\ TcpClient.isValid c = true /\ Sys.is_open 3 w = true
      /\ TcpSocket.nonBlocking_ (TcpClient.base c) = true
      /\ TcpClient.state_ c = Error
  | _ => False
  end.
Proof. vm_compute. repeat split. Qed.

(** [start] inherits the behaviour: when [::listen] fails after a
    successful [bind], it returns false with the socket bound and open. *)
Lemma TcpServer_start_listen_failure_keeps_socket :
  match
    TcpServer.start (TcpServer.mkBindSys 3 true true) false "127.0.0.1" 8080
                    TcpServer.make (Sys.mkWorld [] [])
  with
  | Sys.Returns (ok, s) w =>
      ok = false /\ TcpServer.isValid s = true /\ Sys.is_open 3 w = true
      /\ TcpServer.localPort_ s = 8080 /\ TcpServer.running_ s = false
  | _ => False
  end.
Proof. vm_compute. repeat split. Qed.

(** A second attempt after such a failure does not return: [create()]
    finds the socket valid and calls [close()] while holding [mutex_]. *)
Lemma TcpServer_bind_again_self_deadlock :
  match
    TcpServer.bind (TcpServer.mkBindSys 3 false true) "not-an-address" 8080
                   TcpServer.make (Sys.mkWorld [] [])
  with
  | Sys.Returns (_, s) w =>
      TcpServer.bind (TcpServer.mkBindSys 4 true true) "127.0.0.1" 8080 s w
      = Sys.SelfDeadlock
  | _ => False
  end.
Proof. vm_compute. reflexivity. Qed.

(** C5, amended.  When [TcpServer::bind], [TcpServer::listen] or
    [TcpClient::connect] returns false, a socket created during the attempt
    has not been torn down: unless the creation of the socket itself
    failed, the new descriptor is still open and is still the entity's
    valid handle when the call returns.  The handle is invalid after a
    failed [bind] or [connect] exactly when [::socket] failed; a [bind]
    refused because the server is running and a failed [listen] change
    nothing; a failed [connect] leaves the client in state [Error]. *)
Theorem C5_failed_calls_keep_socket :
  (forall sys address port s w s' w',
      TcpServer.bind sys address port s w = Sys.Returns (false, s') w' ->
      (TcpServer.running_ s = true /\ s' = s /\ w' = w)
      \/ (TcpServer.running_ s = false
          /\ TcpServer.socket_answer sys = INVALID_SOCKET
          /\ TcpServer.isValid s' = false
          /\ Sys.open_ w' = Sys.open_ w)
      \/ (TcpServer.running_ s = false
          /\ TcpServer.socket_answer sys <> INVALID_SOCKET
          /\ TcpSocket.socket_ (TcpServer.base s') = TcpServer.socket_answer sys
          /\ TcpServer.isValid s' = true
          /\ Sys.is_open (TcpServer.socket_answer sys) w' = true))
  /\ (forall listen_ok s w s' w',
         TcpServer.listen listen_ok s w = Sys.Returns (false, s') w' ->
         s' = s /\ w' = w)
  /\ (forall sys address port c w c' w',
         TcpClient.connect sys address port c w = Sys.Returns (false, c') w' ->
         TcpClient.state_ c' = Error
         /\ ((TcpClient.socket_answer sys = INVALID_SOCKET
              /\ TcpClient.isValid c' = false)
             \/ (TcpClient.socket_answer sys <> INVALID_SOCKET
                 /\ TcpSocket.socket_ (TcpClient.base c') = TcpClient.socket_answer sys
                 /\ TcpClient.isValid c' = true
                 /\ Sys.is_open (TcpClient.socket_answer sys) w' = true))).
Proof.
  split; [exact TcpServer_bind_failure|].
  split; [exact TcpServer_listen_failure | exact TcpClient_connect_failure].
Qed.

Lemma C5_failed_calls_witness :
  (exists s' w',
      TcpServer.bind (TcpServer.mkBindSys 3 true false) "127.0.0.1" 80
                     TcpServer.make (Sys.mkWorld [] [])
      = Sys.Returns (false, s') w'
      /\ TcpServer.isValid s' = true /\ Sys.is_open 3 w' = true)
  /\ (exists s' w',
         TcpServer.listen false TcpServer.make (Sys.mkWorld [] [])
         = Sys.Returns (false, s') w'
         /\ s' = TcpServer.make /\ w' = Sys.mkWorld [] [])
  /\ (exists c' w',
         TcpClient.connect
           (TcpClient.mkConnectSys 3 None true true
              (TcpClient.ConnectInProgress TcpClient.SelectTimeout))
           "10.0.0.1" 80 TcpClient.make (Sys.mkWorld [] [])
         = Sys.Returns (false, c') w'
         /\ TcpClient.state_ c' = Error
         /\ TcpClient.isValid c' = true /\ Sys.is_open 3 w' = true).
Proof.
  split; [|split].
  - assert (H : exists s' w',
               TcpServer.bind (TcpServer.mkBindSys 3 true false) "127.0.0.1" 80
                              TcpServer.make (Sys.mkWorld [] [])
               = Sys.Returns (false, s') w')
      by (vm_compute; eexists; eexists; reflexivity).
    destruct H as (s' & w' & H). exists s', w'. split; [exact H|].
    destruct (proj1 C5_failed_calls_keep_socket _ _ _ _ _ _ _ H)
      as [(Hr & _) | [(_ & Ha & _) | (_ & _ & _ & Hv & Ho)]].
    + discriminate Hr.
    + discriminate Ha.
    + split; [exact Hv | exact Ho].
  - assert (H : exists s' w',
               TcpServer.listen false TcpServer.make (Sys.mkWorld [] [])
               = Sys.Returns (false, s') w')
      by (vm_compute; eexists; eexists; reflexivity).
    destruct H as (s' & w' & H). exists s', w'. split; [exact H|].
    exact (proj1 (proj2 C5_failed_calls_keep_socket) _ _ _ _ _ H).
  - assert (H : exists c' w',
               TcpClient.connect
                 (TcpClient.mkConnectSys 3 None true true
                    (TcpClient.ConnectInProgress TcpClient.SelectTimeout))
                 "10.0.0.1" 80 TcpClient.make (Sys.mkWorld [] [])
               = Sys.Returns (false, c') w')
      by (vm_compute; eexists; eexists; reflexivity).
    destruct H as (c' & w' & H). exists c', w'. split; [exact H|].
    destruct (proj2 (proj2 C5_failed_calls_keep_socket) _ _ _ _ _ _ _ H)
      as (Hst & [(Ha & _) | (_ & _ & Hv & Ho)]).
    + discriminate Ha.
    + split; [exact Hst | split; [exact Hv | exact Ho]].
Defined.

(** * Further properties *)

(** ** The length field *)

Lemma writeLength_modulo f n :
  LPF.writeLength f [] (n mod 2 ^ (8 * LPF.getLengthSize f)) = LPF.writeLength f [] n.
Proof.
  destruct f as [lt be buf el lr].
  unfold LPF.writeLength, LPF.getLengthSize, wrap8, wrap16, wrap32, wrap64.
  cbn [LPF.lengthType_ LPF.bigEndian_].
  destruct lt; cbn [Z.mul];
    change (8 * 1) with 8; change (8 * 2) with 16;
    change (8 * 4) with 32; change (8 * 8) with 64;
    rewrite Z.mod_mod by lia; reflexivity.
Qed.

(** X1.  The length field is the length modulo [2 ^ (8 * width)]:
    [readLength] gives back what [writeLength] was given when that fits
    the field, and its low bytes otherwise, for each of the four widths and
    both byte orders. *)
Theorem lpf_readLength_writeLength_modulo f n tl :
  LPF.readLength f (LPF.writeLength f [] n ++ tl) 0
  = n mod 2 ^ (8 * LPF.getLengthSize f).
Proof.
  rewrite <- writeLength_modulo.
  apply readLength_writeLength.
  apply Z.mod_pos_bound.
  pose proof (getLengthSize_pos f). apply Z.pow_pos_nonneg; lia.
Qed.

(** ** Delimiter framing over several calls *)

Lemma df_unframe_loop_mono fuel :
  forall fuel' f acc r,
    (fuel <= fuel')%nat ->
    DF.unframe_loop fuel f acc = Some r ->
    DF.unframe_loop fuel' f acc = Some r.
Proof.
  induction fuel as [|fuel IH]; intros fuel' f acc r Hle H; [discriminate|].
  destruct fuel' as [|fuel']; [lia|].
  cbn [DF.unframe_loop] in *.
  destruct (DF.findDelimiter f (DF.buffer_ f) 0); [|exact H].
  apply IH; [lia | exact H].
Qed.

Lemma df_unframe_loop_deterministic fuel fuel' f acc r r' :
  DF.unframe_loop fuel f acc = Some r ->
  DF.unframe_loop fuel' f acc = Some r' ->
  r = r'.
Proof.
  intros H H'.
  apply (df_unframe_loop_mono _ (Nat.max fuel fuel')) in H; [|lia].
  apply (df_unframe_loop_mono _ (Nat.max fuel fuel')) in H'; [|lia].
  congruence.
Qed.

Lemma df_unframe_loop_acc fuel :
  forall f acc,
    DF.unframe_loop fuel f acc
    = option_map (fun r => (acc ++ fst r, snd r)) (DF.unframe_loop fuel f []).
Proof.
  induction fuel as [|fuel IH]; intros f acc; [reflexivity|].
  cbn [DF.unframe_loop].
  destruct (DF.findDelimiter f (DF.buffer_ f) 0) as [pos|];
    [|cbn; rewrite app_nil_r; reflexivity].
  match goal with
  | |- DF.unframe_loop fuel ?g (acc ++ ?m) = _ =>
      rewrite (IH g (acc ++ m)), (IH g ([] ++ m));
      destruct (DF.unframe_loop fuel g []) as [[ms g']|]; cbn;
      [rewrite <- app_assoc; reflexivity | reflexivity]
  end.
Qed.

(** Bytes behind the compared range do not matter. *)
Lemma std_equal_app d : forall u v,
  (length d <= length u)%nat -> DF.std_equal d (u ++ v) = DF.std_equal d u.
Proof.
  induction d as [|x d IH]; intros u v H; [reflexivity|].
  destruct u as [|y u]; [cbn in H; lia|].
  cbn. rewrite IH by (cbn in H; lia). reflexivity.
Qed.

(** The first match is the least one. *)
Lemma find_from_least d data count :
  forall i p,
    DF.find_from d data count i = Some p ->
    DF.std_equal d (skipn p data) = true
    /\ forall j, (i <= j < p)%nat -> DF.std_equal d (skipn j data) = false.
Proof.
  induction count as [|count IH]; intros i p H; [discriminate|].
  cbn in H. destruct (DF.std_equal d (skipn i data)) eqn:E.
  - inversion H; subst. split; [exact E | intros j Hj; lia].
  - apply IH in H. destruct H as [Hp Hno]. split; [exact Hp|].
    intros j Hj. destruct (Nat.eq_dec j i) as [->|]; [exact E | apply Hno; lia].
Qed.

Lemma find_from_none d data count :
  forall i,
    (forall j, (i <= j < i + count)%nat -> DF.std_equal d (skipn j data) = false) ->
    DF.find_from d data count i = None.
Proof.
  induction count as [|count IH]; intros i H; [reflexivity|].
  cbn. rewrite (H i) by lia. apply IH. intros j Hj. apply H. lia.
Qed.

Lemma find_from_none_inv d data count :
  forall i,
    DF.find_from d data count i = None ->
    forall j, (i <= j < i + count)%nat -> DF.std_equal d (skipn j data) = false.
Proof.
  induction count as [|count IH]; intros i H j Hj; [lia|].
  cbn in H. destruct (DF.std_equal d (skipn i data)) eqn:E; [discriminate|].
  destruct (Nat.eq_dec j i) as [->|]; [exact E|].
  apply (IH (S i)); [exact H | lia].
Qed.

(** What [findDelimiter] finds: the least position at which the delimiter
    occurs. *)
Lemma findDelimiter_some f data p :
  DF.findDelimiter f data 0 = Some p ->
  (0 < length (DF.delimiter_ f))%nat
  /\ (p + length (DF.delimiter_ f) <= length data)%nat
  /\ DF.std_equal (DF.delimiter_ f) (skipn p data) = true
  /\ forall j, (j < p)%nat -> DF.std_equal (DF.delimiter_ f) (skipn j data) = false.
Proof.
  intros H. destruct (findDelimiter_range _ _ _ H) as [Hd Hp].
  split; [exact Hd|]. split; [exact Hp|].
  unfold DF.findDelimiter in H.
  destruct (length (DF.delimiter_ f) =? 0)%nat; [discriminate|].
  destruct (length data <? length (DF.delimiter_ f))%nat; [discriminate|].
  cbn [orb] in H. apply find_from_least in H. destruct H as [Hyes Hno].
  split; [exact Hyes|]. intros j Hj. apply Hno. lia.
Qed.

Lemma findDelimiter_first f data p :
  (0 < length (DF.delimiter_ f))%nat ->
  (p + length (DF.delimiter_ f) <= length data)%nat ->
  DF.std_equal (DF.delimiter_ f) (skipn p data) = true ->
  (forall j, (j < p)%nat -> DF.std_equal (DF.delimiter_ f) (skipn j data) = false) ->
  DF.findDelimiter f data 0 = Some p.
Proof.
  intros Hd Hp Hyes Hno. unfold DF.findDelimiter.
  replace (length (DF.delimiter_ f) =? 0)%nat with false
    by (symmetry; apply Nat.eqb_neq; lia).
  replace (length data <? length (DF.delimiter_ f))%nat with false
    by (symmetry; apply Nat.ltb_ge; lia).
  cbn [orb]. rewrite Nat.sub_0_r.
  apply (find_from_first _ _ p _ 0%nat).
  - intros j Hj. apply Hno. lia.
  - exact Hyes.
  - lia.
Qed.

Lemma findDelimiter_none f data :
  DF.findDelimiter f data 0 = None ->
  forall j, (0 < length (DF.delimiter_ f))%nat ->
            (j + length (DF.delimiter_ f) <= length data)%nat ->
            DF.std_equal (DF.delimiter_ f) (skipn j data) = false.
Proof.
  unfold DF.findDelimiter. intros H j Hd Hj.
  replace (length (DF.delimiter_ f) =? 0)%nat with false in H
    by (symmetry; apply Nat.eqb_neq; lia).
  replace (length data <? length (DF.delimiter_ f))%nat with false in H
    by (symmetry; apply Nat.ltb_ge; lia).
  cbn [orb] in H. rewrite Nat.sub_0_r in H.
  apply (find_from_none_inv _ _ _ _ H). lia.
Qed.

Lemma findDelimiter_config d incl incl' buf buf' data :
  DF.findDelimiter (DF.mk d incl buf) data 0 = DF.findDelimiter (DF.mk d incl' buf') data 0.
Proof. reflexivity. Qed.

(** A match found in the buffered bytes is found again when more bytes
    follow them. *)
Lemma findDelimiter_app f X b p :
  DF.findDelimiter f X 0 = Some p ->
  DF.findDelimiter f (X ++ b) 0 = Some p.
Proof.
  intros H. apply findDelimiter_some in H. destruct H as (Hd & Hp & Hyes & Hno).
  apply findDelimiter_first.
  - exact Hd.
  - rewrite length_app. lia.
  - rewrite skipn_app_le by lia. rewrite std_equal_app; [exact Hyes|].
    rewrite length_skipn. lia.
  - intros j Hj. rewrite skipn_app_le by lia.
    rewrite std_equal_app; [apply Hno; exact Hj|].
    rewrite length_skipn. lia.
Qed.

(** Bytes that arrive later are absorbed: running the loop on [X], then
    again with [b] appended to what was left, gives what running it on
    [X ++ b] gives. *)
Lemma df_absorb k :
  forall d incl X acc m1 f1 b fuel2 r,
    DF.unframe_loop k (DF.mk d incl X) acc = Some (m1, f1) ->
    DF.unframe_loop fuel2 (DF.mk d incl (DF.buffer_ f1 ++ b)) m1 = Some r ->
    exists fuel, DF.unframe_loop fuel (DF.mk d incl (X ++ b)) acc = Some r.
Proof.
  induction k as [|k IH]; intros d incl X acc m1 f1 b fuel2 r H1 H2; [discriminate|].
  cbn [DF.unframe_loop DF.buffer_ DF.delimiter_ DF.includeDelimiter_] in H1.
  destruct (DF.findDelimiter (DF.mk d incl X) X 0) as [pos|] eqn:E.
  - pose proof (findDelimiter_some _ _ _ E) as (Hd & Hp & _).
    cbn [DF.delimiter_] in Hd, Hp.
    destruct (IH _ _ _ _ _ _ b _ _ H1 H2) as [fuel Hf].
    exists (S fuel).
    cbn [DF.unframe_loop DF.buffer_ DF.delimiter_ DF.includeDelimiter_].
    rewrite (findDelimiter_config d incl incl (X ++ b) X).
    rewrite (findDelimiter_app _ _ b _ E).
    rewrite firstn_app_le by lia.
    rewrite skipn_app_le by lia.
    exact Hf.
  - inversion H1; subst. cbn [DF.buffer_] in H2. exists fuel2. exact H2.
Qed.

Lemma df_unframe_loop_config fuel :
  forall f acc ms f',
    DF.unframe_loop fuel f acc = Some (ms, f') ->
    DF.delimiter_ f' = DF.delimiter_ f
    /\ DF.includeDelimiter_ f' = DF.includeDelimiter_ f.
Proof.
  induction fuel as [|fuel IH]; intros f acc ms f' H; [discriminate|].
  cbn [DF.unframe_loop] in H.
  destruct (DF.findDelimiter f (DF.buffer_ f) 0).
  - apply IH in H. cbn in H. exact H.
  - inversion H; subst. auto.
Qed.

(** Two calls against one. *)
Lemma df_two_chunks f a b m1 f1 m2 f2 :
  DF.unframe f a = Some (m1, f1) ->
  DF.unframe f1 b = Some (m2, f2) ->
  DF.unframe f (a ++ b) = Some (m1 ++ m2, f2).
Proof.
  intros H1 H2.
  unfold DF.unframe in H1. pose proof (df_unframe_loop_config _ _ _ _ _ H1) as [Hd1 Hi1].
  destruct f as [d incl X]. destruct f1 as [d1 incl1 X1].
  cbn in Hd1, Hi1. subst d1 incl1.
  unfold DF.unframe in H2.
  cbn [DF.buffer_ DF.delimiter_ DF.includeDelimiter_] in H1, H2.
  assert (H2' : DF.unframe_loop (DF.unframe_fuel (DF.mk d incl (X1 ++ b)))
                  (DF.mk d incl (X1 ++ b)) m1
                = Some (m1 ++ m2, f2)).
  { rewrite df_unframe_loop_acc, H2. reflexivity. }
  destruct (df_absorb _ _ _ _ _ _ _ b _ _ H1 H2') as [fuel Hf].
  destruct (df_unframe_total (DF.mk d incl X) (a ++ b)) as [r Hr].
  rewrite Hr. f_equal.
  unfold DF.unframe in Hr.
  cbn [DF.buffer_ DF.delimiter_ DF.includeDelimiter_] in Hr.
  rewrite app_assoc in Hr.
  eapply df_unframe_loop_deterministic; eassumption.
Qed.

(** X4.  Chunk invariance holds for the delimiter framer, whatever the
    delimiter and the bytes already buffered: however the incoming bytes
    are cut into chunks, one [unframe] call per chunk emits, over the
    calls, the messages that a single call on all the bytes emits, and
    leaves the same framer. *)
Theorem df_chunk_invariance chunks :
  forall f c,
    exists mss f',
      DF.feed f (c :: chunks) = Some (mss, f')
      /\ DF.unframe f (concat (c :: chunks)) = Some (concat mss, f').
Proof.
  induction chunks as [|c' rest IH]; intros f c.
  - destruct (df_unframe_total f c) as [[m f1] H].
    exists [m], f1. cbn [DF.feed concat]. rewrite !app_nil_r, H. auto.
  - destruct (df_unframe_total f c) as [[m1 f1] H1].
    destruct (IH f1 c') as (mss & f' & Hfeed & Hone).
    exists (m1 :: mss), f'. split.
    + change (DF.feed f (c :: c' :: rest))
        with (match DF.unframe f c with
              | None => None
              | Some (ms, f0) =>
                  match DF.feed f0 (c' :: rest) with
                  | None => None
                  | Some (mss0, f'') => Some (ms :: mss0, f'')
                  end
              end).
      rewrite H1, Hfeed. reflexivity.
    + change (concat (c :: c' :: rest)) with (c ++ concat (c' :: rest)).
      cbn [concat]. eapply df_two_chunks; eassumption.
Qed.

(** ** What the delimiter framer emits and what it keeps *)

Lemma findDelimiter_prefix_none f buf p :
  DF.findDelimiter f buf 0 = Some p ->
  DF.findDelimiter f (firstn p buf) 0 = None.
Proof.
  intros H. apply findDelimiter_some in H. destruct H as (Hd & Hp & _ & Hno).
  unfold DF.findDelimiter.
  destruct ((length (DF.delimiter_ f) =? 0)%nat
            || (length (firstn p buf) <? length (DF.delimiter_ f))%nat) eqn:E;
    [reflexivity|].
  apply orb_false_iff in E. destruct E as [_ E]. apply Nat.ltb_ge in E.
  rewrite length_firstn in E.
  apply find_from_none. intros j Hj. rewrite length_firstn in Hj.
  assert (Hjp : (j + length (DF.delimiter_ f) <= p)%nat) by lia.
  rewrite <- (Hno j) by lia.
  rewrite <- (firstn_skipn p buf) at 2.
  rewrite skipn_app_le by (rewrite length_firstn; lia).
  rewrite std_equal_app; [reflexivity|].
  rewrite length_skipn, length_firstn. lia.
Qed.

Lemma findDelimiter_split f buf p :
  DF.findDelimiter f buf 0 = Some p ->
  buf = firstn p buf ++ DF.delimiter_ f ++ skipn (p + length (DF.delimiter_ f)) buf.
Proof.
  intros H. apply findDelimiter_some in H. destruct H as (_ & _ & Hyes & _).
  apply std_equal_spec in Hyes.
  rewrite <- (firstn_skipn p buf) at 1. f_equal.
  rewrite <- (firstn_skipn (length (DF.delimiter_ f)) (skipn p buf)) at 1.
  rewrite Hyes, skipn_skipn. f_equal. f_equal. lia.
Qed.

(** The loop of [unframe]: the messages it adds, each with its delimiter,
    followed by the bytes it keeps, are the bytes it started with; no
    payload contains the delimiter, and the bytes kept do not either. *)
Lemma df_unframe_loop_spec fuel :
  forall d incl X acc ms f',
    DF.unframe_loop fuel (DF.mk d incl X) acc = Some (ms, f') ->
    exists payloads,
      ms = acc ++ map (fun p => if incl then p ++ d else p) payloads
      /\ concat (map (fun p => p ++ d) payloads) ++ DF.buffer_ f' = X
      /\ Forall (fun p => DF.findDelimiter (DF.mk d incl []) p 0 = None) payloads
      /\ DF.findDelimiter f' (DF.buffer_ f') 0 = None.
Proof.
  induction fuel as [|fuel IH]; intros d incl X acc ms f' H; [discriminate|].
  cbn [DF.unframe_loop DF.buffer_ DF.delimiter_ DF.includeDelimiter_] in H.
  destruct (DF.findDelimiter (DF.mk d incl X) X 0) as [pos|] eqn:E.
  - apply IH in H. destruct H as (payloads & Hms & Hcat & Hfree & Hleft).
    exists (firstn pos X :: payloads).
    split; [|split; [|split]].
    + rewrite Hms, <- app_assoc. reflexivity.
    + cbn [map concat]. rewrite <- !app_assoc, Hcat.
      symmetry. apply (findDelimiter_split _ _ _ E).
    + constructor; [|exact Hfree].
      rewrite (findDelimiter_config d incl incl [] X).
      apply findDelimiter_prefix_none. exact E.
    + exact Hleft.
  - inversion H; subst. exists []. cbn [map concat app DF.buffer_].
    rewrite app_nil_r. split; [reflexivity|]. split; [reflexivity|].
    split; [constructor | exact E].
Qed.

(** X5.  [DelimiterFramer::unframe] neither drops nor invents bytes: the
    messages of a call, each followed by the delimiter (which the message
    already ends with when [includeDelimiter_] is set), and then the bytes
    left in the buffer, are the bytes buffered before the call followed by
    the bytes passed in. *)
Theorem df_unframe_conserves_bytes f data :
  exists ms f',
    DF.unframe f data = Some (ms, f')
    /\ concat (map (fun m => if DF.includeDelimiter_ f then m else m ++ DF.delimiter_ f) ms)
       ++ DF.buffer_ f'
       = DF.buffer_ f ++ data.
Proof.
  destruct (df_unframe_total f data) as [[ms f'] H].
  exists ms, f'. split; [exact H|].
  unfold DF.unframe in H. apply df_unframe_loop_spec in H.
  destruct H as (payloads & Hms & Hcat & _ & _).
  cbn [app] in Hms. subst ms. rewrite <- Hcat. f_equal. f_equal.
  rewrite map_map. apply map_ext. intros p.
  destruct (DF.includeDelimiter_ f); reflexivity.
Qed.

(** X6.  [DelimiterFramer::unframe] cuts at every delimiter, leftmost
    first: no payload it emits contains the delimiter, and after the call
    [isComplete] is false on the bytes left in the buffer, so no complete
    message stays behind. *)
Theorem df_unframe_leaves_no_message f data :
  exists ms f',
    DF.unframe f data = Some (ms, f')
    /\ DF.isComplete f' (DF.buffer_ f') = false
    /\ Forall (fun m =>
                 exists payload,
                   m = (if DF.includeDelimiter_ f
                        then payload ++ DF.delimiter_ f else payload)
                   /\ DF.isComplete f payload = false) ms.
Proof.
  destruct (df_unframe_total f data) as [[ms f'] H].
  exists ms, f'. split; [exact H|].
  unfold DF.unframe in H. apply df_unframe_loop_spec in H.
  destruct H as (payloads & Hms & _ & Hfree & Hleft).
  split.
  - unfold DF.isComplete. rewrite Hleft. reflexivity.
  - cbn [app] in Hms. subst ms. apply Forall_map.
    eapply Forall_impl; [|exact Hfree].
    intros p Hp. exists p. split; [reflexivity|].
    unfold DF.isComplete.
    destruct f as [d incl X]. cbn [DF.delimiter_ DF.includeDelimiter_].
    rewrite (findDelimiter_config d incl incl X []). 
    cbn [DF.delimiter_ DF.includeDelimiter_] in Hp. rewrite Hp. reflexivity.
Qed.

(** ** [isComplete], [reset] and short chunks *)

(** X7.  On a fresh length-prefixed framer [isComplete] predicts
    [unframe]: when it is true, [unframe] on the same bytes emits a first
    message, the payload that the length field announces; when it is
    false, [unframe] emits nothing.  (The length field is taken not to
    overflow [size_t] when the width of the header is added.) *)
Theorem lpf_isComplete_predicts_unframe lt be data :
  let f := LPF.make lt be in
  let L := LPF.getLengthSize f in
  let e := LPF.readLength f data 0 in
  0 <= e -> L + e <= SIZE_MAX ->
  (LPF.isComplete f data = true ->
   exists ms f',
     LPF.unframe f data
     = Some (firstn (Z.to_nat e) (skipn (Z.to_nat L) data) :: ms, f'))
  /\ (LPF.isComplete f data = false ->
      exists f', LPF.unframe f data = Some ([], f')).
Proof.
  intros f L e He Hfit.
  pose proof (getLengthSize_pos f) as HL. fold L in HL.
  assert (HLeq : forall b x r, LPF.getLengthSize (LPF.mk lt be b x r) = L) by reflexivity.
  assert (HReq : forall b x r, LPF.readLength (LPF.mk lt be b x r) data 0 = e) by reflexivity.
  unfold LPF.isComplete, LPF.unframe, LPF.unframe_fuel. fold L. fold e.
  cbn [LPF.make LPF.buffer_ LPF.lengthType_ LPF.bigEndian_ LPF.expectedLength_
       LPF.lengthReceived_ app f].
  replace (2 * length data + 3)%nat with (S (2 * length data + 2)) by lia.
  cbn [LPF.unframe_loop LPF.buffer_ LPF.lengthReceived_ negb LPF.lengthType_
       LPF.bigEndian_].
  rewrite !HLeq, HReq.
  destruct (size data <? L) eqn:Hsz.
  - split; [discriminate | intros _; eauto].
  - apply Z.ltb_ge in Hsz.
    replace (L <=? size data) with true by (symmetry; apply Z.leb_le; lia).
    cbn [LPF.buffer_ LPF.lengthReceived_ LPF.expectedLength_ LPF.lengthType_
         LPF.bigEndian_ andb].
    rewrite (wrap64_small (L + e)) by lia.
    assert (Hskip : size (skipn (Z.to_nat L) data) = size data - L).
    { unfold size in *. rewrite length_skipn. lia. }
    rewrite Hskip.
    destruct (e <=? size data - L) eqn:Hemit.
    + apply Z.leb_le in Hemit.
      replace (L + e <=? size data) with true by (symmetry; apply Z.leb_le; lia).
      split; [intros _ | discriminate].
      rewrite lpf_unframe_loop_acc.
      match goal with
      | |- context [LPF.unframe_loop ?k ?g []] =>
          destruct (lpf_unframe_loop_fuel k g []) as [[ms f'] Hr]
      end.
      { unfold LPF.measure. cbn [LPF.buffer_ LPF.lengthReceived_].
        rewrite !length_skipn. lia. }
      rewrite Hr. cbn. eauto.
    + apply Z.leb_gt in Hemit.
      replace (L + e <=? size data) with false by (symmetry; apply Z.leb_gt; lia).
      split; [discriminate | intros _; eauto].
Qed.

Lemma lpf_isComplete_predicts_unframe_witness :
  let f := LPF.make LPF.UInt16 true in
  let data := [0; 2; 7; 8; 9] in
  0 <= LPF.readLength f data 0
  /\ LPF.getLengthSize f + LPF.readLength f data 0 <= SIZE_MAX
  /\ LPF.isComplete f data = true
  /\ exists ms f', LPF.unframe f data = Some ([7; 8] :: ms, f').
Proof.
  cbn zeta.
  assert (H1 : 0 <= LPF.readLength (LPF.make LPF.UInt16 true) [0; 2; 7; 8; 9] 0)
    by (vm_compute; discriminate).
  assert (H2 : LPF.getLengthSize (LPF.make LPF.UInt16 true)
               + LPF.readLength (LPF.make LPF.UInt16 true) [0; 2; 7; 8; 9] 0 <= SIZE_MAX)
    by (vm_compute; discriminate).
  assert (H3 : LPF.isComplete (LPF.make LPF.UInt16 true) [0; 2; 7; 8; 9] = true)
    by reflexivity.
  split; [exact H1|]. split; [exact H2|]. split; [exact H3|].
  exact (proj1 (lpf_isComplete_predicts_unframe LPF.UInt16 true [0; 2; 7; 8; 9] H1 H2) H3).
Defined.

(** X8.  [reset()] makes a framer forget the bytes it holds and the
    header it has read: whatever state it was in, the next frame passed to
    [unframe] comes out as its message, as from a new framer. *)
Theorem lpf_reset_then_frame f M :
  size M < 2 ^ (8 * LPF.getLengthSize f) ->
  LPF.unframe (LPF.reset f) (LPF.frame f M) = Some ([M], LPF.reset f).
Proof.
  destruct f as [lt be buf el lr]. intros HM.
  exact (lpf_unframe_frame lt be M HM).
Qed.

Lemma lpf_reset_then_frame_witness :
  let f := LPF.mk LPF.UInt32 false [9; 9; 9] 1000 true in
  size [1; 2; 3] < 2 ^ (8 * LPF.getLengthSize f)
  /\ LPF.unframe (LPF.reset f) (LPF.frame f [1; 2; 3]) = Some ([[1; 2; 3]], LPF.reset f).
Proof.
  cbn zeta.
  assert (H : size [1; 2; 3]
              < 2 ^ (8 * LPF.getLengthSize (LPF.mk LPF.UInt32 false [9; 9; 9] 1000 true)))
    by (vm_compute; reflexivity).
  split; [exact H|].
  exact (lpf_reset_then_frame (LPF.mk LPF.UInt32 false [9; 9; 9] 1000 true) [1; 2; 3] H).
Defined.

(** ** Splitting and concatenating buffers *)

Lemma concatenateBuffers_acc (buffers : list (list Z)) :
  forall acc, fold_left (fun result buffer => result ++ buffer) buffers acc
              = acc ++ concat buffers.
Proof.
  induction buffers as [|b rest IH]; intros acc; cbn [fold_left concat].
  - rewrite app_nil_r. reflexivity.
  - rewrite IH, app_assoc. reflexivity.
Qed.

Lemma concatenateBuffers_concat buffers :
  BufferManager.concatenateBuffers buffers = concat buffers.
Proof. unfold BufferManager.concatenateBuffers. apply concatenateBuffers_acc. Qed.

(** The loop of [splitBuffer] from index [i] on, where [i] is a multiple of
    the chunk size. *)
Lemma splitBuffer_loop_spec fuel :
  forall buffer chunkSize i chunks,
    0 < chunkSize <= SIZE_MAX ->
    size buffer <= CB.MAX_SIZE ->
    0 <= i <= SIZE_MAX ->
    i = 0 \/ chunkSize <= i ->
    (length buffer - Z.to_nat i < fuel)%nat ->
    exists tail,
      BufferManager.splitBuffer_loop fuel buffer chunkSize i chunks = Some (chunks ++ tail)
      /\ concat tail = skipn (Z.to_nat i) buffer
      /\ Forall (fun c => 0 < size c <= chunkSize) tail
      /\ Forall (fun c => size c = chunkSize) (removelast tail).
Proof.
  induction fuel as [|fuel IH]; intros buffer cs i chunks Hcs Hmax Hi Hmult Hfuel; [lia|].
  cbn [BufferManager.splitBuffer_loop].
  destruct (i <? size buffer) eqn:Hlt.
  - apply Z.ltb_lt in Hlt.
    assert (Hsum : 0 <= i + cs <= SIZE_MAX)
      by (unfold SIZE_MAX, CB.MAX_SIZE in *; lia).
    rewrite (wrap64_small (i + cs)) by exact Hsum.
    unfold size in Hlt.
    destruct (IH buffer cs (i + cs)
                 (chunks ++ [firstn (Z.to_nat (Z.min (i + cs) (size buffer) - i))
                                    (skipn (Z.to_nat i) buffer)]))
      as (tail & Hrun & Hcat & Hsizes & Hfull); try lia.
    set (chunk := firstn (Z.to_nat (Z.min (i + cs) (size buffer) - i))
                         (skipn (Z.to_nat i) buffer)) in *.
    assert (Hchunk : size chunk = Z.min cs (size buffer - i)).
    { unfold chunk, size. rewrite length_firstn, length_skipn. lia. }
    exists (chunk :: tail).
    split; [rewrite Hrun, <- app_assoc; reflexivity|].
    split; [|split].
    + cbn [concat]. rewrite Hcat. unfold chunk.
      destruct (Z_le_gt_dec (i + cs) (size buffer)) as [Hin|Hout].
      * rewrite Z.min_l by lia.
        replace (Z.to_nat (i + cs)) with (Z.to_nat cs + Z.to_nat i)%nat by lia.
        rewrite <- skipn_skipn.
        replace (Z.to_nat (i + cs - i)) with (Z.to_nat cs) by lia.
        apply firstn_skipn.
      * rewrite Z.min_r by lia.
        rewrite (skipn_all2 (n := Z.to_nat (i + cs))) by (unfold size in Hout; lia).
        rewrite app_nil_r. apply firstn_all2.
        rewrite length_skipn. unfold size. lia.
    + constructor; [unfold size in *; lia | exact Hsizes].
    + destruct tail as [|c tail']; [constructor|].
      change (removelast (chunk :: c :: tail')) with (chunk :: removelast (c :: tail')).
      constructor; [|exact Hfull].
      assert (Hc : 0 < size c) by (inversion Hsizes; lia).
      assert (Hrest : (0 < length (skipn (Z.to_nat (i + cs)) buffer))%nat).
      { rewrite <- Hcat. cbn [concat]. rewrite length_app. unfold size in Hc. lia. }
      rewrite length_skipn in Hrest. unfold size in *. lia.
  - apply Z.ltb_ge in Hlt. exists []. rewrite app_nil_r.
    split; [reflexivity|]. split; [|split; constructor].
    symmetry. apply skipn_all2. unfold size in Hlt. lia.
Qed.

(** X9.  [splitBuffer] and [concatenateBuffers] are inverse to each other
    for a chunk size that is not zero: [splitBuffer] returns, the chunks
    put together again are the buffer, no chunk is empty or longer than the
    chunk size, and every chunk but the last has exactly that size. *)
Theorem splitBuffer_concatenateBuffers buffer chunkSize :
  0 < chunkSize <= SIZE_MAX ->
  size buffer <= CB.MAX_SIZE ->
  exists chunks,
    BufferManager.splitBuffer buffer chunkSize = Some chunks
    /\ BufferManager.concatenateBuffers chunks = buffer
    /\ Forall (fun c => 0 < size c <= chunkSize) chunks
    /\ Forall (fun c => size c = chunkSize) (removelast chunks).
Proof.
  intros Hcs Hmax.
  destruct (splitBuffer_loop_spec (S (length buffer)) buffer chunkSize 0 [] Hcs Hmax)
    as (chunks & Hrun & Hcat & Hsizes & Hfull);
    [unfold SIZE_MAX; lia | left; reflexivity | lia |].
  exists chunks. split; [exact Hrun|].
  split; [rewrite concatenateBuffers_concat; exact Hcat|].
  split; assumption.
Qed.

Lemma splitBuffer_concatenateBuffers_witness :
  0 < 2 <= SIZE_MAX
  /\ size [1; 2; 3; 4; 5] <= CB.MAX_SIZE
  /\ exists chunks,
       BufferManager.splitBuffer [1; 2; 3; 4; 5] 2 = Some chunks
       /\ BufferManager.concatenateBuffers chunks = [1; 2; 3; 4; 5]
       /\ Forall (fun c => 0 < size c <= 2) chunks
       /\ Forall (fun c => size c = 2) (removelast chunks).
Proof.
  assert (H1 : 0 < 2 <= SIZE_MAX) by (unfold SIZE_MAX; lia).
  assert (H2 : size [1; 2; 3; 4; 5] <= CB.MAX_SIZE) by (vm_compute; discriminate).
  split; [exact H1|]. split; [exact H2|].
  exact (splitBuffer_concatenateBuffers [1; 2; 3; 4; 5] 2 H1 H2).
Defined.

(** X10.  With a chunk size of zero [splitBuffer] does not return on a
    buffer that is not empty: the index stays at zero, below the size, and
    no number of iterations ends the loop, each of them adding one more
    empty chunk. *)
Theorem splitBuffer_zero_chunkSize_never_returns buffer :
  buffer <> [] ->
  forall fuel chunks, BufferManager.splitBuffer_loop fuel buffer 0 0 chunks = None.
Proof.
  intros Hne fuel. induction fuel as [|fuel IH]; intros chunks; [reflexivity|].
  cbn [BufferManager.splitBuffer_loop].
  replace (0 <? size buffer) with true.
  - change (wrap64 (0 + 0)) with 0. apply IH.
  - symmetry. apply Z.ltb_lt. destruct buffer; [congruence | unfold size; cbn; lia].
Qed.

Lemma splitBuffer_zero_chunkSize_never_returns_witness :
  [7] <> [] /\ BufferManager.splitBuffer_loop 1000 [7] 0 0 [] = None.
Proof.
  assert (H : [7] <> @nil Z) by discriminate.
  split; [exact H|].
  exact (splitBuffer_zero_chunkSize_never_returns [7] H 1000%nat []).
Defined.

(** ** The circular buffer as a bounded queue *)

Lemma cb_contents_size b : CB.wf b -> size (CB.contents b) = CB.size_ b.
Proof.
  intros (_ & _ & Hsz & _). unfold size. rewrite cb_contents_length. lia.
Qed.

(** One call on a well-formed buffer does what the same call does on the
    queue of the bytes held. *)
Lemma cb_apply_spec o b :
  CB.wf b -> 0 < CB.capacity_ b -> CB.op_ok o ->
  exists n dest b',
    CB.apply o b = Some (n, dest, b')
    /\ CB.wf b'
    /\ CB.capacity_ b' = CB.capacity_ b
    /\ (n, dest, CB.contents b') = CB.queue_apply (CB.capacity_ b) o (CB.contents b).
Proof.
  intros Hwf Hc Hok.
  pose proof Hwf as (Hlen & Hmax & Hsz & Hzero & Hpos).
  pose proof (cb_contents_size b Hwf) as Hq.
  destruct o as [src n|n|n|n|]; cbn [CB.op_ok] in Hok;
    cbn [CB.apply CB.queue_apply]; rewrite ?Hq.
  - (* write *)
    destruct Hok as [Hn Hsrc].
    unfold CB.write.
    rewrite (wrap64_small (CB.capacity_ b - CB.size_ b))
      by (unfold SIZE_MAX, CB.MAX_SIZE in *; lia).
    set (w := Z.min n (CB.capacity_ b - CB.size_ b)).
    destruct (write_loop_spec (Z.to_nat w) 0 src b Hwf)
      as (b' & Hrun & Hwf' & Hcap' & _ & Hcont'); [lia | lia |].
    rewrite Hrun. exists w, [], b'.
    split; [reflexivity|]. split; [assumption|]. split; [assumption|].
    rewrite Hcont'. rewrite map_at_seq by (unfold size in Hsrc; lia). reflexivity.
  - (* read *)
    unfold CB.read. set (r := Z.min n (CB.size_ b)).
    destruct (read_loop_spec (Z.to_nat r) [] b Hwf)
      as (b' & Hrun & Hwf' & Hcap' & _ & Hcont'); [lia|].
    rewrite Hrun. exists r, (firstn (Z.to_nat r) (CB.contents b)), b'.
    split; [reflexivity|]. split; [assumption|]. split; [assumption|].
    rewrite Hcont'. reflexivity.
  - (* peek *)
    unfold CB.peek. set (r := Z.min n (CB.size_ b)).
    rewrite peek_loop_spec; [| right; lia | destruct (Hpos Hc); lia].
    exists r, (firstn (Z.to_nat r) (CB.contents b)), b.
    cbn [app]. unfold CB.contents at 1. rewrite <- cells_firstn with (n := Z.to_nat (CB.size_ b)) by lia.
    split; [reflexivity|]. split; [assumption|]. split; reflexivity.
  - (* skip *)
    destruct (Hpos Hc) as (Hh & Ht).
    unfold CB.skip, CB.umod. set (r := Z.min n (CB.size_ b)).
    replace (CB.capacity_ b =? 0) with false by (symmetry; apply Z.eqb_neq; lia).
    rewrite (wrap64_small (CB.head_ b + r)) by (unfold SIZE_MAX, CB.MAX_SIZE in *; lia).
    rewrite (wrap64_small (CB.size_ b - r)) by (unfold SIZE_MAX, CB.MAX_SIZE in *; lia).
    eexists 0, [], _. split; [reflexivity|].
    cbn [CB.buffer_ CB.capacity_ CB.size_ CB.head_ CB.tail_].
    split; [|split; [reflexivity|]].
    + unfold CB.wf. cbn [CB.buffer_ CB.capacity_ CB.size_ CB.head_ CB.tail_].
      split; [exact Hlen|]. split; [lia|]. split; [lia|]. split; [intros; lia|].
      intros _. split; [apply Z.mod_pos_bound; lia|].
      rewrite Ht, Z.add_mod_idemp_l by lia. f_equal. lia.
    + f_equal. unfold CB.contents. cbn [CB.buffer_ CB.capacity_ CB.size_ CB.head_].
      rewrite cells_skipn by lia. rewrite Z2Nat.id by lia.
      f_equal. lia.
  - (* clear *)
    exists 0, [], (CB.clear b). split; [reflexivity|].
    unfold CB.clear, CB.contents.
    cbn [CB.buffer_ CB.capacity_ CB.size_ CB.head_ CB.tail_ Z.to_nat CB.cells].
    split; [|split; reflexivity].
    unfold CB.wf. cbn [CB.buffer_ CB.capacity_ CB.size_ CB.head_ CB.tail_].
    split; [exact Hlen|]. split; [lia|]. split; [lia|]. split; [tauto|].
    intros _. split; [lia|]. symmetry. apply Z.mod_0_l. lia.
Qed.

Lemma cb_run_spec ops :
  forall b,
    CB.wf b -> 0 < CB.capacity_ b -> Forall CB.op_ok ops ->
    exists b',
      CB.run ops b = Some (fst (CB.queue_run (CB.capacity_ b) ops (CB.contents b)), b')
      /\ CB.contents b' = snd (CB.queue_run (CB.capacity_ b) ops (CB.contents b))
      /\ CB.wf b'
      /\ CB.capacity_ b' = CB.capacity_ b.
Proof.
  induction ops as [|o rest IH]; intros b Hwf Hc Hok.
  - exists b. cbn. auto.
  - inversion Hok as [|? ? Ho Hrest]; subst.
    destruct (cb_apply_spec o b Hwf Hc Ho) as (n & dest & b1 & Hrun & Hwf1 & Hcap1 & Hq).
    destruct (IH b1 Hwf1 ltac:(lia) Hrest) as (b2 & Hrun2 & Hcont2 & Hwf2 & Hcap2).
    exists b2. cbn [CB.run CB.queue_run]. rewrite Hrun, Hrun2.
    rewrite <- Hq. rewrite Hcap1 in *.
    destruct (CB.queue_run (CB.capacity_ b) rest (CB.contents b1)) as [answers q'] eqn:E.
    cbn [fst snd] in *. split; [reflexivity|]. split; [exact Hcont2|].
    split; [exact Hwf2 | lia].
Qed.

(** X11.  A [CircularBuffer] constructed with a capacity that is not zero
    is a bounded first-in first-out queue: over every sequence of [write],
    [read], [peek], [skip] and [clear] calls, each call returns the count
    and copies out the bytes that the same call on the queue of the bytes
    held gives, no call divides by zero, and the buffer stays well formed
    with the capacity it was made with. *)
Theorem cb_refines_queue capacity ops :
  0 < capacity <= CB.MAX_SIZE ->
  Forall CB.op_ok ops ->
  exists b,
    CB.run ops (CB.make capacity) = Some (fst (CB.queue_run capacity ops []), b)
    /\ CB.contents b = snd (CB.queue_run capacity ops [])
    /\ CB.wf b
    /\ CB.capacity_ b = capacity.
Proof.
  intros Hc Hok.
  destruct (cb_make_wf capacity ltac:(lia)) as [Hwf Hempty].
  destruct (cb_run_spec ops (CB.make capacity) Hwf ltac:(cbn; lia) Hok)
    as (b & Hrun & Hcont & Hwf' & Hcap).
  rewrite Hempty in *. cbn [CB.make CB.capacity_] in *.
  exists b. auto.
Qed.

Lemma cb_refines_queue_witness :
  let ops := [CB.Write [1; 2; 3] 3; CB.Read 2; CB.Write [4; 5; 6] 3; CB.Peek 9;
              CB.Skip 1; CB.Read 9] in
  0 < 4 <= CB.MAX_SIZE
  /\ Forall CB.op_ok ops
  /\ option_map fst (CB.run ops (CB.make 4))
     = Some [(3, []); (2, [1; 2]); (3, []); (4, [3; 4; 5; 6]); (0, []); (3, [4; 5; 6])].
Proof.
  cbn zeta.
  assert (H1 : 0 < 4 <= CB.MAX_SIZE) by (unfold CB.MAX_SIZE; lia).
  assert (H2 : Forall CB.op_ok
                 [CB.Write [1; 2; 3] 3; CB.Read 2; CB.Write [4; 5; 6] 3; CB.Peek 9;
                  CB.Skip 1; CB.Read 9]).
  { unfold SIZE_MAX. repeat constructor; cbn; lia. }
  split; [exact H1|]. split; [exact H2|].
  destruct (cb_refines_queue 4 _ H1 H2) as (b & Hrun & _).
  rewrite Hrun. reflexivity.
Defined.

(** X12.  A [CircularBuffer] of capacity zero accepts and yields nothing:
    [write], [read] and [peek] return zero and leave it as it is; [skip]
    divides by zero, whatever count it is given. *)
Theorem cb_zero_capacity data n :
  0 <= n ->
  let b := CB.make 0 in
  CB.write data n b = Some (0, b)
  /\ CB.read n b = Some (0, [], b)
  /\ CB.peek n b = Some (0, [])
  /\ CB.skip n b = None.
Proof.
  intros Hn b. unfold CB.write, CB.read, CB.peek, CB.skip, b, CB.make.
  cbn [CB.capacity_ CB.size_ CB.head_ CB.buffer_ CB.tail_].
  change (wrap64 (0 - 0)) with 0.
  rewrite Z.min_r by lia. cbn. auto.
Qed.

Lemma cb_zero_capacity_witness :
  0 <= 5
  /\ CB.write [1; 2; 3; 4; 5] 5 (CB.make 0) = Some (0, CB.make 0)
  /\ CB.skip 5 (CB.make 0) = None.
Proof.
  assert (H : 0 <= 5) by lia.
  split; [exact H|].
  destruct (cb_zero_capacity [1; 2; 3; 4; 5] 5 H) as (Hw & _ & _ & Hs).
  split; [exact Hw | exact Hs].
Defined.

(** ** Token accounting *)

(** X13.  A limiter as constructed holds no more tokens than its bucket,
    and every sequence of [allowBytes], [getDelay], [waitForBytes],
    [setRate], [reset] and [getAvailableBytes] calls keeps it so: the
    token count stays within [[0, bucketSize]] as long as [setBucketSize]
    is not called. *)
Theorem rl_bucket_invariant u now rate bucket ops :
  0 <= rate -> 0 <= bucket ->
  Forall RL.keeps_bucket ops ->
  RL.in_bucket (RL.run u ops (RL.make now rate bucket)).
Proof.
  intros Hr Hb Hops. apply run_in_bucket; [exact Hops|].
  apply make_in_bucket; assumption.
Qed.

Lemma rl_bucket_invariant_witness :
  let u := fun _ : spec_float => 0 in
  let ops := [RL.AllowBytes 5000000 60; RL.SetRate 7; RL.WaitForBytes [6000000; 2000000000] 50;
              RL.Reset 3000000000; RL.AllowBytes 3000000001 100] in
  0 <= 100 /\ 0 <= 0
  /\ Forall RL.keeps_bucket ops
  /\ RL.in_bucket (RL.run u ops (RL.make 0 100 0)).
Proof.
  cbn zeta.
  assert (H1 : 0 <= 100) by lia.
  assert (H2 : 0 <= 0) by lia.
  assert (H3 : Forall RL.keeps_bucket
                 [RL.AllowBytes 5000000 60; RL.SetRate 7;
                  RL.WaitForBytes [6000000; 2000000000] 50;
                  RL.Reset 3000000000; RL.AllowBytes 3000000001 100]).
  { repeat constructor; cbn; lia. }
  split; [exact H1|]. split; [exact H2|]. split; [exact H3|].
  exact (rl_bucket_invariant (fun _ => 0) 0 100 0 _ H1 H2 H3).
Defined.

(** A refill leaves a [size_t] count, at most the tokens held plus the
    tokens it computed. *)
Lemma refillBucket_credit u now l :
  0 <= RL.availableBytes_ l -> 0 <= RL.bucketSize_ l ->
  0 <= RL.availableBytes_ (RL.refillBucket u now l)
       <= RL.availableBytes_ l + RL.credit u now l.
Proof.
  unfold RL.refillBucket, RL.credit. intros Hav Hbs.
  destruct (0 <? RL.elapsed_ms now l); [|lia].
  cbn [RL.availableBytes_].
  pose proof (tokensToAdd_nonneg u (RL.elapsed_ms now l) (RL.bytesPerSecond_ l)).
  pose proof (wrap64_le (RL.availableBytes_ l
                         + RL.tokensToAdd u (RL.elapsed_ms now l) (RL.bytesPerSecond_ l))).
  pose proof (wrap64_range (RL.availableBytes_ l
                            + RL.tokensToAdd u (RL.elapsed_ms now l) (RL.bytesPerSecond_ l))).
  lia.
Qed.

Lemma refillBucket_bucketSize u now l :
  RL.bucketSize_ (RL.refillBucket u now l) = RL.bucketSize_ l.
Proof. unfold RL.refillBucket. destruct (0 <? RL.elapsed_ms now l); reflexivity. Qed.

Lemma allowBytes_bucketSize u now bytes l :
  RL.bucketSize_ (snd (RL.allowBytes u now bytes l)) = RL.bucketSize_ l.
Proof.
  unfold RL.allowBytes.
  destruct (bytes <=? RL.availableBytes_ (RL.refillBucket u now l));
    cbn [snd RL.bucketSize_]; apply refillBucket_bucketSize.
Qed.

Lemma allowBytes_credit u now bytes l :
  0 <= bytes -> 0 <= RL.availableBytes_ l -> 0 <= RL.bucketSize_ l ->
  0 <= RL.availableBytes_ (snd (RL.allowBytes u now bytes l))
  /\ (if fst (RL.allowBytes u now bytes l) then bytes else 0)
     + RL.availableBytes_ (snd (RL.allowBytes u now bytes l))
     <= RL.availableBytes_ l + RL.credit u now l.
Proof.
  intros Hb Hav Hbs. pose proof (refillBucket_credit u now l Hav Hbs) as Hc.
  unfold RL.allowBytes.
  destruct (bytes <=? RL.availableBytes_ (RL.refillBucket u now l)) eqn:E;
    cbn [fst snd RL.availableBytes_]; [|lia].
  apply Z.leb_le in E.
  pose proof (wrap64_le (RL.availableBytes_ (RL.refillBucket u now l) - bytes)).
  pose proof (wrap64_range (RL.availableBytes_ (RL.refillBucket u now l) - bytes)).
  lia.
Qed.

(** X14.  The limiter never grants more than it was given.  For a token
    count and a bucket size that are [size_t] values, and whatever their
    order, over every sequence of [allowBytes] calls the bytes of the
    calls that returned [true] plus the tokens left are at most the tokens
    held at the start plus the tokens the refills computed; in particular
    the bytes granted are at most the tokens held at the start plus that
    refill credit. *)
Theorem rl_tokens_conserved u calls :
  forall l,
    0 <= RL.availableBytes_ l ->
    0 <= RL.bucketSize_ l ->
    Forall (fun call => 0 <= snd call) calls ->
    RL.granted u calls l + RL.availableBytes_ (RL.after_calls u calls l)
    <= RL.availableBytes_ l + RL.credited u calls l
    /\ RL.granted u calls l <= RL.availableBytes_ l + RL.credited u calls l.
Proof.
  induction calls as [|[now bytes] rest IH]; intros l Hav Hbs Hcalls.
  - cbn. lia.
  - apply Forall_cons_iff in Hcalls. destruct Hcalls as [Hb Hrest]. cbn [snd] in Hb.
    cbn [RL.granted RL.credited RL.after_calls].
    destruct (allowBytes_credit u now bytes l Hb Hav Hbs) as [Hav' Hstep].
    pose proof (allowBytes_bucketSize u now bytes l) as Hbs'.
    destruct (IH (snd (RL.allowBytes u now bytes l)) Hav' ltac:(lia) Hrest) as [Hsum _].
    assert (Hleft : 0 <= RL.availableBytes_
                           (RL.after_calls u rest (snd (RL.allowBytes u now bytes l)))).
    { clear - Hav' Hbs' Hbs Hrest.
      assert (Hbs1 : 0 <= RL.bucketSize_ (snd (RL.allowBytes u now bytes l))) by lia.
      clear Hbs' Hbs. revert Hav' Hbs1.
      generalize (snd (RL.allowBytes u now bytes l)).
      induction rest as [|[n b] rest IHr]; intros l0 H0 H1.
      - exact H0.
      - apply Forall_cons_iff in Hrest. destruct Hrest as [Hb0 Hrest]. cbn [snd] in Hb0.
        cbn [RL.after_calls]. apply IHr; [exact Hrest | |].
        + apply allowBytes_credit; assumption.
        + rewrite allowBytes_bucketSize. exact H1. }
    split; lia.
Qed.

Lemma rl_tokens_conserved_witness :
  let u := fun _ : spec_float => 0 in
  let l := RL.setBucketSize 10 (RL.make 0 100 100) in
  let calls := [(0, 70); (10000000, 70); (1000000000, 70)] in
  0 <= RL.availableBytes_ l
  /\ 0 <= RL.bucketSize_ l
  /\ Forall (fun call => 0 <= snd call) calls
  /\ RL.granted u calls l = 70
  /\ RL.credited u calls l = 100
  /\ RL.granted u calls l <= RL.availableBytes_ l + RL.credited u calls l.
Proof.
  cbn zeta.
  assert (H0 : 0 <= RL.availableBytes_ (RL.setBucketSize 10 (RL.make 0 100 100)))
    by (cbn; lia).
  assert (H1 : 0 <= RL.bucketSize_ (RL.setBucketSize 10 (RL.make 0 100 100)))
    by (cbn; lia).
  assert (H2 : Forall (fun call : Z * Z => 0 <= snd call)
                 [(0, 70); (10000000, 70); (1000000000, 70)])
    by (repeat constructor; cbn; lia).
  split; [exact H0|]. split; [exact H1|]. split; [exact H2|].
  split; [vm_compute; reflexivity|]. split; [vm_compute; reflexivity|].
  exact (proj2 (rl_tokens_conserved (fun _ => 0) _ _ H0 H1 H2)).
Defined.

(** X15.  A request that is larger than the bucket and larger than the
    tokens held is never granted: [allowBytes] refuses it at every clock
    reading, so [waitForBytes], which repeats [allowBytes] until it
    succeeds, does not succeed however long it polls. *)
Theorem rl_waitForBytes_above_bucket u clock bytes :
  forall l,
    RL.bucketSize_ l < bytes ->
    RL.availableBytes_ l < bytes ->
    fst (RL.waitForBytes u clock bytes l) = false.
Proof.
  induction clock as [|now later IH]; intros l Hbig Hheld; [reflexivity|].
  cbn [RL.waitForBytes]. unfold RL.allowBytes.
  pose proof (refillBucket_bucketSize u now l) as Hbs.
  assert (Hav : RL.availableBytes_ (RL.refillBucket u now l) < bytes).
  { unfold RL.refillBucket. destruct (0 <? RL.elapsed_ms now l); [|exact Hheld].
    cbn [RL.availableBytes_]. lia. }
  replace (bytes <=? RL.availableBytes_ (RL.refillBucket u now l)) with false
    by (symmetry; apply Z.leb_gt; exact Hav).
  apply IH; [lia | exact Hav].
Qed.

Lemma rl_waitForBytes_above_bucket_witness :
  let u := fun _ : spec_float => 0 in
  let l := RL.make 0 1000 100 in
  RL.bucketSize_ l < 101
  /\ RL.availableBytes_ l < 101
  /\ fst (RL.waitForBytes u [10000000; 5000000000; 900000000000] 101 l) = false.
Proof.
  cbn zeta.
  assert (H1 : RL.bucketSize_ (RL.make 0 1000 100) < 101) by (cbn; lia).
  assert (H2 : RL.availableBytes_ (RL.make 0 1000 100) < 101) by (cbn; lia).
  split; [exact H1|]. split; [exact H2|].
  exact (rl_waitForBytes_above_bucket (fun _ => 0)
           [10000000; 5000000000; 900000000000] 101 _ H1 H2).
Defined.

(** *** Polling a slow limiter *)

(** Up to ten milliseconds at fewer than 100 bytes per second make less
    than one token, which the conversion to [size_t] drops. *)
Lemma tokensToAdd_below_one u elapsed rate :
  1 <= elapsed <= 10 -> 0 <= rate <= 99 -> RL.tokensToAdd u elapsed rate = 0.
Proof.
  intros He Hr. destruct (Z.eq_dec rate 0) as [->|Hr0].
  - apply tokensToAdd_zero_rate. lia.
  - destruct (tokensToAdd_floor u elapsed rate) as [[_ Hle] _]; [lia | lia | nia |].
    pose proof (tokensToAdd_nonneg u elapsed rate).
    assert (elapsed * rate / 1000 = 0) by (apply Z.div_small; nia).
    lia.
Qed.

Lemma elapsed_ms_paced now l :
  1000000 <= now - RL.lastRefill_ l < 11000000 -> 1 <= RL.elapsed_ms now l <= 10.
Proof.
  unfold RL.elapsed_ms. intros H.
  rewrite Z.quot_div_nonneg by lia.
  split.
  - apply Z.div_le_lower_bound; lia.
  - apply Z.lt_succ_r. apply Z.div_lt_upper_bound; lia.
Qed.

(** X16.  Polled about every ten milliseconds, a limiter of fewer than
    100 bytes per second never refills: each poll computes less than one
    token, adds none, and still moves [lastRefill_] to the time of the
    poll.  So [waitForBytes], with its ten-millisecond sleep, does not
    succeed for a request above the tokens held, however long it polls,
    and the token count does not grow. *)
Theorem rl_waitForBytes_starves_slow_limiter u clock bytes :
  forall l,
    0 <= RL.bytesPerSecond_ l <= 99 ->
    0 <= RL.bucketSize_ l ->
    0 <= RL.availableBytes_ l <= SIZE_MAX ->
    RL.availableBytes_ l < bytes ->
    RL.paced (RL.lastRefill_ l) clock ->
    fst (RL.waitForBytes u clock bytes l) = false
    /\ RL.availableBytes_ (snd (RL.waitForBytes u clock bytes l)) <= RL.availableBytes_ l.
Proof.
  induction clock as [|now later IH]; intros l Hrate Hbucket Hav Hneed Hpaced.
  - cbn. split; [reflexivity | lia].
  - destruct Hpaced as [Hgap Hlater].
    pose proof (elapsed_ms_paced now l Hgap) as He.
    cbn [RL.waitForBytes]. unfold RL.allowBytes, RL.refillBucket.
    replace (0 <? RL.elapsed_ms now l) with true by (symmetry; apply Z.ltb_lt; lia).
    rewrite tokensToAdd_below_one by assumption.
    rewrite Z.add_0_r, wrap64_small by exact Hav.
    cbn [RL.availableBytes_].
    replace (bytes <=? Z.min (RL.bucketSize_ l) (RL.availableBytes_ l)) with false
      by (symmetry; apply Z.leb_gt; lia).
    match goal with
    | |- context [RL.waitForBytes u later bytes ?l1] =>
        assert (Hnext : fst (RL.waitForBytes u later bytes l1) = false
                        /\ RL.availableBytes_ (snd (RL.waitForBytes u later bytes l1))
                           <= RL.availableBytes_ l1)
          by (apply IH;
              cbn [RL.bytesPerSecond_ RL.bucketSize_ RL.availableBytes_ RL.lastRefill_];
              try lia; assumption)
    end.
    destruct Hnext as [Hfalse Hle]. cbn [RL.availableBytes_] in Hle.
    split; [exact Hfalse | lia].
Qed.

Lemma rl_waitForBytes_starves_slow_limiter_witness :
  let u := fun _ : spec_float => 0 in
  let l := RL.mk 50 100 0 0 in
  let clock := [10000000; 20000000; 30000000; 40000000; 50000000] in
  0 <= RL.bytesPerSecond_ l <= 99
  /\ 0 <= RL.bucketSize_ l
  /\ 0 <= RL.availableBytes_ l <= SIZE_MAX
  /\ RL.availableBytes_ l < 1
  /\ RL.paced (RL.lastRefill_ l) clock
  /\ fst (RL.waitForBytes u clock 1 l) = false.
Proof.
  cbn zeta.
  assert (H1 : 0 <= RL.bytesPerSecond_ (RL.mk 50 100 0 0) <= 99) by (cbn; lia).
  assert (H2 : 0 <= RL.bucketSize_ (RL.mk 50 100 0 0)) by (cbn; lia).
  assert (H3 : 0 <= RL.availableBytes_ (RL.mk 50 100 0 0) <= SIZE_MAX)
    by (unfold SIZE_MAX; cbn; lia).
  assert (H4 : RL.availableBytes_ (RL.mk 50 100 0 0) < 1) by (cbn; lia).
  assert (H5 : RL.paced (RL.lastRefill_ (RL.mk 50 100 0 0))
                 [10000000; 20000000; 30000000; 40000000; 50000000])
    by (cbn; lia).
  split; [exact H1|]. split; [exact H2|]. split; [exact H3|]. split; [exact H4|].
  split; [exact H5|].
  exact (proj1 (rl_waitForBytes_starves_slow_limiter (fun _ => 0) _ 1 _ H1 H2 H3 H4 H5)).
Defined.

(** ** The connection pool *)

Lemma Connection_eqb_eq a b : CP.Connection_eqb a b = true <-> a = b.
Proof.
  destruct a as [x|], b as [y|]; cbn; try (split; [discriminate | congruence]).
  - rewrite Z.eqb_eq. split; congruence.
  - tauto.
Qed.

Lemma erase_first_some c v v' :
  CP.erase_first c v = Some v' -> Permutation v (c :: v').
Proof.
  revert v'. induction v as [|x v IH]; intros v' H; [discriminate|].
  cbn in H. destruct (CP.Connection_eqb x c) eqn:E.
  - apply Connection_eqb_eq in E. inversion H; subst. apply Permutation_refl.
  - destruct (CP.erase_first c v) as [v''|]; [|discriminate].
    inversion H; subst.
    eapply Permutation_trans; [apply perm_skip, IH; reflexivity | apply perm_swap].
Qed.

Lemma erase_first_none c v :
  CP.erase_first c v = None <-> ~ In c v.
Proof.
  split.
  - intros H Hin. induction v as [|x v IH]; [exact Hin|].
    cbn in H. destruct (CP.Connection_eqb x c) eqn:E; [discriminate|].
    destruct (CP.erase_first c v); [discriminate|].
    destruct Hin as [->|Hin]; [|exact (IH eq_refl Hin)].
    rewrite (proj2 (Connection_eqb_eq c c) eq_refl) in E. discriminate.
  - intros Hnot. destruct (CP.erase_first c v) as [v'|] eqn:E; [|reflexivity].
    exfalso. apply Hnot. apply erase_first_some in E.
    eapply Permutation_in; [apply Permutation_sym; exact E | left; reflexivity].
Qed.

Lemma take_idle_some p c p' :
  CP.take_idle p = Some (c, p') ->
  CP.idleConnections_ p = CP.idleConnections_ p' ++ [c]
  /\ CP.activeConnections_ p' = CP.activeConnections_ p ++ [c]
  /\ CP.maxConnections_ p' = CP.maxConnections_ p
  /\ CP.connectionFactory_ p' = CP.connectionFactory_ p.
Proof.
  unfold CP.take_idle. destruct (CP.idleConnections_ p) as [|x idle] eqn:E; [discriminate|].
  intros H. injection H as <- <-.
  cbn [CP.idleConnections_ CP.activeConnections_ CP.maxConnections_ CP.connectionFactory_].
  split; [|auto].
  assert (Hne : x :: idle <> []) by discriminate.
  exact (@app_removelast_last _ (x :: idle) None Hne).
Qed.

Lemma take_idle_none p :
  CP.take_idle p = None <-> CP.idleConnections_ p = [].
Proof.
  unfold CP.take_idle. destruct (CP.idleConnections_ p); split; congruence.
Qed.

Lemma take_idle_held p c p' :
  CP.take_idle p = Some (c, p') -> Permutation (CP.held p') (CP.held p).
Proof.
  intros H. apply take_idle_some in H. destruct H as (Hi & Ha & _).
  unfold CP.held. rewrite Hi, Ha, <- app_assoc.
  apply Permutation_app_head. apply Permutation_app_comm.
Qed.

Lemma pool_ok_perm p p' :
  Permutation (CP.held p') (CP.held p) ->
  CP.maxConnections_ p' = CP.maxConnections_ p ->
  CP.pool_ok p -> CP.pool_ok p'.
Proof.
  intros Hperm Hmax (Hsize & Hnodup & Hnull). unfold CP.pool_ok.
  rewrite Hmax. split; [|split].
  - unfold size in *. rewrite (Permutation_length Hperm). exact Hsize.
  - eapply Permutation_NoDup; [apply Permutation_sym; exact Hperm | exact Hnodup].
  - intros Hin. apply Hnull. eapply Permutation_in; eassumption.
Qed.

Lemma resume_pool p :
  match CP.resume p with
  | CP.Got c p' => (CP.idleConnections_ p = [] /\ c = None /\ p' = p)
                   \/ CP.take_idle p = Some (c, p')
  | CP.Blocked p' =>
      p' = p /\ CP.idleConnections_ p = []
      /\ CP.maxConnections_ p <= size (CP.activeConnections_ p)
  end.
Proof.
  unfold CP.resume, CP.wait_predicate.
  destruct (CP.idleConnections_ p) as [|x idle] eqn:E; cbn [negb orb].
  - assert (Ht : CP.take_idle p = None) by (apply take_idle_none; exact E).
    destruct (size (CP.activeConnections_ p) <? CP.maxConnections_ p) eqn:Hlt.
    + rewrite Ht. left. auto.
    + apply Z.ltb_ge in Hlt. auto.
  - destruct (CP.take_idle p) as [[c p']|] eqn:Ht; [right; reflexivity|].
    apply take_idle_none in Ht. congruence.
Qed.

(** What [acquire] can do to the pool. *)
Lemma acquire_cases produced p :
  match CP.acquire produced p with
  | CP.Got c p' =>
      CP.take_idle p = Some (c, p')
      \/ (CP.idleConnections_ p = [] /\ c = None /\ p' = p)
      \/ (CP.idleConnections_ p = []
          /\ size (CP.activeConnections_ p) < CP.maxConnections_ p
          /\ c = produced /\ produced <> None
          /\ p' = CP.mk (CP.maxConnections_ p) (CP.idleConnections_ p)
                        (CP.activeConnections_ p ++ [produced])
                        (CP.connectionFactory_ p))
  | CP.Blocked p' =>
      p' = p /\ CP.idleConnections_ p = []
      /\ CP.maxConnections_ p <= size (CP.activeConnections_ p)
  end.
Proof.
  unfold CP.acquire.
  destruct (CP.take_idle p) as [[c p']|] eqn:Ht; [left; reflexivity|].
  pose proof (proj1 (take_idle_none p) Ht) as Hidle.
  pose proof (resume_pool p) as Hres. rewrite Ht in Hres.
  destruct ((size (CP.activeConnections_ p) <? CP.maxConnections_ p)
            && CP.connectionFactory_ p) eqn:Hcan.
  - apply andb_true_iff in Hcan. destruct Hcan as [Hlt _]. apply Z.ltb_lt in Hlt.
    destruct produced as [x|].
    + right. right. repeat split; try assumption; discriminate.
    + destruct (CP.resume p); [|exact Hres].
      destruct Hres as [H|H]; [right; left; exact H | discriminate].
  - destruct (CP.resume p); [|exact Hres].
    destruct Hres as [H|H]; [right; left; exact H | discriminate].
Qed.

Lemma acquire_pool_ok produced p :
  CP.pool_ok p -> ~ In produced (CP.held p) ->
  CP.pool_ok (CP.apply (CP.Acquire produced) p).
Proof.
  intros Hok Hfresh. cbn [CP.apply].
  pose proof (acquire_cases produced p) as H.
  destruct (CP.acquire produced p) as [c p'|p'].
  - destruct H as [H|[(_ & _ & ->)|(Hidle & Hlt & _ & Hnn & ->)]]; [|exact Hok|].
    + apply (pool_ok_perm p); [eapply take_idle_held; exact H | | exact Hok].
      apply take_idle_some in H. tauto.
    + destruct Hok as (Hsize & Hnodup & Hnull).
      unfold CP.pool_ok, CP.held in *. cbn [CP.maxConnections_ CP.idleConnections_
                                              CP.activeConnections_].
      rewrite Hidle, app_nil_r in *.
      split; [rewrite size_app; cbn; lia|]. split.
      * apply NoDup_app; [exact Hnodup | constructor; [intros [] | constructor] |].
        intros x Hx [<-|[]]. exact (Hfresh Hx).
      * rewrite in_app_iff. intros [Hin|[Hin|[]]]; [exact (Hnull Hin) | congruence].
  - destruct H as (-> & _). exact Hok.
Qed.

Lemma release_pool_ok c p : CP.pool_ok p -> CP.pool_ok (CP.release c p).
Proof.
  intros Hok. unfold CP.release.
  destruct (CP.erase_first c (CP.activeConnections_ p)) as [active|] eqn:E; [|exact Hok].
  apply erase_first_some in E.
  destruct c as [x|].
  - apply (pool_ok_perm p); [|reflexivity | exact Hok].
    unfold CP.held. cbn [CP.activeConnections_ CP.idleConnections_].
    eapply Permutation_trans;
      [|apply Permutation_app_tail, Permutation_sym; exact E].
    cbn [app]. rewrite app_assoc.
    eapply Permutation_trans; [apply Permutation_app_comm | reflexivity].
  - exfalso. destruct Hok as (_ & _ & Hnull). apply Hnull. unfold CP.held.
    apply in_or_app. left. eapply Permutation_in; [apply Permutation_sym; exact E|].
    left. reflexivity.
Qed.

Lemma apply_pool_ok o p :
  CP.pool_ok p ->
  match o with CP.Acquire produced => ~ In produced (CP.held p) | _ => True end ->
  CP.pool_ok (CP.apply o p).
Proof.
  intros Hok Hfresh. destruct o as [produced|c| |set].
  - apply acquire_pool_ok; assumption.
  - apply release_pool_ok; assumption.
  - destruct Hok as (Hsize & _). unfold CP.pool_ok, CP.held in *. cbn in *.
    pose proof (size_nonneg (CP.activeConnections_ p ++ CP.idleConnections_ p)).
    split; [lia|]. split; [constructor | intros []].
  - exact Hok.
Qed.

Lemma run_pool_ok ops :
  forall p, CP.pool_ok p -> CP.factory_fresh ops p -> CP.pool_ok (CP.run ops p).
Proof.
  induction ops as [|o rest IH]; intros p Hok Hfresh; [exact Hok|].
  destruct Hfresh as [Ho Hrest]. cbn [CP.run fold_left].
  apply IH; [apply apply_pool_ok; assumption | exact Hrest].
Qed.

(** X17.  The pool keeps within its bound and keeps its books straight:
    from construction on, over every sequence of [acquire], [release],
    [clear] and [setConnectionFactory] calls in which the factory makes a
    new object each time it is asked, the active and idle connections
    together are at most [maxConnections_], no connection is in the pool
    twice, and none is null. *)
Theorem pool_invariant maxConnections ops :
  0 <= maxConnections ->
  CP.factory_fresh ops (CP.make maxConnections) ->
  let p := CP.run ops (CP.make maxConnections) in
  CP.pool_ok p
  /\ CP.getActiveConnections p + CP.getIdleConnections p <= maxConnections.
Proof.
  intros Hmax Hfresh p.
  assert (Hok : CP.pool_ok p).
  { apply run_pool_ok; [|exact Hfresh].
    unfold CP.pool_ok, CP.held, CP.make. cbn. split; [lia|].
    split; [constructor | intros []]. }
  split; [exact Hok|].
  destruct Hok as (Hsize & _). unfold CP.held in Hsize. rewrite size_app in Hsize.
  assert (Hm : forall ops q, CP.maxConnections_ (CP.run ops q) = CP.maxConnections_ q).
  { clear. induction ops as [|o rest IH]; intros q; [reflexivity|].
    cbn [CP.run fold_left]. change (fold_left _ rest ?x) with (CP.run rest x).
    rewrite IH. destruct o as [produced|c| |set]; cbn [CP.apply]; try reflexivity.
    - pose proof (acquire_cases produced q) as H.
      destruct (CP.acquire produced q) as [c p'|p'].
      + destruct H as [H|[(_ & _ & ->)|(_ & _ & _ & _ & ->)]]; try reflexivity.
        apply take_idle_some in H. tauto.
      + destruct H as (-> & _). reflexivity.
    - unfold CP.release. destruct (CP.erase_first c (CP.activeConnections_ q)); reflexivity. }
  unfold p in *. rewrite Hm in Hsize. cbn [CP.make CP.maxConnections_] in Hsize.
  unfold CP.getActiveConnections, CP.getIdleConnections. exact Hsize.
Qed.

Lemma pool_invariant_witness :
  let ops := [CP.SetConnectionFactory true; CP.Acquire (Some 1); CP.Acquire (Some 2);
              CP.Release (Some 1); CP.Acquire (Some 3); CP.Acquire (Some 4)] in
  0 <= 2
  /\ CP.factory_fresh ops (CP.make 2)
  /\ CP.pool_ok (CP.run ops (CP.make 2))
  /\ CP.activeConnections_ (CP.run ops (CP.make 2)) = [Some 2; Some 1].
Proof.
  cbn zeta.
  assert (H1 : 0 <= 2) by lia.
  assert (H2 : CP.factory_fresh
                 [CP.SetConnectionFactory true; CP.Acquire (Some 1); CP.Acquire (Some 2);
                  CP.Release (Some 1); CP.Acquire (Some 3); CP.Acquire (Some 4)]
                 (CP.make 2)).
  { cbn. repeat split; intros H;
      repeat (destruct H as [H|H]; [discriminate H|]); exact H. }
  split; [exact H1|]. split; [exact H2|].
  split; [exact (proj1 (pool_invariant 2 _ H1 H2)) | reflexivity].
Defined.

(** X18.  The pool hands a connection to one holder at a time: a
    connection that [acquire] returns was not among the active ones before
    the call, is among them after it, and is not idle any more (the pool
    being in order, and the factory returning a new object). *)
Theorem pool_acquire_is_exclusive produced p c p' :
  CP.pool_ok p ->
  ~ In produced (CP.held p) ->
  CP.acquire produced p = CP.Got (Some c) p' ->
  ~ In (Some c) (CP.activeConnections_ p)
  /\ In (Some c) (CP.activeConnections_ p')
  /\ ~ In (Some c) (CP.idleConnections_ p').
Proof.
  intros (_ & Hnodup & _) Hfresh Hget.
  pose proof (acquire_cases produced p) as H. rewrite Hget in H.
  destruct H as [H|[(_ & Hc & _)|(Hidle & _ & Hc & _ & ->)]]; [|discriminate|].
  - apply take_idle_some in H. destruct H as (Hi & Ha & _).
    unfold CP.held in Hnodup. rewrite Hi in Hnodup.
    split; [|split].
    + intros Hin. apply NoDup_app_remove_r in Hnodup as Hact.
      rewrite app_assoc in Hnodup. apply NoDup_remove_2 in Hnodup.
      rewrite app_nil_r in Hnodup. apply Hnodup. apply in_or_app. left. exact Hin.
    + rewrite Ha. apply in_or_app. right. left. reflexivity.
    + intros Hin. rewrite app_assoc in Hnodup. apply NoDup_remove_2 in Hnodup.
      rewrite app_nil_r in Hnodup. apply Hnodup. apply in_or_app. right. exact Hin.
  - subst produced. cbn [CP.activeConnections_ CP.idleConnections_].
    split; [|split].
    + intros Hin. apply Hfresh. unfold CP.held. apply in_or_app. left. exact Hin.
    + apply in_or_app. right. left. reflexivity.
    + rewrite Hidle. intros [].
Qed.

Lemma pool_acquire_is_exclusive_witness :
  let p := CP.mk 3 [Some 5; Some 6] [Some 7] true in
  CP.pool_ok p
  /\ ~ In (Some 8) (CP.held p)
  /\ CP.acquire (Some 8) p = CP.Got (Some 6) (CP.mk 3 [Some 5] [Some 7; Some 6] true)
  /\ ~ In (Some 6) (CP.activeConnections_ p).
Proof.
  cbn zeta.
  assert (H1 : CP.pool_ok (CP.mk 3 [Some 5; Some 6] [Some 7] true)).
  { unfold CP.pool_ok, CP.held. cbn. split; [lia|]. split.
    - repeat constructor; intros H;
        repeat (destruct H as [H|H]; [discriminate H|]); exact H.
    - intros H. repeat (destruct H as [H|H]; [discriminate H|]). exact H. }
  assert (H2 : ~ In (Some 8) (CP.held (CP.mk 3 [Some 5; Some 6] [Some 7] true))).
  { cbn. intros H. repeat (destruct H as [H|H]; [discriminate H|]). exact H. }
  assert (H3 : CP.acquire (Some 8) (CP.mk 3 [Some 5; Some 6] [Some 7] true)
               = CP.Got (Some 6) (CP.mk 3 [Some 5] [Some 7; Some 6] true))
    by reflexivity.
  split; [exact H1|]. split; [exact H2|]. split; [exact H3|].
  exact (proj1 (pool_acquire_is_exclusive _ _ _ _ H1 H2 H3)).
Defined.

(** X19.  [acquire] blocks exactly when the pool is used up: on a pool in
    order the calling thread ends up in [condition_.wait] if and only if
    [maxConnections_] connections are active, and the pool is then left as
    it was. *)
Theorem pool_acquire_blocks_iff_exhausted produced p :
  CP.pool_ok p ->
  (CP.acquire produced p = CP.Blocked p
   <-> size (CP.activeConnections_ p) = CP.maxConnections_ p)
  /\ (forall p', CP.acquire produced p = CP.Blocked p' -> p' = p).
Proof.
  intros (Hsize & _ & _). unfold CP.held in Hsize. rewrite size_app in Hsize.
  pose proof (size_nonneg (CP.idleConnections_ p)) as Hidle0.
  pose proof (acquire_cases produced p) as H.
  split; [split|].
  - intros Hb. rewrite Hb in H. destruct H as (_ & Hidle & Hfull).
    rewrite Hidle in Hsize. cbn in Hsize. lia.
  - intros Hfull.
    assert (Hidle : CP.idleConnections_ p = []).
    { destruct (CP.idleConnections_ p); [reflexivity | unfold size in *; cbn in *; lia]. }
    unfold CP.acquire, CP.resume, CP.wait_predicate, CP.take_idle.
    rewrite Hidle. cbn [negb orb].
    replace (size (CP.activeConnections_ p) <? CP.maxConnections_ p) with false
      by (symmetry; apply Z.ltb_ge; lia).
    reflexivity.
  - intros p' Hb. rewrite Hb in H. tauto.
Qed.

Lemma pool_acquire_blocks_iff_exhausted_witness :
  let p := CP.mk 2 [] [Some 1; Some 2] true in
  CP.pool_ok p /\ CP.acquire (Some 3) p = CP.Blocked p.
Proof.
  cbn zeta.
  assert (H1 : CP.pool_ok (CP.mk 2 [] [Some 1; Some 2] true)).
  { unfold CP.pool_ok, CP.held. cbn. split; [lia|]. split.
    - repeat constructor; intros H;
        repeat (destruct H as [H|H]; [discriminate H|]); exact H.
    - intros H. repeat (destruct H as [H|H]; [discriminate H|]). exact H. }
  split; [exact H1|].
  exact (proj2 (proj1 (pool_acquire_blocks_iff_exhausted (Some 3) _ H1)) eq_refl).
Defined.

Lemma take_idle_push m idle active factory c :
  CP.take_idle (CP.mk m (idle ++ [c]) active factory)
  = Some (c, CP.mk m idle (active ++ [c]) factory).
Proof.
  unfold CP.take_idle.
  cbn [CP.idleConnections_ CP.activeConnections_ CP.maxConnections_ CP.connectionFactory_].
  rewrite last_last, removelast_last.
  destruct (idle ++ [c]) eqn:E; [destruct idle; discriminate | reflexivity].
Qed.

(** X20.  A connection given back is the next one handed out: after
    [release] of an active connection, [acquire] returns that connection
    without asking the factory, and leaves the idle connections as they
    were before the release and the same connections active.  [release]
    of a connection that is not active, one released already for
    instance, changes nothing. *)
Theorem pool_release_then_acquire produced c p :
  (In (Some c) (CP.activeConnections_ p) ->
   exists p',
     CP.acquire produced (CP.release (Some c) p) = CP.Got (Some c) p'
     /\ CP.idleConnections_ p' = CP.idleConnections_ p
     /\ Permutation (CP.activeConnections_ p') (CP.activeConnections_ p))
  /\ (~ In (Some c) (CP.activeConnections_ p) -> CP.release (Some c) p = p).
Proof.
  split.
  - intros Hin. unfold CP.release.
    destruct (CP.erase_first (Some c) (CP.activeConnections_ p)) as [active|] eqn:E.
    + unfold CP.acquire. rewrite take_idle_push.
      eexists. split; [reflexivity|].
      cbn [CP.idleConnections_ CP.activeConnections_].
      split; [reflexivity|].
      apply erase_first_some in E.
      eapply Permutation_trans; [|apply Permutation_sym; exact E].
      apply Permutation_sym, Permutation_cons_append.
    + apply erase_first_none in E. contradiction.
  - intros Hnot. unfold CP.release.
    rewrite (proj2 (erase_first_none (Some c) (CP.activeConnections_ p)) Hnot).
    reflexivity.
Qed.

Lemma pool_release_then_acquire_witness :
  let p := CP.mk 2 [] [Some 1; Some 2] true in
  In (Some 1) (CP.activeConnections_ p)
  /\ ~ In (Some 9) (CP.activeConnections_ p)
  /\ (exists p', CP.acquire None (CP.release (Some 1) p) = CP.Got (Some 1) p')
  /\ CP.release (Some 9) p = p.
Proof.
  cbn zeta.
  assert (H1 : In (Some 1) (CP.activeConnections_ (CP.mk 2 [] [Some 1; Some 2] true)))
    by (left; reflexivity).
  assert (H2 : ~ In (Some 9) (CP.activeConnections_ (CP.mk 2 [] [Some 1; Some 2] true))).
  { cbn. intros H. repeat (destruct H as [H|H]; [discriminate H|]). exact H. }
  split; [exact H1|]. split; [exact H2|].
  split.
  - destruct (proj1 (pool_release_then_acquire None 1 (CP.mk 2 [] [Some 1; Some 2] true)) H1)
      as (p' & Hp & _).
    exists p'. exact Hp.
  - exact (proj2 (pool_release_then_acquire None 9 (CP.mk 2 [] [Some 1; Some 2] true)) H2).
Defined.

(** ** Stopping a server that has connections *)

(** [close_core] always returns; it asks for the callback exactly when the
    connection was not [Disconnected] and has a handler that can be
    called. *)
Lemma TcpConnection_close_core_returns shared c w :
  exists c' w',
    TcpConnection.close_core shared c w
    = Sys.Returns
        (negb (ConnectionState_eqb (TcpConnection.state_ c) Disconnected)
         && match TcpConnection.onDisconnected_ c with
            | TcpConnection.NoHandler => false
            | _ => shared
            end, c') w'
    /\ TcpConnection.id_ c' = TcpConnection.id_ c
    /\ TcpConnection.onDisconnected_ c' = TcpConnection.onDisconnected_ c
    /\ TcpConnection.state_ c' = Disconnected
    /\ TcpConnection.receiveThread_ c' = false
    /\ Sys.fired_ w' = Sys.fired_ w
    /\ (TcpConnection.state_ c = Disconnected ->
        w' = w /\ TcpConnection.socket_ c' = TcpConnection.socket_ c)
    /\ (TcpConnection.state_ c <> Disconnected ->
        TcpConnection.socket_ c' = INVALID_SOCKET
        /\ Sys.is_open (TcpConnection.socket_ c) w' = false
           \/ TcpConnection.socket_ c = INVALID_SOCKET).
Proof.
  destruct c as [id sock st stop th h]. unfold TcpConnection.close_core.
  assert (Hclosed : forall w0, Sys.is_open sock
                                 (Sys.mkWorld (remove Z.eq_dec sock (Sys.open_ w0))
                                              (Sys.fired_ w0)) = false).
  { intros w0. unfold Sys.is_open. cbn [Sys.open_].
    destruct (existsb (Z.eqb sock) (remove Z.eq_dec sock (Sys.open_ w0))) eqn:E;
      [|reflexivity].
    apply existsb_exists in E. destruct E as (x & Hin & Hx). apply Z.eqb_eq in Hx. subst x.
    exfalso. exact (remove_In Z.eq_dec (Sys.open_ w0) sock Hin). }
  unfold Sys.bind, Sys.ret, Sys.sys_close.
  cbn [TcpConnection.state_ TcpConnection.socket_ TcpConnection.id_
       TcpConnection.shouldStop_ TcpConnection.receiveThread_
       TcpConnection.onDisconnected_].
  destruct (ConnectionState_eqb st Disconnected) eqn:Est; cbn [negb andb].
  - assert (st = Disconnected) by (destruct st; (reflexivity || discriminate)). subst st.
    cbn [ConnectionState_eqb negb].
    eexists; eexists; split; [reflexivity|].
    cbn [TcpConnection.state_ TcpConnection.socket_ TcpConnection.id_
         TcpConnection.receiveThread_ TcpConnection.onDisconnected_].
    do 5 (split; [reflexivity|]).
    split; [intros _; split; reflexivity | intros Hd; congruence].
  - assert (Hne : st <> Disconnected) by (intros ->; discriminate).
    destruct (sock =? INVALID_SOCKET) eqn:Es; cbn [negb];
      cbn [TcpConnection.state_ TcpConnection.socket_ TcpConnection.id_
           TcpConnection.shouldStop_ TcpConnection.receiveThread_
           TcpConnection.onDisconnected_ ConnectionState_eqb negb];
      destruct h;
      (eexists; eexists; split; [reflexivity|]);
      cbn [TcpConnection.state_ TcpConnection.socket_ TcpConnection.id_
           TcpConnection.receiveThread_ TcpConnection.onDisconnected_ Sys.fired_];
      do 5 (split; [reflexivity|]);
      (split; [intros Hd; congruence|]); intros _;
      first [ right; apply Z.eqb_eq; exact Es
            | left; split; [reflexivity | apply Hclosed] ].
Qed.

(** [close()] on a registered connection while [connectionsMutex_] is
    held. *)
Lemma TcpServer_close_registered_held c s w :
  TcpServer.connectionsMutex_ s = true ->
  if TcpServer.notifies_server (Some c)
  then TcpServer.close_registered c s w = Sys.SelfDeadlock
  else exists c' w', TcpServer.close_registered c s w = Sys.Returns (c', s) w'.
Proof.
  intros Hheld. unfold TcpServer.close_registered, Sys.bind.
  destruct (TcpConnection_close_core_returns true c w)
    as (c' & w' & Hrun & _ & Hh & _).
  rewrite Hrun. cbn [TcpServer.notifies_server]. rewrite Hh.
  destruct (negb (ConnectionState_eqb (TcpConnection.state_ c) Disconnected));
    cbn [andb].
  - destruct (TcpConnection.onDisconnected_ c); cbn [andb].
    + eexists; eexists; reflexivity.
    + unfold Sys.fire, Sys.ret. eexists; eexists; reflexivity.
    + unfold TcpServer.handleDisconnection, TcpServer.removeConnection, Sys.bind.
      rewrite Hheld. reflexivity.
  - eexists; eexists; reflexivity.
Qed.

(** Closing the registry with [connectionsMutex_] held: the loop blocks on
    the first connection whose [close()] calls back into the server, and
    otherwise runs through, leaving the server as it is. *)
Lemma TcpServer_closeAll_loop_spec l :
  forall s w,
    TcpServer.connectionsMutex_ s = true ->
    if existsb TcpServer.notifies_server l
    then TcpServer.closeAll_loop l s w = Sys.SelfDeadlock
    else exists w', TcpServer.closeAll_loop l s w = Sys.Returns s w'.
Proof.
  induction l as [|[c|] l IH]; intros s w Hheld; cbn [existsb TcpServer.closeAll_loop].
  - exists w. reflexivity.
  - pose proof (TcpServer_close_registered_held c s w Hheld) as Hc.
    unfold Sys.bind.
    destruct (TcpServer.notifies_server (Some c)); cbn [orb].
    + rewrite Hc. reflexivity.
    + destruct Hc as (c' & w' & Hc). rewrite Hc. apply IH. exact Hheld.
  - apply IH. exact Hheld.
Qed.

(** X22.  [TcpServer::stop()] on a running server returns if and only if
    no registered connection would call back into the server: when a
    registered connection is not yet [Disconnected] and carries the
    handler that [acceptConnection] installs, [closeAllConnections] closes
    it while holding [connectionsMutex_], the handler runs
    [removeConnection] on the same thread, and that locks the mutex again.
    Otherwise [stop()] returns with the registry empty, the listening
    socket closed and [running_] false. *)
Theorem TcpServer_stop_blocks_on_live_connection s w :
  TcpServer.running_ s = true ->
  TcpSocket.mutex_ (TcpServer.base s) = false ->
  TcpServer.connectionsMutex_ s = false ->
  if existsb TcpServer.notifies_server (TcpServer.connections_ s)
  then TcpServer.stop s w = Sys.SelfDeadlock
  else exists s' w',
      TcpServer.stop s w = Sys.Returns s' w'
      /\ TcpServer.connections_ s' = []
      /\ TcpServer.running_ s' = false
      /\ TcpServer.isValid s' = false.
Proof.
  intros Hrun Hmx Hcm.
  destruct s as [[sock nb mx] la lp run stop conns cm od at_ ct oc tc].
  cbn in Hrun, Hmx, Hcm. subst run mx cm.
  unfold TcpServer.stop. cbn [TcpServer.running_ negb TcpServer.base].
  unfold TcpSocket.close, TcpSocket.lock, TcpSocket.isValid, TcpServer.closeAllConnections.
  cbn [TcpSocket.mutex_ TcpSocket.socket_ TcpSocket.nonBlocking_ TcpServer.connections_].
  match goal with
  | |- if ?e then _ else _ => destruct e eqn:Hex
  end.
  - destruct (sock =? INVALID_SOCKET) eqn:Es; run_sys; rewrite ?Es; cbn;
      match goal with
      | |- context [TcpServer.closeAll_loop conns ?s0 ?w0] =>
          pose proof (TcpServer_closeAll_loop_spec conns s0 w0 eq_refl) as Hl;
          rewrite Hex in Hl; rewrite Hl; reflexivity
      end.
  - destruct (sock =? INVALID_SOCKET) eqn:Es; run_sys; rewrite ?Es; cbn;
      match goal with
      | |- context [TcpServer.closeAll_loop conns ?s0 ?w0] =>
          pose proof (TcpServer_closeAll_loop_spec conns s0 w0 eq_refl) as Hl;
          rewrite Hex in Hl; destruct Hl as [w' Hl]; rewrite Hl
      end;
      eexists; eexists; (split; [reflexivity|]);
      (split; [reflexivity|]); (split; [reflexivity|]);
      unfold TcpServer.isValid, TcpSocket.isValid; cbn; rewrite ?Es; reflexivity.
Qed.

Lemma TcpServer_stop_blocks_on_live_connection_witness :
  let s := TcpServer.mk (TcpSocket.mk 3 false false) "0.0.0.0" 8080 true false
                        [Some (TcpServer.accepted 1 4)] false true true true false 1 in
  TcpServer.running_ s = true
  /\ TcpSocket.mutex_ (TcpServer.base s) = false
  /\ TcpServer.connectionsMutex_ s = false
  /\ TcpServer.stop s (Sys.mkWorld [4; 3] []) = Sys.SelfDeadlock.
Proof.
  cbn zeta.
  split; [reflexivity|]. split; [reflexivity|]. split; [reflexivity|].
  exact (TcpServer_stop_blocks_on_live_connection
           (TcpServer.mk (TcpSocket.mk 3 false false) "0.0.0.0" 8080 true false
                         [Some (TcpServer.accepted 1 4)] false true true true false 1)
           (Sys.mkWorld [4; 3] []) eq_refl eq_refl eq_refl).
Defined.

(** ** Calling [bind] or [connect] again *)

Lemma TcpSocket_create_valid answer b w :
  TcpSocket.isValid b = true -> TcpSocket.create answer b w = Sys.SelfDeadlock.
Proof.
  intros Hv. destruct (TcpSocket.mutex_ b) eqn:Hmx.
  - destruct b as [sock nb mx]. cbn in Hmx. subst mx. reflexivity.
  - apply TcpSocket_create_on_valid_socket; assumption.
Qed.

(** X23.  A failed [bind] or [connect] cannot be tried again.  When the
    call fails after [::socket] has succeeded, the object keeps the
    descriptor; the next [bind] (or [connect]) calls [create()], which
    finds the socket valid and calls [close()] while it holds [mutex_],
    and [close()] locks [mutex_] again: the second call does not return,
    whatever the operating system would answer. *)
Theorem failed_bind_or_connect_cannot_be_retried :
  (forall sys address port s w s' w' sys' address' port',
      TcpServer.running_ s = false ->
      TcpServer.socket_answer sys <> INVALID_SOCKET ->
      TcpServer.bind sys address port s w = Sys.Returns (false, s') w' ->
      TcpServer.bind sys' address' port' s' w' = Sys.SelfDeadlock)
  /\ (forall sys address port c w c' w' sys' address' port',
         TcpClient.socket_answer sys <> INVALID_SOCKET ->
         TcpClient.connect sys address port c w = Sys.Returns (false, c') w' ->
         TcpClient.connect sys' address' port' c' w' = Sys.SelfDeadlock).
Proof.
  split.
  - intros sys address port s w s' w' sys' address' port' Hrun Hsock H.
    pose proof H as H0. apply TcpServer_bind_failure in H.
    destruct H as [(Hr & _)|[(_ & Hs & _)|(_ & _ & _ & Hvalid & _)]];
      [congruence | contradiction |].
    assert (Hrun' : TcpServer.running_ s' = false).
    { unfold TcpServer.bind in H0. rewrite Hrun in H0. unfold Sys.bind in H0.
      destruct (TcpSocket.create (TcpServer.socket_answer sys) (TcpServer.base s) w)
        as [[ok b] w1| |]; try discriminate.
      cbn in H0. destruct ok; cbn in H0.
      - split_ifs H0; inversion H0; subst; cbn; exact Hrun.
      - inversion H0; subst; cbn; exact Hrun. }
    unfold TcpServer.bind. rewrite Hrun'. unfold Sys.bind.
    rewrite TcpSocket_create_valid; [reflexivity | exact Hvalid].
  - intros sys address port c w c' w' sys' address' port' Hsock H.
    apply TcpClient_connect_failure in H.
    destruct H as (Hst & [(Hs & _)|(_ & _ & Hvalid & _)]); [contradiction|].
    unfold TcpClient.connect, TcpClient.connectInternal, TcpClient.isConnected.
    rewrite Hst. cbn [ConnectionState_eqb]. unfold Sys.bind at 1, Sys.ret at 1.
    unfold Sys.bind at 1.
    rewrite TcpSocket_create_valid; [reflexivity | exact Hvalid].
Qed.

Lemma failed_bind_or_connect_cannot_be_retried_witness :
  let sys := TcpServer.mkBindSys 3 true false in
  let sys' := TcpServer.mkBindSys 4 true true in
  let w := Sys.mkWorld [] [] in
  TcpServer.running_ TcpServer.make = false
  /\ TcpServer.socket_answer sys <> INVALID_SOCKET
  /\ match TcpServer.bind sys "0.0.0.0" 8080 TcpServer.make w with
     | Sys.Returns (false, s') w' =>
         TcpServer.bind sys' "0.0.0.0" 8081 s' w' = Sys.SelfDeadlock
     | _ => False
     end.
Proof.
  cbn zeta.
  assert (H1 : TcpServer.running_ TcpServer.make = false) by reflexivity.
  assert (H2 : TcpServer.socket_answer (TcpServer.mkBindSys 3 true false) <> INVALID_SOCKET)
    by (cbn; discriminate).
  split; [exact H1|]. split; [exact H2|].
  destruct (TcpServer.bind (TcpServer.mkBindSys 3 true false) "0.0.0.0" 8080
                           TcpServer.make (Sys.mkWorld [] []))
    as [[[|] s'] w'| |] eqn:E; try (vm_compute in E; discriminate E).
  exact (proj1 failed_bind_or_connect_cannot_be_retried
           _ _ _ _ _ _ _ (TcpServer.mkBindSys 4 true true) "0.0.0.0"%string 8081 H1 H2 E).
Defined.

(** ** A client that has been disconnected *)

Lemma TcpClient_disconnect_stops c w c1 w1 :
  TcpClient.disconnect c w = Sys.Returns c1 w1 ->
  TcpClient.shouldStop_ c1 = true
  /\ TcpClient.state_ c1 = Disconnected
  /\ TcpClient.receiveThread_ c1 = false
  /\ TcpClient.isValid c1 = false.
Proof.
  destruct c as [[sock nb mx] ra rp st se sc sh rt rct ht stop oc od oe ar hb tc rc].
  unfold TcpClient.disconnect, TcpClient.close, TcpSocket.close, TcpSocket.lock,
    TcpSocket.isValid, TcpClient.isValid, TcpSocket.isValid.
  run_sys. intros H.
  destruct mx; cbn in H; [discriminate|].
  destruct (sock =? INVALID_SOCKET) eqn:Es; cbn in H; destruct od; cbn in H;
    inversion H; subst; cbn; rewrite ?Es; repeat split.
Qed.

Lemma TcpClient_connect_keeps_shouldStop sys address port c w ok c' w' :
  TcpClient.isConnected c = false ->
  TcpClient.connect sys address port c w = Sys.Returns (ok, c') w' ->
  TcpClient.shouldStop_ c' = TcpClient.shouldStop_ c.
Proof.
  unfold TcpClient.connect, TcpClient.connectInternal. intros Hnc H.
  rewrite Hnc in H. unfold Sys.bind at 1, Sys.ret at 1 in H.
  unfold Sys.bind at 1 in H.
  destruct (TcpSocket.create (TcpClient.socket_answer sys)
                             (TcpClient.base (TcpClient.setState Connecting c)) w)
    as [[created b] w2| |] eqn:Hc; try discriminate.
  apply TcpSocket_create_returns in Hc.
  destruct Hc as (_ & Hsock & _ & Hmx & _).
  destruct b as [sock nb mx]. cbn in Hsock, Hmx. subst sock mx.
  destruct sys as [answer res pton fc ca]. cbn in *.
  destruct c as [b1 ra rp st se sc sh rt rct ht stop oc od oe ar hb tc rc].
  unfold TcpClient.fail_with, TcpClient.connected_tail, TcpClient.handleError,
    TcpSocket.setNonBlocking, TcpSocket.lock, TcpSocket.isValid in H.
  run_sys.
  destruct created; cbn in H.
  - split_ifs H; inversion H; subst; cbn; reflexivity.
  - inversion H; subst; cbn; reflexivity.
Qed.

(** X26.  [shouldStop_] is set by [disconnect()] and never cleared, so a
    client that has been disconnected once cannot be used again: when a
    later [connect()] returns, even with success and the state
    [Connected], the conditions of the receive loop and of the heartbeat
    loop are false from the start and the reconnect loop leaves at its
    first test, so the threads just started do nothing. *)
Theorem TcpClient_connect_after_disconnect_receives_nothing
        sys address port c w c1 w1 ok c2 w2 :
  TcpClient.disconnect c w = Sys.Returns c1 w1 ->
  TcpClient.connect sys address port c1 w1 = Sys.Returns (ok, c2) w2 ->
  TcpClient.shouldStop_ c2 = true
  /\ TcpClient.receiveLoop_enters c2 = false
  /\ TcpClient.heartbeatLoop_enters c2 = false
  /\ TcpClient.reconnectLoop_step c2 = TcpClient.LoopExit.
Proof.
  intros Hd Hc. apply TcpClient_disconnect_stops in Hd.
  destruct Hd as (Hstop & Hst & _).
  apply TcpClient_connect_keeps_shouldStop in Hc;
    [|unfold TcpClient.isConnected; rewrite Hst; reflexivity].
  rewrite Hstop in Hc.
  unfold TcpClient.receiveLoop_enters, TcpClient.heartbeatLoop_enters,
    TcpClient.reconnectLoop_step.
  rewrite Hc. repeat split.
Qed.

Lemma TcpClient_connect_after_disconnect_receives_nothing_witness :
  let sys := TcpClient.mkConnectSys 3 None true true TcpClient.ConnectDone in
  let sys' := TcpClient.mkConnectSys 4 None true true TcpClient.ConnectDone in
  match TcpClient.connect sys "127.0.0.1" 8080 TcpClient.make (Sys.mkWorld [] []) with
  | Sys.Returns (_, c) w =>
      match TcpClient.disconnect c w with
      | Sys.Returns c1 w1 =>
          match TcpClient.connect sys' "127.0.0.1" 8080 c1 w1 with
          | Sys.Returns (ok, c2) w2 =>
              ok = true /\ TcpClient.isConnected c2 = true
              /\ TcpClient.receiveLoop_enters c2 = false
          | _ => False
          end
      | _ => False
      end
  | _ => False
  end.
Proof.
  cbn zeta.
  destruct (TcpClient.connect (TcpClient.mkConnectSys 3 None true true TcpClient.ConnectDone)
                              "127.0.0.1" 8080 TcpClient.make (Sys.mkWorld [] []))
    as [[ok0 c] w| |] eqn:E0; try (vm_compute in E0; discriminate E0).
  destruct (TcpClient.disconnect c w) as [c1 w1| |] eqn:E1;
    try (vm_compute in E0; inversion E0; subst; vm_compute in E1; discriminate E1).
  destruct (TcpClient.connect (TcpClient.mkConnectSys 4 None true true TcpClient.ConnectDone)
                              "127.0.0.1" 8080 c1 w1)
    as [[ok c2] w2| |] eqn:E2;
    try (vm_compute in E0; inversion E0; subst; vm_compute in E1; inversion E1; subst;
         vm_compute in E2; discriminate E2).
  pose proof (TcpClient_connect_after_disconnect_receives_nothing _ _ _ _ _ _ _ _ _ _ E1 E2)
    as (_ & Hr & _).
  vm_compute in E0; inversion E0; subst; vm_compute in E1; inversion E1; subst;
    vm_compute in E2; inversion E2; subst.
  split; [reflexivity|]. split; [reflexivity | exact Hr].
Defined.

(** ** Closing one connection of a server *)





(** ** The cleanup thread *)

Lemma destroy_erased_spec last_owner l :
  forall w,
    exists w',
      TcpServer.destroy_erased last_owner l w = Sys.Returns tt w'
      /\ Sys.fired_ w' = Sys.fired_ w
      /\ ((forall c, In (Some c) l -> TcpServer.keeps (Some c) = false ->
                     TcpConnection.state_ c = Disconnected) ->
          w' = w).
Proof.
  induction l as [|o l IH]; intros w; cbn [TcpServer.destroy_erased].
  - exists w. auto.
  - unfold Sys.bind at 1.
    assert (Hhead : exists w1,
               (match o with
                | Some c =>
                    if negb (TcpServer.keeps o) && last_owner (TcpConnection.id_ c)
                    then _ <- TcpConnection.close false c ;; Sys.ret tt
                    else Sys.ret tt
                | None => Sys.ret tt
                end) w = Sys.Returns tt w1
               /\ Sys.fired_ w1 = Sys.fired_ w
               /\ ((forall c, o = Some c -> TcpServer.keeps (Some c) = false ->
                              TcpConnection.state_ c = Disconnected) -> w1 = w)).
    { destruct o as [c|]; [|exists w; auto].
      destruct (negb (TcpServer.keeps (Some c)) && last_owner (TcpConnection.id_ c)) eqn:E;
        [|exists w; auto].
      apply andb_true_iff in E. destruct E as [Hk _]. apply negb_true_iff in Hk.
      unfold TcpConnection.close, Sys.bind.
      destruct (TcpConnection_close_core_returns false c w)
        as (c' & w' & Hrun & _ & _ & _ & _ & Hfired & Hsilent & _).
      rewrite Hrun.
      replace (negb (ConnectionState_eqb (TcpConnection.state_ c) Disconnected)
               && match TcpConnection.onDisconnected_ c with
                  | TcpConnection.NoHandler => false
                  | _ => false
                  end) with false
        by (destruct (negb _), (TcpConnection.onDisconnected_ c); reflexivity).
      unfold Sys.ret. exists w'. split; [reflexivity|]. split; [exact Hfired|].
      intros Hd. apply Hsilent. apply (Hd c eq_refl Hk). }
    destruct Hhead as (w1 & Hrun1 & Hfired1 & Hsame1). rewrite Hrun1.
    destruct (IH w1) as (w2 & Hrun2 & Hfired2 & Hsame2).
    exists w2. split; [exact Hrun2|]. split; [congruence|].
    intros Hd.
    rewrite Hsame2 by (intros c Hin; apply Hd; right; exact Hin).
    apply Hsame1. intros c ->. apply Hd. left. reflexivity.
Qed.

(** X28.  The cleanup thread drops connections without a word: a pass of
    [cleanupLoop] leaves in the registry exactly the connections that are
    [Connected], and fires no callback for the ones it erases, not even
    when it destroys the last reference and the destructor closes the
    connection.  When the erased connections are all [Disconnected]
    already, as after the peer has closed, the pass closes no socket
    either. *)
Theorem TcpServer_cleanup_pass_is_silent last_owner s w :
  TcpServer.connectionsMutex_ s = false ->
  exists w',
    TcpServer.cleanup_pass last_owner s w
    = Sys.Returns (TcpServer.set_connections
                     (filter TcpServer.keeps (TcpServer.connections_ s)) s) w'
    /\ Sys.fired_ w' = Sys.fired_ w
    /\ ((forall c, In (Some c) (TcpServer.connections_ s) ->
                   TcpConnection.isConnected c = false ->
                   TcpConnection.state_ c = Disconnected) ->
        w' = w).
Proof.
  intros Hfree. unfold TcpServer.cleanup_pass. rewrite Hfree. unfold Sys.bind.
  destruct (destroy_erased_spec last_owner (TcpServer.connections_ s) w)
    as (w' & Hrun & Hfired & Hsame).
  rewrite Hrun. exists w'. split; [reflexivity|]. split; [exact Hfired|].
  intros Hd. apply Hsame. intros c Hin Hk. apply Hd; [exact Hin | exact Hk].
Qed.

Lemma TcpServer_cleanup_pass_is_silent_witness :
  let gone := TcpConnection.mk 1 4 Disconnected false true TcpConnection.ServerHandler in
  let s := TcpServer.mk (TcpSocket.mk 3 false false) "0.0.0.0" 8080 true false
                        [Some gone; Some (TcpServer.accepted 2 5)] false true true true true 2 in
  let w := Sys.mkWorld [5; 4; 3] [] in
  TcpServer.connectionsMutex_ s = false
  /\ TcpServer.cleanup_pass (fun _ => true) s w
     = Sys.Returns (TcpServer.set_connections [Some (TcpServer.accepted 2 5)] s) w.
Proof.
  cbn zeta.
  set (gone := TcpConnection.mk 1 4 Disconnected false true TcpConnection.ServerHandler).
  set (s := TcpServer.mk (TcpSocket.mk 3 false false) "0.0.0.0" 8080 true false
                         [Some gone; Some (TcpServer.accepted 2 5)] false true true true true 2).
  assert (H : TcpServer.connectionsMutex_ s = false) by reflexivity.
  split; [exact H|].
  destruct (TcpServer_cleanup_pass_is_silent (fun _ => true) s (Sys.mkWorld [5; 4; 3] []) H)
    as (w' & Hrun & _ & Hsame).
  rewrite Hrun. f_equal. apply Hsame.
  intros c [Hc|[Hc|[]]] Hn; inversion Hc; subst; [reflexivity | discriminate Hn].
Defined.

(** ** The data path of a connection *)

Lemma receiveRaw_data shared answer c w :
  IO.isConnected c = true ->
  TcpConnection.socket_ (IO.conn c) <> INVALID_SOCKET ->
  0 < IO.returned answer ->
  IO.receiveRaw shared answer c w
  = Sys.Returns (IO.Value (IO.returned answer),
                 IO.mk (IO.conn c) (IO.bytesSent_ c)
                       (wrap64 (IO.bytesReceived_ c + IO.returned answer))
                       (IO.onError_ c) (IO.onDataReceived_ c)) w.
Proof.
  intros Hc Hs Hn. unfold IO.receiveRaw. rewrite Hc.
  replace (TcpConnection.socket_ (IO.conn c) =? INVALID_SOCKET) with false
    by (symmetry; apply Z.eqb_neq; exact Hs).
  cbn [negb orb].
  replace (IO.returned answer =? IO.SOCKET_ERROR) with false
    by (symmetry; apply Z.eqb_neq; unfold IO.SOCKET_ERROR; lia).
  replace (IO.returned answer =? 0) with false by (symmetry; apply Z.eqb_neq; lia).
  reflexivity.
Qed.

Lemma receiveRaw_peer_closed shared answer c w :
  IO.isConnected c = true ->
  TcpConnection.socket_ (IO.conn c) <> INVALID_SOCKET ->
  IO.returned answer = 0 ->
  IO.receiveRaw shared answer c w = Sys.Returns (IO.Value (-1), IO.setState Disconnected c) w.
Proof.
  intros Hc Hs Hn. unfold IO.receiveRaw. rewrite Hc, Hn.
  replace (TcpConnection.socket_ (IO.conn c) =? INVALID_SOCKET) with false
    by (symmetry; apply Z.eqb_neq; exact Hs).
  reflexivity.
Qed.

(** The receive loop while data arrives and until the peer closes. *)
Lemma receiveLoop_until_peer_close shared data :
  forall closed later delivered cn bs br oe od w,
    TcpConnection.isConnected cn = true ->
    TcpConnection.shouldStop_ cn = false ->
    TcpConnection.socket_ cn <> INVALID_SOCKET ->
    (od = true -> shared = true) ->
    Forall (fun answer => 0 < IO.returned answer) data ->
    IO.returned closed = 0 ->
    exists received,
      IO.receiveLoop shared (data ++ closed :: later) delivered (IO.mk cn bs br oe od) w
      = Sys.Returns
          (true,
           delivered ++ (if od then map IO.returned data else []),
           IO.setState Disconnected (IO.mk cn bs received oe od)) w.
Proof.
  induction data as [|answer data IH];
    intros closed later delivered cn bs br oe od w Hc Hstop Hs Hshared Hdata Hclosed.
  - cbn [app IO.receiveLoop]. unfold IO.isConnected. cbn [IO.conn].
    rewrite Hstop, Hc. cbn [negb andb].
    unfold Sys.bind.
    rewrite receiveRaw_peer_closed by assumption.
    cbn [Z.ltb Z.compare Z.eqb]. unfold Sys.ret.
    exists br. destruct od; rewrite app_nil_r; reflexivity.
  - inversion Hdata as [|? ? Hn Hrest]; subst.
    cbn [app IO.receiveLoop]. unfold IO.isConnected. cbn [IO.conn].
    rewrite Hstop, Hc. cbn [negb andb].
    unfold Sys.bind. rewrite receiveRaw_data by assumption.
    replace (0 <? IO.returned answer) with true by (symmetry; apply Z.ltb_lt; exact Hn).
    cbn [IO.conn IO.bytesSent_ IO.bytesReceived_ IO.onError_ IO.onDataReceived_].
    destruct od.
    + rewrite (Hshared eq_refl).
      destruct (IH closed later (delivered ++ [IO.returned answer]) cn bs
                   (wrap64 (br + IO.returned answer)) oe true w
                   Hc Hstop Hs Hshared Hrest Hclosed)
        as (received & Hrun).
      rewrite (Hshared eq_refl) in Hrun. rewrite Hrun. exists received. cbn [map]. rewrite <- app_assoc. reflexivity.
    + destruct (IH closed later delivered cn bs
                   (wrap64 (br + IO.returned answer)) oe false w
                   Hc Hstop Hs Hshared Hrest Hclosed)
        as (received & Hrun).
      rewrite Hrun. exists received. reflexivity.
Qed.

(** X25.  A connection that the peer closes ends in silence.  The receive
    loop hands on the data that arrives, and when [::recv] returns zero it
    sets the state to [Disconnected] and leaves: it fires no callback and
    does not close the socket.  A [close()] after that, from the
    application or from the destructor, finds the state [Disconnected] and
    does nothing but join the thread: the disconnected callback is never
    fired for this connection, and its descriptor is never closed. *)
Theorem TcpConnection_peer_close_is_silent shared data closed later c w :
  IO.isConnected c = true ->
  TcpConnection.shouldStop_ (IO.conn c) = false ->
  TcpConnection.socket_ (IO.conn c) <> INVALID_SOCKET ->
  (IO.onDataReceived_ c = true -> shared = true) ->
  Forall (fun answer => 0 < IO.returned answer) data ->
  IO.returned closed = 0 ->
  exists c',
    IO.receiveLoop shared (data ++ closed :: later) [] c w
    = Sys.Returns (true, (if IO.onDataReceived_ c then map IO.returned data else []), c') w
    /\ TcpConnection.state_ (IO.conn c') = Disconnected
    /\ TcpConnection.socket_ (IO.conn c') = TcpConnection.socket_ (IO.conn c)
    /\ forall shared',
         exists c'',
           TcpConnection.close shared' (IO.conn c') w = Sys.Returns c'' w
           /\ TcpConnection.socket_ c'' = TcpConnection.socket_ (IO.conn c).
Proof.
  intros Hc Hstop Hs Hshared Hdata Hclosed.
  destruct c as [cn bs br oe od].
  cbn [IO.conn IO.onDataReceived_] in *. unfold IO.isConnected in Hc. cbn [IO.conn] in Hc.
  destruct (receiveLoop_until_peer_close shared data closed later [] cn bs br oe od w
              Hc Hstop Hs Hshared Hdata Hclosed) as (received & Hrun).
  eexists. split; [exact Hrun|].
  cbn [IO.setState IO.conn TcpConnection.state_ TcpConnection.socket_].
  split; [reflexivity|]. split; [reflexivity|].
  intros shared'. destruct cn as [id sock st stop th h].
  cbn [TcpConnection.id_ TcpConnection.socket_ TcpConnection.shouldStop_
       TcpConnection.receiveThread_ TcpConnection.onDisconnected_].
  unfold TcpConnection.close, TcpConnection.close_core, Sys.bind, Sys.ret.
  cbn. eexists. split; reflexivity.
Qed.

Lemma TcpConnection_peer_close_is_silent_witness :
  let c := IO.mk (TcpServer.accepted 1 4) 0 0 false true in
  let data := [IO.mkIoAnswer 5 IO.EOTHER; IO.mkIoAnswer 3 IO.EOTHER] in
  let closed := IO.mkIoAnswer 0 IO.EOTHER in
  let w := Sys.mkWorld [4; 3] [] in
  IO.isConnected c = true
  /\ TcpConnection.shouldStop_ (IO.conn c) = false
  /\ TcpConnection.socket_ (IO.conn c) <> INVALID_SOCKET
  /\ Forall (fun answer => 0 < IO.returned answer) data
  /\ IO.returned closed = 0
  /\ exists c',
       IO.receiveLoop true (data ++ [closed]) [] c w = Sys.Returns (true, [5; 3], c') w
       /\ exists c'', TcpConnection.close true (IO.conn c') w = Sys.Returns c'' w
                      /\ TcpConnection.socket_ c'' = 4.
Proof.
  cbn zeta.
  set (c := IO.mk (TcpServer.accepted 1 4) 0 0 false true).
  assert (H1 : IO.isConnected c = true) by reflexivity.
  assert (H2 : TcpConnection.shouldStop_ (IO.conn c) = false) by reflexivity.
  assert (H3 : TcpConnection.socket_ (IO.conn c) <> INVALID_SOCKET) by (cbn; discriminate).
  assert (H4 : IO.onDataReceived_ c = true -> true = true) by reflexivity.
  assert (H5 : Forall (fun answer => 0 < IO.returned answer)
                 [IO.mkIoAnswer 5 IO.EOTHER; IO.mkIoAnswer 3 IO.EOTHER])
    by (repeat constructor).
  assert (H6 : IO.returned (IO.mkIoAnswer 0 IO.EOTHER) = 0) by reflexivity.
  split; [exact H1|]. split; [exact H2|]. split; [exact H3|]. split; [exact H5|].
  split; [exact H6|].
  destruct (TcpConnection_peer_close_is_silent true _ _ [] c (Sys.mkWorld [4; 3] [])
              H1 H2 H3 H4 H5 H6) as (c' & Hrun & _ & _ & Hclose).
  exists c'. split; [exact Hrun|]. exact (Hclose true).
Defined.

Lemma send_loop_done shared answers length w :
  forall total cn bs br oe od,
    0 <= total ->
    total + IO.accepted answers = length ->
    length <= SIZE_MAX ->
    0 <= bs <= SIZE_MAX ->
    Forall (fun answer =>
              (IO.returned answer = IO.SOCKET_ERROR /\ IO.errno answer = IO.EAGAIN)
              \/ 0 < IO.returned answer) answers ->
    IO.send_loop shared answers length total (IO.mk cn bs br oe od) w
    = Sys.Returns (IO.SendReturns true,
                   IO.mk cn (wrap64 (bs + (length - total))) br oe od) w.
Proof.
  induction answers as [|answer later IH];
    intros total cn bs br oe od Htotal Hsum Hlen Hbs Hok.
  - cbn [IO.accepted fold_right] in Hsum.
    cbn [IO.send_loop].
    replace (total <? length) with false by (symmetry; apply Z.ltb_ge; lia).
    replace (length - total) with 0 by lia.
    rewrite Z.add_0_r, wrap64_small by exact Hbs. reflexivity.
  - apply Forall_cons_iff in Hok. destruct Hok as [Ha Hlater].
    change (IO.accepted (answer :: later))
      with ((if IO.returned answer =? IO.SOCKET_ERROR then 0 else IO.returned answer)
            + IO.accepted later) in Hsum.
    assert (Hnonneg : 0 <= IO.accepted later).
    { clear - Hlater. induction Hlater as [|a l Ha _ IHl]; [cbn; lia|].
      change (IO.accepted (a :: l))
        with ((if IO.returned a =? IO.SOCKET_ERROR then 0 else IO.returned a)
              + IO.accepted l).
      destruct (IO.returned a =? IO.SOCKET_ERROR) eqn:E; [lia|].
      apply Z.eqb_neq in E.
      destruct Ha as [[Ha _]|Ha]; [contradiction | lia]. }
    cbn [IO.send_loop].
    destruct (total <? length) eqn:Hmore.
    + destruct Ha as [[Herr Heagain]|Hpos].
      * rewrite Herr, Heagain. cbn [Z.eqb IO.SOCKET_ERROR Pos.eqb].
        rewrite Herr in Hsum. cbn [Z.eqb IO.SOCKET_ERROR Pos.eqb] in Hsum.
        apply IH; try assumption; lia.
      * replace (IO.returned answer =? IO.SOCKET_ERROR) with false in *
          by (symmetry; apply Z.eqb_neq; unfold IO.SOCKET_ERROR; lia).
        cbn [IO.conn IO.bytesSent_ IO.bytesReceived_ IO.onError_ IO.onDataReceived_].
        rewrite (wrap64_small (total + IO.returned answer)) by lia.
        assert (Hw : wrap64 (wrap64 (bs + IO.returned answer)
                             + (length - (total + IO.returned answer)))
                     = wrap64 (bs + (length - total))).
        { unfold wrap64. rewrite Zplus_mod_idemp_l. f_equal. lia. }
        rewrite IH; try assumption; try lia.
        -- rewrite Hw. reflexivity.
        -- pose proof (wrap64_range (bs + IO.returned answer)). unfold SIZE_MAX. lia.
    + apply Z.ltb_ge in Hmore.
      assert (Hzero : length - total = 0).
      { destruct (IO.returned answer =? IO.SOCKET_ERROR) eqn:E; [lia|].
        apply Z.eqb_neq in E. destruct Ha as [[Ha _]|Ha]; [contradiction | lia]. }
      rewrite Hzero.
      rewrite Z.add_0_r, wrap64_small by exact Hbs. reflexivity.
Qed.

Lemma send_loop_would_block shared answers length w :
  forall total c,
    total < length ->
    Forall (fun answer =>
              IO.returned answer = IO.SOCKET_ERROR /\ IO.errno answer = IO.EAGAIN) answers ->
    IO.send_loop shared answers length total c w = Sys.Returns (IO.SendPending, c) w.
Proof.
  induction answers as [|answer later IH]; intros total c Hmore Hall;
    cbn [IO.send_loop];
    replace (total <? length) with true by (symmetry; apply Z.ltb_lt; exact Hmore).
  - reflexivity.
  - apply Forall_cons_iff in Hall. destruct Hall as [[Herr Heagain] Hlater].
    rewrite Herr, Heagain. cbn [Z.eqb IO.SOCKET_ERROR Pos.eqb].
    apply IH; assumption.
Qed.

(** X29.  [TcpConnection::send] returns [true] only when every byte has
    been handed to the kernel: on a connected connection, partial writes
    and [EAGAIN] answers are followed by further [::send] calls until the
    counts add up to [length], [bytesSent_] then has grown by exactly
    [length], and no callback is fired.  As long as the kernel answers
    [EAGAIN] the call does not return at all: it retries at once, without
    a limit. *)
Theorem TcpConnection_send_sends_everything shared answers length c w :
  IO.isConnected c = true ->
  TcpConnection.socket_ (IO.conn c) <> INVALID_SOCKET ->
  0 < length <= SIZE_MAX ->
  0 <= IO.bytesSent_ c <= SIZE_MAX ->
  (Forall (fun answer =>
             (IO.returned answer = IO.SOCKET_ERROR /\ IO.errno answer = IO.EAGAIN)
             \/ 0 < IO.returned answer) answers ->
   IO.accepted answers = length ->
   IO.send shared answers length c w
   = Sys.Returns (IO.SendReturns true,
                  IO.mk (IO.conn c) (wrap64 (IO.bytesSent_ c + length))
                        (IO.bytesReceived_ c) (IO.onError_ c) (IO.onDataReceived_ c)) w)
  /\ (Forall (fun answer =>
                IO.returned answer = IO.SOCKET_ERROR /\ IO.errno answer = IO.EAGAIN) answers ->
      IO.send shared answers length c w = Sys.Returns (IO.SendPending, c) w).
Proof.
  intros Hc Hs Hlen Hbs.
  unfold IO.send. rewrite Hc.
  replace (TcpConnection.socket_ (IO.conn c) =? INVALID_SOCKET) with false
    by (symmetry; apply Z.eqb_neq; exact Hs).
  cbn [negb orb]. split.
  - intros Hok Hsum. destruct c as [cn bs br oe od].
    cbn [IO.conn IO.bytesSent_ IO.bytesReceived_ IO.onError_ IO.onDataReceived_] in *.
    rewrite (send_loop_done shared answers length w 0 cn bs br oe od); try assumption;
      try lia.
    rewrite Z.sub_0_r. reflexivity.
  - intros Hall. apply send_loop_would_block; [lia | exact Hall].
Qed.

Lemma TcpConnection_send_sends_everything_witness :
  let c := IO.mk (TcpServer.accepted 1 4) 10 0 false false in
  let answers := [IO.mkIoAnswer 3 IO.EOTHER; IO.mkIoAnswer (-1) IO.EAGAIN;
                  IO.mkIoAnswer 5 IO.EOTHER] in
  let w := Sys.mkWorld [4] [] in
  IO.isConnected c = true
  /\ TcpConnection.socket_ (IO.conn c) <> INVALID_SOCKET
  /\ 0 < 8 <= SIZE_MAX
  /\ 0 <= IO.bytesSent_ c <= SIZE_MAX
  /\ IO.accepted answers = 8
  /\ IO.send true answers 8 c w
     = Sys.Returns (IO.SendReturns true, IO.mk (TcpServer.accepted 1 4) 18 0 false false) w.
Proof.
  cbn zeta.
  set (c := IO.mk (TcpServer.accepted 1 4) 10 0 false false).
  assert (H1 : IO.isConnected c = true) by reflexivity.
  assert (H2 : TcpConnection.socket_ (IO.conn c) <> INVALID_SOCKET) by (cbn; discriminate).
  assert (H3 : 0 < 8 <= SIZE_MAX) by (unfold SIZE_MAX; lia).
  assert (H4 : 0 <= IO.bytesSent_ c <= SIZE_MAX) by (unfold SIZE_MAX; cbn; lia).
  assert (H5 : Forall (fun answer =>
                         (IO.returned answer = IO.SOCKET_ERROR /\ IO.errno answer = IO.EAGAIN)
                         \/ 0 < IO.returned answer)
                 [IO.mkIoAnswer 3 IO.EOTHER; IO.mkIoAnswer (-1) IO.EAGAIN;
                  IO.mkIoAnswer 5 IO.EOTHER]).
  { constructor; [right; cbn; lia|]. constructor; [left; split; reflexivity|].
    constructor; [right; cbn; lia | constructor]. }
  assert (H6 : IO.accepted [IO.mkIoAnswer 3 IO.EOTHER; IO.mkIoAnswer (-1) IO.EAGAIN;
                            IO.mkIoAnswer 5 IO.EOTHER] = 8) by reflexivity.
  split; [exact H1|]. split; [exact H2|]. split; [exact H3|]. split; [exact H4|].
  split; [exact H6|].
  exact (proj1 (TcpConnection_send_sends_everything true _ 8 c (Sys.mkWorld [4] [])
                  H1 H2 H3 H4) H5 H6).
Defined.
